(** * datalink-share-api: chain integrity and consensus resolution

    A shallow embedding of [app/main.py] and [app/models.py].

    - Python [str] values are modelled by [string]; every [ascii] stands for
      the code point of the same number, so the records and handlers cover
      the strings over the code points 0..255. The module [Unicode] at the
      end of the definitions has [json.dumps], [json.loads] and the
      resolver for strings of any code points, surrogates included, where
      the serialisation is no longer one-to-one.
    - Python [int] values are modelled by [Z]. CPython converts an int to
      text only up to 4300 digits; the handlers are modelled for integers
      within this limit, which the properties that build a new index state
      as a hypothesis ([int_str_ok]); [Unicode.dumps] raises ValueError
      beyond it.
    - Python dicts with string keys are modelled by [gmap string _]: the
      program always serialises with [sort_keys=True] and compares dicts by
      [==], so insertion order is never observed.
    - The pydantic models are records.
    - [hashlib.sha256], [json.dumps] and [json.loads] are modelled by
      executable definitions (modules [Sha256] and [Json]); JSON numbers are
      the integers, floats are outside the model.
    - [datetime.now(timezone.utc).isoformat()] reads the clock: every
      operation takes the strings it reads from the clock as arguments.
    - The module globals [chains] and [participants] and the two files the
      program writes are the fields of [State]; a handler is a function from
      the state to what it returns or raises and the next state.

    The definitions come first: the libraries, the models, the handlers,
    then the vocabulary of the properties. The properties follow: the
    digest, the validator, the append engine, the decoder reading back what
    the encoder wrote, and the resolver. *)

From Stdlib Require Import ZArith String Ascii List Lia.
From Stdlib Require Import DecimalString DecimalPos.
From stdpp Require Import gmap strings list fin_maps.

Set Warnings "-register-all".
Local Open Scope Z_scope.

(** ** hashlib.sha256 (FIPS 180-4) *)

Module Sha256.

(** 32-bit words are integers in [0, 2^32); additions wrap around. *)
Definition wrap (x : Z) : Z := Z.land x 0xFFFFFFFF.

Definition add32 (x y : Z) : Z := wrap (x + y).

Definition rotr (n x : Z) : Z :=
  wrap (Z.lor (Z.shiftr x n) (Z.shiftl x (32 - n))).

Definition shr (n x : Z) : Z := Z.shiftr x n.

Definition Ch (x y z : Z) : Z :=
  Z.lxor (Z.land x y) (Z.land (Z.lxor x 0xFFFFFFFF) z).

Definition Maj (x y z : Z) : Z :=
  Z.lxor (Z.lxor (Z.land x y) (Z.land x z)) (Z.land y z).

Definition Sigma0 (x : Z) : Z := Z.lxor (Z.lxor (rotr 2 x) (rotr 13 x)) (rotr 22 x).
Definition Sigma1 (x : Z) : Z := Z.lxor (Z.lxor (rotr 6 x) (rotr 11 x)) (rotr 25 x).
Definition sigma0 (x : Z) : Z := Z.lxor (Z.lxor (rotr 7 x) (rotr 18 x)) (shr 3 x).
Definition sigma1 (x : Z) : Z := Z.lxor (Z.lxor (rotr 17 x) (rotr 19 x)) (shr 10 x).

(** The constants of FIPS 180-4, sections 4.2.2 and 5.3.3: the first 32
    bits of the fractional parts of the cube roots of the first 64 primes,
    and of the square roots of the first 8 primes. *)
Definition primes : list Z :=
  [ 2; 3; 5; 7; 11; 13; 17; 19; 23; 29; 31; 37; 41; 43; 47; 53;
    59; 61; 67; 71; 73; 79; 83; 89; 97; 101; 103; 107; 109; 113; 127; 131;
    137; 139; 149; 151; 157; 163; 167; 173; 179; 181; 191; 193; 197; 199;
    211; 223; 227; 229; 233; 239; 241; 251; 257; 263; 269; 271; 277; 281;
    283; 293; 307; 311 ].

(** The integer cube root of [n], for [n] below [2^105], bit by bit. *)
Definition cube_root (n : Z) : Z :=
  fold_left (fun r i => let r' := r + 2 ^ Z.of_nat i in
                        if r' * r' * r' <=? n then r' else r)
            (rev (seq 0 35)) 0.

Definition K : list Z :=
  map (fun p => wrap (cube_root (p * 2 ^ 96))) primes.

(** The eight working variables. *)
Record regs : Type := Regs {
  ra : Z; rb : Z; rc : Z; rd : Z; re : Z; rf : Z; rg : Z; rh : Z
}.

Definition root_bits (i : nat) : Z := wrap (Z.sqrt (nth i primes 0 * 2 ^ 64)).

Definition H0 : regs :=
  Regs (root_bits 0) (root_bits 1) (root_bits 2) (root_bits 3)
       (root_bits 4) (root_bits 5) (root_bits 6) (root_bits 7).

(** Padding: the message, the byte 0x80, zero bytes up to 56 modulo 64, and
    the bit length as a 64-bit big-endian integer. *)
Definition be_bytes (n : nat) (x : Z) : list Z :=
  map (fun i => Z.land (Z.shiftr x (8 * Z.of_nat i)) 0xFF) (rev (seq 0 n)).

Definition pad (msg : list Z) : list Z :=
  let len := Z.of_nat (length msg) in
  msg ++ [0x80] ++ repeat 0 (Z.to_nat ((55 - len) mod 64)) ++ be_bytes 8 (8 * len).

Fixpoint to_words (bs : list Z) : list Z :=
  match bs with
  | b0 :: b1 :: b2 :: b3 :: rest =>
      Z.lor (Z.shiftl b0 24) (Z.lor (Z.shiftl b1 16) (Z.lor (Z.shiftl b2 8) b3))
      :: to_words rest
  | _ => []
  end.

(** One step of the message schedule; [rw] holds the words computed so far,
    the latest first. *)
Definition schedule_step (rw : list Z) : list Z :=
  add32 (add32 (add32 (sigma1 (nth 1 rw 0)) (nth 6 rw 0)) (sigma0 (nth 14 rw 0)))
        (nth 15 rw 0) :: rw.

Definition schedule (block : list Z) : list Z :=
  rev (Nat.iter 48 schedule_step (rev block)).

Definition round (s : regs) (kw : Z * Z) : regs :=
  let t1 := add32 (add32 (add32 (add32 (rh s) (Sigma1 (re s)))
                                (Ch (re s) (rf s) (rg s))) (fst kw)) (snd kw) in
  let t2 := add32 (Sigma0 (ra s)) (Maj (ra s) (rb s) (rc s)) in
  Regs (add32 t1 t2) (ra s) (rb s) (rc s) (add32 (rd s) t1) (re s) (rf s) (rg s).

Definition compress (h : regs) (block : list Z) : regs :=
  let s := fold_left round (combine K (schedule block)) h in
  Regs (add32 (ra h) (ra s)) (add32 (rb h) (rb s)) (add32 (rc h) (rc s))
       (add32 (rd h) (rd s)) (add32 (re h) (re s)) (add32 (rf h) (rf s))
       (add32 (rg h) (rg s)) (add32 (rh h) (rh s)).

(** The blocks of sixteen words, in order. *)
Fixpoint process (h : regs) (ws : list Z) : regs :=
  match ws with
  | w0 :: w1 :: w2 :: w3 :: w4 :: w5 :: w6 :: w7 ::
    w8 :: w9 :: w10 :: w11 :: w12 :: w13 :: w14 :: w15 :: rest =>
      process (compress h [w0; w1; w2; w3; w4; w5; w6; w7;
                           w8; w9; w10; w11; w12; w13; w14; w15]) rest
  | _ => h
  end.

Definition digest (msg : list Z) : regs := process H0 (to_words (pad msg)).

Definition hex_digit (x : Z) : ascii :=
  ascii_of_N (Z.to_N (if x <? 10 then 48 + x else 87 + x)).

Definition hex_nibble (x : Z) (i : Z) : ascii :=
  hex_digit (Z.land (Z.shiftr x (4 * i)) 0xF).

Definition hex_word (x : Z) (rest : string) : string :=
  String (hex_nibble x 7) (String (hex_nibble x 6)
  (String (hex_nibble x 5) (String (hex_nibble x 4)
  (String (hex_nibble x 3) (String (hex_nibble x 2)
  (String (hex_nibble x 1) (String (hex_nibble x 0) rest))))))).

(** [sha256(msg).hexdigest()]: 64 lower-case hexadecimal digits. *)
Definition hexdigest (msg : list Z) : string :=
  let h := digest msg in
  hex_word (ra h) (hex_word (rb h) (hex_word (rc h) (hex_word (rd h)
  (hex_word (re h) (hex_word (rf h) (hex_word (rg h) (hex_word (rh h) ""))))))).

End Sha256.

(** [str.encode()]: the UTF-8 bytes of a string (code points below 256 take
    one or two bytes). *)
Definition utf8_char (c : ascii) : list Z :=
  let n := Z.of_N (N_of_ascii c) in
  if n <? 128 then [n]
  else [Z.lor 0xC0 (Z.shiftr n 6); Z.lor 0x80 (Z.land n 0x3F)].

Fixpoint encode (s : string) : list Z :=
  match s with
  | EmptyString => []
  | String c rest => utf8_char c ++ encode rest
  end.

Definition sha256_hexdigest (s : string) : string := Sha256.hexdigest (encode s).


(** ** The json module: [json.dumps(_, sort_keys=True)] and [json.loads]

    For the strings over the code points 0..255 and the integers of at
    most 4300 digits. The module [Unicode] below has both functions for
    strings of any code points, where two different strings can get the
    same text, and with the ValueError of a longer integer. *)

Module Json.

(** The values the json module converts: [None], [bool], [int], [str],
    [list] and [dict] with string keys. *)
Inductive json : Type :=
  | JNull
  | JBool (b : bool)
  | JInt (n : Z)
  | JStr (s : string)
  | JList (l : list json)
  | JObj (m : gmap string json).

Definition quote : ascii := ascii_of_N 34.
Definition backslash : ascii := ascii_of_N 92.

(** *** Encoder *)

Definition hex_digit (d : N) : ascii :=
  ascii_of_N (if (d <? 10)%N then 48 + d else 87 + d)%N.

(** [ESCAPE_DCT] and the [\uXXXX] fallback of [py_encode_basestring_ascii]:
    the characters outside [' '..'~'], the quote and the backslash are
    escaped. *)
Definition escape_char (c : ascii) : string :=
  let n := N_of_ascii c in
  if (n =? 34)%N then String backslash (String quote "")
  else if (n =? 92)%N then String backslash (String backslash "")
  else if (n =? 8)%N then String backslash "b"
  else if (n =? 12)%N then String backslash "f"
  else if (n =? 10)%N then String backslash "n"
  else if (n =? 13)%N then String backslash "r"
  else if (n =? 9)%N then String backslash "t"
  else if ((n <? 32) || (126 <? n))%N then
    String backslash (String "u" (String "0" (String "0"
      (String (hex_digit (n / 16)) (String (hex_digit (n mod 16)) "")))))
  else String c "".

Fixpoint escape (s : string) : string :=
  match s with
  | EmptyString => ""
  | String c rest => escape_char c +:+ escape rest
  end.

Definition encode_basestring_ascii (s : string) : string :=
  String quote (escape s +:+ String quote "").

(** [int.__repr__], for an integer of at most 4300 digits: CPython
    raises ValueError for a longer one. *)
Definition int_repr (n : Z) : string := NilZero.string_of_int (Z.to_int n).

(** [sep.join(items)] *)
Fixpoint join (sep : string) (items : list string) : string :=
  match items with
  | [] => ""
  | [x] => x
  | x :: rest => x +:+ sep +:+ join sep rest
  end.

(** [sorted(dct.items())]: the keys of a dict are distinct, so the items
    are ordered by their keys, compared as Python compares [str] (code
    point by code point). *)
Fixpoint insert_item {A} (kv : string * A) (items : list (string * A)) :
  list (string * A) :=
  match items with
  | [] => [kv]
  | kv' :: rest =>
      if String.leb (fst kv) (fst kv') then kv :: items
      else kv' :: insert_item kv rest
  end.

Definition sorted_items {A} (m : gmap string A) : list (string * A) :=
  foldr insert_item [] (map_to_list m).

Definition dump_item (kv : string * string) : string :=
  encode_basestring_ascii (fst kv) +:+ ": " +:+ snd kv.

(** [json.dumps(v, sort_keys=True)], with the default separators [", "] and
    [": "] and [ensure_ascii=True]. *)
Fixpoint dumps (v : json) : string :=
  match v with
  | JNull => "null"
  | JBool true => "true"
  | JBool false => "false"
  | JInt n => int_repr n
  | JStr s => encode_basestring_ascii s
  | JList l => "[" +:+ join ", " (dumps <$> l) +:+ "]"
  | JObj m => "{" +:+ join ", " (dump_item <$> sorted_items (dumps <$> m)) +:+ "}"
  end.

(** *** Decoder *)

Definition is_whitespace (c : ascii) : bool :=
  let n := N_of_ascii c in
  ((n =? 32) || (n =? 9) || (n =? 10) || (n =? 13))%N.

Fixpoint skip_whitespace (s : string) : string :=
  match s with
  | EmptyString => ""
  | String c rest => if is_whitespace c then skip_whitespace rest else s
  end.

Definition hex_value (c : ascii) : option N :=
  let n := N_of_ascii c in
  if ((48 <=? n) && (n <=? 57))%N then Some (n - 48)%N
  else if ((97 <=? n) && (n <=? 102))%N then Some (n - 87)%N
  else if ((65 <=? n) && (n <=? 70))%N then Some (n - 55)%N
  else None.

(** The [BACKSLASH] table of the decoder. *)
Definition unescape (c : ascii) : option ascii :=
  let n := N_of_ascii c in
  if (n =? 34)%N then Some quote
  else if (n =? 92)%N then Some backslash
  else if (n =? 47)%N then Some "/"%char
  else if (n =? 98)%N then Some (ascii_of_N 8)
  else if (n =? 102)%N then Some (ascii_of_N 12)
  else if (n =? 110)%N then Some (ascii_of_N 10)
  else if (n =? 114)%N then Some (ascii_of_N 13)
  else if (n =? 116)%N then Some (ascii_of_N 9)
  else None.

(** [py_scanstring] in strict mode, from the character after the opening
    quote: the decoded string and the text after the closing quote. An
    escape of a code point above 255 is outside the model. *)
Fixpoint scanstring (s : string) : option (string * string) :=
  match s with
  | EmptyString => None
  | String c rest =>
      let n := N_of_ascii c in
      if (n =? 34)%N then Some (EmptyString, rest)
      else if (n =? 92)%N then
        match rest with
        | EmptyString => None
        | String e rest1 =>
            if (N_of_ascii e =? 117)%N then
              match rest1 with
              | String h1 (String h2 (String h3 (String h4 rest2))) =>
                  match hex_value h1, hex_value h2, hex_value h3, hex_value h4 with
                  | Some x1, Some x2, Some x3, Some x4 =>
                      let cp := (((x1 * 16 + x2) * 16 + x3) * 16 + x4)%N in
                      if (cp <? 256)%N then
                        match scanstring rest2 with
                        | Some (t, r) => Some (String (ascii_of_N cp) t, r)
                        | None => None
                        end
                      else None
                  | _, _, _, _ => None
                  end
              | _ => None
              end
            else
              match unescape e with
              | Some ch =>
                  match scanstring rest1 with
                  | Some (t, r) => Some (String ch t, r)
                  | None => None
                  end
              | None => None
              end
        end
      else if (n <? 32)%N then None
      else
        match scanstring rest with
        | Some (t, r) => Some (String c t, r)
        | None => None
        end
  end.

Definition digit (c : ascii) : option (Decimal.uint -> Decimal.uint) :=
  let n := N_of_ascii c in
  if (n =? 48)%N then Some Decimal.D0
  else if (n =? 49)%N then Some Decimal.D1
  else if (n =? 50)%N then Some Decimal.D2
  else if (n =? 51)%N then Some Decimal.D3
  else if (n =? 52)%N then Some Decimal.D4
  else if (n =? 53)%N then Some Decimal.D5
  else if (n =? 54)%N then Some Decimal.D6
  else if (n =? 55)%N then Some Decimal.D7
  else if (n =? 56)%N then Some Decimal.D8
  else if (n =? 57)%N then Some Decimal.D9
  else None.

(** The longest prefix of decimal digits. *)
Fixpoint scan_digits (s : string) : Decimal.uint * string :=
  match s with
  | EmptyString => (Decimal.Nil, s)
  | String c rest =>
      match digit c with
      | Some d => let '(u, r) := scan_digits rest in (d u, r)
      | None => (Decimal.Nil, s)
      end
  end.

(** The integer part of [NUMBER_RE]: [0|[1-9]\d*] after an optional sign. *)
Definition scan_natural (s : string) : option (Z * string) :=
  match s with
  | EmptyString => None
  | String c rest =>
      if (N_of_ascii c =? 48)%N then Some (0, rest)
      else
        match digit c with
        | Some _ => let '(u, r) := scan_digits s in Some (Z.of_uint u, r)
        | None => None
        end
  end.

Definition scan_number (s : string) : option (Z * string) :=
  match s with
  | EmptyString => None
  | String c rest =>
      if (N_of_ascii c =? 45)%N then
        match scan_natural rest with
        | Some (n, r) => Some (- n, r)
        | None => None
        end
      else scan_natural s
  end.

(** [s[idx:idx+len(lit)] == lit] *)
Fixpoint strip_prefix (lit s : string) : option string :=
  match lit, s with
  | EmptyString, _ => Some s
  | String a lit', String b s' => if Ascii.eqb a b then strip_prefix lit' s' else None
  | String _ _, EmptyString => None
  end.

(** [dict(pairs)]: a later pair replaces an earlier one with the same key. *)
Definition dict_of_pairs {A} (pairs : list (string * A)) : gmap string A :=
  list_to_map (reverse pairs).

(** [s[end:end+1] == c], for the character with code [n]. *)
Definition next_is (n : N) (s : string) : bool :=
  match s with
  | EmptyString => false
  | String c _ => (N_of_ascii c =? n)%N
  end.

(** [s[end+1:]] *)
Definition advance (s : string) : string :=
  match s with
  | EmptyString => EmptyString
  | String _ rest => rest
  end.

(** [scan_once], [JSONArray] and [JSONObject]. The decoder is recursive on
    the text; [fuel] bounds the depth of the recursion and [None] is a
    [JSONDecodeError] (or a value outside the model: a float, a code point
    above 255). The results carry the text that follows the value. *)
Fixpoint scan_once (fuel : nat) (s : string) : option (json * string) :=
  match fuel with
  | O => None
  | S fuel =>
      if next_is 34 s then
        match scanstring (advance s) with
        | Some (t, r) => Some (JStr t, r)
        | None => None
        end
      else if next_is 123 s then
        let s1 := skip_whitespace (advance s) in
        if next_is 125 s1 then Some (JObj ∅, advance s1)
        else
          match scan_pairs fuel s1 with
          | Some (pairs, r) => Some (JObj (dict_of_pairs pairs), r)
          | None => None
          end
      else if next_is 91 s then
        let s1 := skip_whitespace (advance s) in
        if next_is 93 s1 then Some (JList [], advance s1)
        else
          match scan_values fuel s1 with
          | Some (values, r) => Some (JList values, r)
          | None => None
          end
      else if next_is 110 s then
        match strip_prefix "ull" (advance s) with
        | Some r => Some (JNull, r)
        | None => None
        end
      else if next_is 116 s then
        match strip_prefix "rue" (advance s) with
        | Some r => Some (JBool true, r)
        | None => None
        end
      else if next_is 102 s then
        match strip_prefix "alse" (advance s) with
        | Some r => Some (JBool false, r)
        | None => None
        end
      else
        match scan_number s with
        | Some (z, r) => Some (JInt z, r)
        | None => None
        end
  end
with scan_values (fuel : nat) (s : string) : option (list json * string) :=
  match fuel with
  | O => None
  | S fuel =>
      match scan_once fuel s with
      | Some (v, r) =>
          let r1 := skip_whitespace r in
          if next_is 93 r1 then Some ([v], advance r1)
          else if next_is 44 r1 then
            match scan_values fuel (skip_whitespace (advance r1)) with
            | Some (values, r2) => Some (v :: values, r2)
            | None => None
            end
          else None
      | None => None
      end
  end
with scan_pairs (fuel : nat) (s : string) : option (list (string * json) * string) :=
  match fuel with
  | O => None
  | S fuel =>
      if next_is 34 s then
        match scanstring (advance s) with
        | Some (key, r) =>
            let r1 := skip_whitespace r in
            if next_is 58 r1 then
              match scan_once fuel (skip_whitespace (advance r1)) with
              | Some (v, r2) =>
                  let r3 := skip_whitespace r2 in
                  if next_is 125 r3 then Some ([(key, v)], advance r3)
                  else if next_is 44 r3 then
                    match scan_pairs fuel (skip_whitespace (advance r3)) with
                    | Some (pairs, r4) => Some ((key, v) :: pairs, r4)
                    | None => None
                    end
                  else None
              | None => None
              end
            else None
        | None => None
        end
      else None
  end.

(** [json.loads(s)]: leading whitespace, one value, trailing whitespace. *)
Definition loads (s : string) : option json :=
  match scan_once (String.length s) (skip_whitespace s) with
  | Some (v, r) =>
      match skip_whitespace r with
      | EmptyString => Some v
      | _ => None
      end
  | None => None
  end.

End Json.

Import Json.
Local Open Scope string_scope.
Local Open Scope Z_scope.
Local Open Scope list_scope.

(** ** app/models.py *)

Record MessageSender : Type := {
  ipAddress : string;
  uuid : string
}.

Record Message : Type := {
  sender : MessageSender;
  recipient : MessageSender;
  content : string;
  message_timestamp : string   (* [Message.timestamp] *)
}.

Record Block : Type := {
  index : Z;
  previousHash : string;
  timestamp : string;
  message : Message;
  proof : Z;
  hash : string
}.

(** A stored chain is [proposal.dict()], or a dict of the same three keys
    that [create_genesis] or [send_message] builds: one record models
    both. *)
Record ChainProposal : Type := {
  blocks : list Block;
  network : gmap string json;
  status : gmap string json
}.

Record Participant : Type := {
  participant_ipAddress : string;   (* [Participant.ipAddress] *)
  participant_uuid : string         (* [Participant.uuid] *)
}.

(** [BaseModel.dict()] *)
Definition MessageSender_dict (s : MessageSender) : gmap string json :=
  list_to_map [("ipAddress", JStr (ipAddress s)); ("uuid", JStr (uuid s))].

Definition Message_dict (m : Message) : gmap string json :=
  list_to_map [("sender", JObj (MessageSender_dict (sender m)));
               ("recipient", JObj (MessageSender_dict (recipient m)));
               ("content", JStr (content m));
               ("timestamp", JStr (message_timestamp m))].

Definition Block_dict (b : Block) : gmap string json :=
  list_to_map [("index", JInt (index b));
               ("previousHash", JStr (previousHash b));
               ("timestamp", JStr (timestamp b));
               ("message", JObj (Message_dict (message b)));
               ("proof", JInt (proof b));
               ("hash", JStr (hash b))].

Definition ChainProposal_dict (c : ChainProposal) : gmap string json :=
  list_to_map [("blocks", JList ((fun b => JObj (Block_dict b)) <$> blocks c));
               ("network", JObj (network c));
               ("status", JObj (status c))].

(** ** app/main.py *)

Inductive Exception : Type :=
  | HTTPException (status_code : Z) (detail : string)
  | IndexError
  | JSONDecodeError
  | ValueError.

(** What a call does: it returns a value or raises. *)
Inductive Outcome (A : Type) : Type :=
  | Return (value : A)
  | Raise (e : Exception).
Arguments Return {A} value.
Arguments Raise {A} e.

(** The globals [chains] and [participants], and what was last written to
    [CHAIN_FILE] and [PARTICIPANTS_FILE] ([None]: not written yet). *)
Record State : Type := {
  chains : list ChainProposal;
  participants : gset (string * string);
  chain_file : option (list ChainProposal);
  participants_file : option (gset (string * string))
}.

Definition save_chain (st : State) : State :=
  {| chains := chains st; participants := participants st;
     chain_file := Some (chains st);
     participants_file := participants_file st |}.

Definition save_participants (st : State) : State :=
  {| chains := chains st; participants := participants st;
     chain_file := chain_file st;
     participants_file := Some (participants st) |}.

Definition set_chains (cs : list ChainProposal) (st : State) : State :=
  {| chains := cs; participants := participants st;
     chain_file := chain_file st;
     participants_file := participants_file st |}.

Definition set_participants (ps : gset (string * string)) (st : State) : State :=
  {| chains := chains st; participants := ps;
     chain_file := chain_file st;
     participants_file := participants_file st |}.

Definition calculate_hash (block : Block) : string :=
  let block_string :=
    dumps (JObj (list_to_map
      [("index", JInt (index block));
       ("previousHash", JStr (previousHash block));
       ("timestamp", JStr (timestamp block));
       ("message", JObj (Message_dict (message block)));
       ("proof", JInt (proof block))])) in
  Sha256.hexdigest (encode block_string).

(** The loop [for i in range(1, len(blocks))] of [is_chain_valid]:
    [previous] is [blocks[i - 1]] and the list holds [blocks[i:]]. *)
Fixpoint check_links (previous : Block) (rest : list Block) : bool :=
  match rest with
  | [] => true
  | current :: rest' =>
      if negb (String.eqb (previousHash current) (calculate_hash previous)) then false
      else if negb (String.eqb (hash current) (calculate_hash current)) then false
      else check_links current rest'
  end.

Definition is_chain_valid (blocks : list Block) : bool :=
  match blocks with
  | [] => false
  | first :: rest =>
      if negb (index first =? 1)%Z
         || negb (String.eqb (previousHash first) "0")
         || negb (String.eqb (hash first) (calculate_hash first))
      then false
      else check_links first rest
  end.

(** [Counter(items)]: the distinct items with their counts, in the order
    of their first occurrence (a dict keeps insertion order). *)
Fixpoint Counter_add (x : string) (counts : list (string * nat)) :
  list (string * nat) :=
  match counts with
  | [] => [(x, 1%nat)]
  | (y, n) :: rest =>
      if String.eqb x y then (y, S n) :: rest else (y, n) :: Counter_add x rest
  end.

Definition Counter (items : list string) : list (string * nat) :=
  fold_left (fun counts x => Counter_add x counts) items [].

(** [max(items, key=itemgetter(1))]: a later item replaces the best one
    only when its count is strictly larger. *)
Fixpoint max_count (best : string * nat) (items : list (string * nat)) :
  string * nat :=
  match items with
  | [] => best
  | item :: rest =>
      max_count (if (snd best <? snd item)%nat then item else best) rest
  end.

(** [counter.most_common(1)], which is [heapq.nlargest(1, counter.items(),
    key=itemgetter(1))]. *)
Definition most_common_1 (counts : list (string * nat)) : list (string * nat) :=
  match counts with
  | [] => []
  | item :: rest => [max_count item rest]
  end.

(** [json.dumps(chain, sort_keys=True)] *)
Definition chain_str (chain : ChainProposal) : string :=
  dumps (JObj (ChainProposal_dict chain)).

Definition get_majority_chain (st : State) : Outcome json :=
  match chains st with
  | [] => Return (JObj ∅)
  | _ =>
      let chains_str := chain_str <$> chains st in
      match most_common_1 (Counter chains_str) with
      | [] => Raise IndexError
      | (most_common_chain_str, _) :: _ =>
          match loads most_common_chain_str with
          | Some v => Return v
          | None => Raise JSONDecodeError
          end
      end
  end.

Definition success_message (text : string) : json :=
  JObj (list_to_map [("status", JStr "success"); ("message", JStr text)]).

Definition success_latest_chain (latest_chain : json) : json :=
  JObj (list_to_map [("status", JStr "success"); ("latest_chain", latest_chain)]).

Definition share_latest_chain (proposal : ChainProposal) (st : State) :
  Outcome json * State :=
  if negb (is_chain_valid (blocks proposal)) then
    (Raise (HTTPException 400 "Invalid chain"), st)
  else
    let st1 := set_chains (chains st ++ [proposal]) st in
    match get_majority_chain st1 with
    | Raise e => (Raise e, st1)
    | Return latest_chain =>
        (Return (success_latest_chain latest_chain), save_chain st1)
    end.

Definition get_latest_chain (st : State) : Outcome json * State :=
  match chains st with
  | [] => (Return (success_latest_chain (JObj ∅)), st)
  | _ =>
      match get_majority_chain st with
      | Raise e => (Raise e, st)
      | Return latest_chain => (Return (success_latest_chain latest_chain), st)
      end
  end.

Definition genesis_sender : MessageSender :=
  {| ipAddress := "0.0.0.0"; uuid := "00000000-0000-0000-0000-000000000000" |}.

Definition new_network (lastUpdated : string) : gmap string json :=
  list_to_map [("nodes", JList []); ("version", JStr "1.0.0");
               ("lastUpdated", JStr lastUpdated)].

Definition new_status : gmap string json :=
  list_to_map [("isValid", JBool true); ("error", JNull)].

(** [create_genesis] reads the clock three times: for the block, for its
    message and for the network. *)
Definition create_genesis (now_block now_message now_network : string)
  (st : State) : Outcome json * State :=
  if negb (bool_decide (chains st = [])) || negb (bool_decide (participants st = ∅))
  then (Raise (HTTPException 400 "Blockchain or participants already initialized"), st)
  else
    let genesis_block :=
      {| index := 1;
         previousHash := "0";
         timestamp := now_block;
         message := {| sender := genesis_sender;
                       recipient := genesis_sender;
                       content := "Genesis block";
                       message_timestamp := now_message |};
         proof := 0;
         hash := "0" |} in
    let initial_chain :=
      {| blocks := [genesis_block];
         network := new_network now_network;
         status := new_status |} in
    let st1 := set_chains (chains st ++ [initial_chain]) st in
    (Return (success_message "Genesis block created and blockchain initialized"),
     save_participants (save_chain st1)).

(** [new_block.hash = calculate_hash(new_block)] *)
Definition set_hash (h : string) (b : Block) : Block :=
  {| index := index b; previousHash := previousHash b; timestamp := timestamp b;
     message := message b; proof := proof b; hash := h |}.

(** [chain['blocks'].append(b)] *)
Definition append_block (b : Block) (chain : ChainProposal) : ChainProposal :=
  {| blocks := blocks chain ++ [b]; network := network chain; status := status chain |}.

(** [send_message] reads the clock once for the block and, when it starts a
    new chain, once more for the network. The test [message.sender and
    message.recipient] never fails: a pydantic model is always true. *)
Definition send_message (now_block now_network : string) (message : Message)
  (st : State) : Outcome json * State :=
  let sender := (ipAddress (sender message), uuid (sender message)) in
  let receiver := (ipAddress (recipient message), uuid (recipient message)) in
  if bool_decide (sender ∉ participants st) || bool_decide (receiver ∉ participants st)
  then (Raise (HTTPException 400 "Sender or recipient is not a registered participant"), st)
  else
    match last (chains st) with
    | Some chain =>
        match last (blocks chain) with
        | None => (Raise IndexError, st)
        | Some previous_block =>
            let new_block :=
              {| index := index previous_block + 1;
                 previousHash := calculate_hash previous_block;
                 timestamp := now_block;
                 message := message;
                 proof := 0;
                 hash := "" |} in
            let new_block := set_hash (calculate_hash new_block) new_block in
            let st1 :=
              set_chains (<[pred (length (chains st)) := append_block new_block chain]>
                            (chains st)) st in
            (Return (success_message "Message added to blockchain"), save_chain st1)
        end
    | None =>
        let new_block :=
          {| index := 1;
             previousHash := "0";
             timestamp := now_block;
             message := message;
             proof := 0;
             hash := "" |} in
        let new_block := set_hash (calculate_hash new_block) new_block in
        let st1 :=
          set_chains (chains st ++ [{| blocks := [new_block];
                                       network := new_network now_network;
                                       status := new_status |}]) st in
        (Return (success_message "Message added to blockchain"), save_chain st1)
    end.

(** [str(e)] for starlette's [HTTPException]. *)
Definition HTTPException_str (status_code : Z) (detail : string) : string :=
  int_repr status_code +:+ ": " +:+ detail.

(** [register_participant] catches its own [HTTPException] and returns it
    as an error message. *)
Definition register_participant (participant : Participant) (st : State) :
  Outcome json * State :=
  let participant_tuple :=
    (participant_ipAddress participant, participant_uuid participant) in
  if bool_decide (participant_tuple ∈ participants st) then
    (Return (JObj (list_to_map
       [("status", JStr "error");
        ("message", JStr (HTTPException_str 400 "Participant already registered"))])),
     st)
  else
    let st1 := set_participants ({[participant_tuple]} ∪ participants st) st in
    (Return (success_message "Participant registered successfully"),
     save_participants st1).

(** The routes of the service, and a run of requests from a state. *)
Inductive Request : Type :=
  | POST_share_latest_chain (proposal : ChainProposal)
  | GET_get_latest_chain
  | POST_create_genesis (now_block now_message now_network : string)
  | POST_send_message (now_block now_network : string) (message : Message)
  | POST_register_participant (participant : Participant).

Definition handle (r : Request) (st : State) : Outcome json * State :=
  match r with
  | POST_share_latest_chain proposal => share_latest_chain proposal st
  | GET_get_latest_chain => get_latest_chain st
  | POST_create_genesis now_block now_message now_network =>
      create_genesis now_block now_message now_network st
  | POST_send_message now_block now_network message =>
      send_message now_block now_network message st
  | POST_register_participant participant => register_participant participant st
  end.

Definition run (rs : list Request) (st : State) : State :=
  fold_left (fun st r => snd (handle r st)) rs st.

(** [load_data] when neither file exists. *)
Definition initial_state : State :=
  {| chains := []; participants := ∅;
     chain_file := None; participants_file := None |}.

(** ** The resolver on strings of any code points *)

Module Unicode.

(** The values of the json module, a [str] being the list of its code
    points. A code point is below 0x110000; the surrogates 0xD800..0xDFFF
    can occur in a [str], alone or in pairs. Floats are outside the
    model. *)
Inductive json : Type :=
  | JNull
  | JBool (b : bool)
  | JInt (n : Z)
  | JStr (s : list N)
  | JList (l : list json)
  | JObj (m : gmap (list N) json).

(** ['{0:04x}'.format(n)], for [n] below 0x10000. *)
Definition hex4 (n : N) : string :=
  String (hex_digit (n / 4096 mod 16)) (String (hex_digit (n / 256 mod 16))
    (String (hex_digit (n / 16 mod 16)) (String (hex_digit (n mod 16)) ""))).

Definition u_escape (n : N) : string := String backslash (String "u" (hex4 n)).

(** [ESCAPE_DCT] and [replace] of [py_encode_basestring_ascii]: a code
    point from 0x10000 on is written as a surrogate pair. *)
Definition escape_char (n : N) : string :=
  if (n =? 34)%N then String backslash (String quote "")
  else if (n =? 92)%N then String backslash (String backslash "")
  else if (n =? 8)%N then String backslash "b"
  else if (n =? 12)%N then String backslash "f"
  else if (n =? 10)%N then String backslash "n"
  else if (n =? 13)%N then String backslash "r"
  else if (n =? 9)%N then String backslash "t"
  else if ((n <? 32) || (126 <? n))%N then
    if (n <? 0x10000)%N then u_escape n
    else
      let n' := (n - 0x10000)%N in
      let s1 := N.lor 0xd800 (N.land (N.shiftr n' 10) 0x3ff) in
      let s2 := N.lor 0xdc00 (N.land n' 0x3ff) in
      u_escape s1 +:+ u_escape s2
  else String (ascii_of_N n) "".

Fixpoint escape (s : list N) : string :=
  match s with
  | [] => ""
  | c :: rest => escape_char c +:+ escape rest
  end.

Definition encode_basestring_ascii (s : list N) : string :=
  String quote (escape s +:+ String quote "").

(** [a <= b] on [str]: code point by code point. *)
Fixpoint str_leb (a b : list N) : bool :=
  match a, b with
  | [], _ => true
  | _ :: _, [] => false
  | x :: a', y :: b' =>
      if (x <? y)%N then true else if (y <? x)%N then false else str_leb a' b'
  end.

(** [sorted(dct.items())] *)
Fixpoint insert_item {A} (kv : list N * A) (items : list (list N * A)) :
  list (list N * A) :=
  match items with
  | [] => [kv]
  | kv' :: rest =>
      if str_leb (fst kv) (fst kv') then kv :: items
      else kv' :: insert_item kv rest
  end.

Definition sorted_items {A} (m : gmap (list N) A) : list (list N * A) :=
  foldr insert_item [] (map_to_list m).

Definition dump_item (kv : list N * string) : string :=
  encode_basestring_ascii (fst kv) +:+ ": " +:+ snd kv.

(** The text that [json.dumps(v, sort_keys=True)] returns when it
    returns. *)
Fixpoint json_text (v : json) : string :=
  match v with
  | JNull => "null"
  | JBool true => "true"
  | JBool false => "false"
  | JInt n => int_repr n
  | JStr s => encode_basestring_ascii s
  | JList l => "[" +:+ join ", " (json_text <$> l) +:+ "]"
  | JObj m => "{" +:+ join ", " (dump_item <$> sorted_items (json_text <$> m)) +:+ "}"
  end.

(** [sys.int_info.default_max_str_digits] is 4300: the conversion between
    text and an integer of more digits raises ValueError. *)
Definition int_ok (n : Z) : bool := Z.abs n <? 10 ^ 4300.

Fixpoint ints_ok (v : json) : bool :=
  match v with
  | JInt n => int_ok n
  | JList l => forallb id (ints_ok <$> l)
  | JObj m => forallb id ((map_to_list (ints_ok <$> m)).*2)
  | _ => true
  end.

(** [json.dumps(v, sort_keys=True)] *)
Definition dumps (v : json) : Outcome string :=
  if ints_ok v then Return (json_text v) else Raise ValueError.

(** [s[end:end + 2] == '\\u'] *)
Definition starts_u (s : string) : bool :=
  match s with
  | String a (String b _) => (N_of_ascii a =? 92)%N && (N_of_ascii b =? 117)%N
  | _ => false
  end.

(** [_decode_uXXXX], as the C scanner reads it: four hexadecimal digits. *)
Definition hex4_value (h1 h2 h3 h4 : ascii) : option N :=
  match hex_value h1, hex_value h2, hex_value h3, hex_value h4 with
  | Some x1, Some x2, Some x3, Some x4 =>
      Some (((x1 * 16 + x2) * 16 + x3) * 16 + x4)%N
  | _, _, _, _ => None
  end.

Definition cons_char (c : N) (r : option (list N * string)) :
  option (list N * string) :=
  match r with
  | Some (t, r) => Some (c :: t, r)
  | None => None
  end.

(** [scanstring] in strict mode, from the character after the opening
    quote: an escaped high surrogate followed by an escaped low surrogate
    is read as one code point. [None] is a [JSONDecodeError]. *)
Fixpoint scanstring (s : string) : option (list N * string) :=
  match s with
  | EmptyString => None
  | String c rest =>
      let n := N_of_ascii c in
      if (n =? 34)%N then Some ([], rest)
      else if (n =? 92)%N then
        match rest with
        | EmptyString => None
        | String e rest1 =>
            if (N_of_ascii e =? 117)%N then
              match rest1 with
              | String h1 (String h2 (String h3 (String h4 rest2))) =>
                  match hex4_value h1 h2 h3 h4 with
                  | Some uni =>
                      if (0xd800 <=? uni)%N && (uni <=? 0xdbff)%N && starts_u rest2
                      then
                        match rest2 with
                        | String _ (String _ (String g1 (String g2 (String g3
                            (String g4 rest3))))) =>
                            match hex4_value g1 g2 g3 g4 with
                            | Some uni2 =>
                                if (0xdc00 <=? uni2)%N && (uni2 <=? 0xdfff)%N then
                                  cons_char
                                    (0x10000 + N.lor (N.shiftl (uni - 0xd800) 10)
                                                     (uni2 - 0xdc00))%N
                                    (scanstring rest3)
                                else cons_char uni (scanstring rest2)
                            | None => None
                            end
                        | _ => None
                        end
                      else cons_char uni (scanstring rest2)
                  | None => None
                  end
              | _ => None
              end
            else
              match unescape e with
              | Some ch => cons_char (N_of_ascii ch) (scanstring rest1)
              | None => None
              end
        end
      else if (n <? 32)%N then None
      else cons_char n (scanstring rest)
  end.

(** [dict(pairs)] *)
Definition dict_of_pairs {A} (pairs : list (list N * A)) : gmap (list N) A :=
  list_to_map (reverse pairs).

(** [scan_once], [JSONArray] and [JSONObject]; [fuel] bounds the depth of
    the recursion. A number of more than 4300 digits raises ValueError,
    any other text that is not a value a [JSONDecodeError] (a float is
    outside the model). *)
Fixpoint scan_once (fuel : nat) (s : string) : Outcome (json * string) :=
  match fuel with
  | O => Raise JSONDecodeError
  | S fuel =>
      if next_is 34 s then
        match scanstring (advance s) with
        | Some (t, r) => Return (JStr t, r)
        | None => Raise JSONDecodeError
        end
      else if next_is 123 s then
        let s1 := skip_whitespace (advance s) in
        if next_is 125 s1 then Return (JObj ∅, advance s1)
        else
          match scan_pairs fuel s1 with
          | Return (pairs, r) => Return (JObj (dict_of_pairs pairs), r)
          | Raise e => Raise e
          end
      else if next_is 91 s then
        let s1 := skip_whitespace (advance s) in
        if next_is 93 s1 then Return (JList [], advance s1)
        else
          match scan_values fuel s1 with
          | Return (values, r) => Return (JList values, r)
          | Raise e => Raise e
          end
      else if next_is 110 s then
        match strip_prefix "ull" (advance s) with
        | Some r => Return (JNull, r)
        | None => Raise JSONDecodeError
        end
      else if next_is 116 s then
        match strip_prefix "rue" (advance s) with
        | Some r => Return (JBool true, r)
        | None => Raise JSONDecodeError
        end
      else if next_is 102 s then
        match strip_prefix "alse" (advance s) with
        | Some r => Return (JBool false, r)
        | None => Raise JSONDecodeError
        end
      else
        match scan_number s with
        | Some (z, r) => if int_ok z then Return (JInt z, r) else Raise ValueError
        | None => Raise JSONDecodeError
        end
  end
with scan_values (fuel : nat) (s : string) : Outcome (list json * string) :=
  match fuel with
  | O => Raise JSONDecodeError
  | S fuel =>
      match scan_once fuel s with
      | Return (v, r) =>
          let r1 := skip_whitespace r in
          if next_is 93 r1 then Return ([v], advance r1)
          else if next_is 44 r1 then
            match scan_values fuel (skip_whitespace (advance r1)) with
            | Return (values, r2) => Return (v :: values, r2)
            | Raise e => Raise e
            end
          else Raise JSONDecodeError
      | Raise e => Raise e
      end
  end
with scan_pairs (fuel : nat) (s : string) :
  Outcome (list (list N * json) * string) :=
  match fuel with
  | O => Raise JSONDecodeError
  | S fuel =>
      if next_is 34 s then
        match scanstring (advance s) with
        | Some (key, r) =>
            let r1 := skip_whitespace r in
            if next_is 58 r1 then
              match scan_once fuel (skip_whitespace (advance r1)) with
              | Return (v, r2) =>
                  let r3 := skip_whitespace r2 in
                  if next_is 125 r3 then Return ([(key, v)], advance r3)
                  else if next_is 44 r3 then
                    match scan_pairs fuel (skip_whitespace (advance r3)) with
                    | Return (pairs, r4) => Return ((key, v) :: pairs, r4)
                    | Raise e => Raise e
                    end
                  else Raise JSONDecodeError
              | Raise e => Raise e
              end
            else Raise JSONDecodeError
        | None => Raise JSONDecodeError
        end
      else Raise JSONDecodeError
  end.

(** [json.loads(s)] *)
Definition loads (s : string) : Outcome json :=
  match scan_once (String.length s) (skip_whitespace s) with
  | Return (v, r) =>
      match skip_whitespace r with
      | EmptyString => Return v
      | _ => Raise JSONDecodeError
      end
  | Raise e => Raise e
  end.

(** [[json.dumps(chain, sort_keys=True) for chain in chains]] *)
Fixpoint dumps_all (chains : list json) : Outcome (list string) :=
  match chains with
  | [] => Return []
  | chain :: rest =>
      match dumps chain with
      | Raise e => Raise e
      | Return s =>
          match dumps_all rest with
          | Raise e => Raise e
          | Return l => Return (s :: l)
          end
      end
  end.

(** [get_majority_chain] on the stored dicts. *)
Definition get_majority_chain (chains : list json) : Outcome json :=
  match chains with
  | [] => Return (JObj ∅)
  | _ =>
      match dumps_all chains with
      | Raise e => Raise e
      | Return chains_str =>
          match most_common_1 (Counter chains_str) with
          | [] => Raise IndexError
          | (most_common_chain_str, _) :: _ => loads most_common_chain_str
          end
      end
  end.

End Unicode.

(** ** Vocabulary of the properties *)

Definition linked (previous current : Block) : Prop :=
  previousHash current = calculate_hash previous ∧
  hash current = calculate_hash current.

Definition genesis_shape (first : Block) : Prop :=
  index first = 1 ∧ previousHash first = "0" ∧ hash first = calculate_hash first.

Definition registered (msg : Message) (st : State) : Prop :=
  (ipAddress (sender msg), uuid (sender msg)) ∈ participants st ∧
  (ipAddress (recipient msg), uuid (recipient msg)) ∈ participants st.

(** The block [send_message] builds after [previous_block], and the one it
    builds when there is no chain yet. *)
Definition next_block (now_block : string) (msg : Message) (previous_block : Block) : Block :=
  let new_block :=
    {| index := index previous_block + 1;
       previousHash := calculate_hash previous_block;
       timestamp := now_block;
       message := msg;
       proof := 0;
       hash := "" |} in
  set_hash (calculate_hash new_block) new_block.

Definition first_block (now_block : string) (msg : Message) : Block :=
  let new_block :=
    {| index := 1;
       previousHash := "0";
       timestamp := now_block;
       message := msg;
       proof := 0;
       hash := "" |} in
  set_hash (calculate_hash new_block) new_block.

(** CPython converts an [int] to text only up to 4300 digits
    ([sys.int_info.default_max_str_digits]): for a longer one the
    conversion inside [json.dumps] raises ValueError. *)
Definition int_str_ok (n : Z) : Prop := Z.abs n < 10 ^ 4300.

(** [calculate_hash(b)] converts [b.index] and [b.proof] to text. *)
Definition hashable (b : Block) : Prop :=
  int_str_ok (index b) ∧ int_str_ok (proof b).

Definition append_request (r : Request) : Prop :=
  match r with
  | POST_send_message _ _ _ | POST_register_participant _ => True
  | _ => False
  end.

(** One chain is stored and its first block stores the hash ["0"]. *)
Definition genesis_hash_0 (st : State) : Prop :=
  ∃ (c : ChainProposal) (first : Block) (rest : list Block),
    chains st = [c] ∧ blocks c = first :: rest ∧ hash first = "0".

Definition example_sender : MessageSender :=
  {| ipAddress := "10.0.0.1"; uuid := "6f1c2d3e-0000-4000-8000-000000000001" |}.

Definition example_recipient : MessageSender :=
  {| ipAddress := "10.0.0.2"; uuid := "6f1c2d3e-0000-4000-8000-000000000002" |}.

Definition example_message (text : string) : Message :=
  {| sender := example_sender; recipient := example_recipient;
     content := text; message_timestamp := "2024-05-01T10:00:00+00:00" |}.

Definition gap_first : Block :=
  first_block "2024-05-01T10:00:01+00:00" (example_message "hello").

Definition gap_second : Block :=
  let b := {| index := 7;
              previousHash := calculate_hash gap_first;
              timestamp := "2024-05-01T10:00:02+00:00";
              message := example_message "again";
              proof := 0;
              hash := "" |} in
  set_hash (calculate_hash b) b.

(** The text after a number does not go on with a digit. *)
Definition no_digit_head (s : string) : Prop :=
  match s with
  | EmptyString => True
  | String c _ => digit c = None
  end.

(** The first character of a number: the sign or a digit. *)
Definition number_start (c : ascii) : bool :=
  (N_of_ascii c =? 45)%N || bool_decide (digit c ≠ None).

(** The first character of a value that [dumps] writes. *)
Definition value_start (c : ascii) : bool :=
  let n := N_of_ascii c in
  ((n =? 34) || (n =? 123) || (n =? 91) || (n =? 110) || (n =? 116)
   || (n =? 102))%N || number_start c.

Definition starts_with (P : ascii → bool) (s : string) : Prop :=
  match s with
  | EmptyString => False
  | String c _ => P c = true
  end.

Fixpoint json_size (v : json) : nat :=
  match v with
  | JList l => S (sum_list (json_size <$> l))
  | JObj m => S (sum_list ((map_to_list (json_size <$> m)).*2))
  | _ => 1%nat
  end.

Definition dump_pair (kv : string * json) : string :=
  encode_basestring_ascii (fst kv) +:+ ": " +:+ dumps (snd kv).

(** [scan_once] reads back what [dumps] wrote for [v], whatever follows. *)
Definition reads_back (v : json) : Prop :=
  ∀ (fuel : nat) (rest : string),
    (String.length (dumps v) <= fuel)%nat → no_digit_head rest →
    scan_once fuel (dumps v +:+ rest) = Some (v, rest).

(** [items.count(x)] *)
Fixpoint occurrences (x : string) (items : list string) : nat :=
  match items with
  | [] => 0
  | y :: rest => ((if String.eqb x y then 1 else 0) + occurrences x rest)%nat
  end.

(** [counter[x]] *)
Fixpoint count_of (x : string) (counts : list (string * nat)) : nat :=
  match counts with
  | [] => 0
  | (y, n) :: rest => if String.eqb x y then n else count_of x rest
  end.

(** How many of the stored proposals have the serialisation of [c]. *)
Definition votes (c : ChainProposal) (cs : list ChainProposal) : nat :=
  occurrences (chain_str c) (chain_str <$> cs).

Definition example_participants : gset (string * string) :=
  {[ (ipAddress example_sender, uuid example_sender);
     (ipAddress example_recipient, uuid example_recipient) ]}.

(** Two participants are registered and no chain is stored. *)
Definition example_state : State :=
  {| chains := []; participants := example_participants;
     chain_file := None; participants_file := Some example_participants |}.

Definition example_chain (bs : list Block) : ChainProposal :=
  {| blocks := bs;
     network := new_network "2024-05-01T10:00:03+00:00";
     status := new_status |}.

Definition example_short : ChainProposal := example_chain [gap_first].
Definition example_long : ChainProposal := example_chain [gap_first; gap_second].

Definition example_store (cs : list ChainProposal) : State :=
  {| chains := cs; participants := example_participants;
     chain_file := Some cs; participants_file := Some example_participants |}.

Definition example_registrations : list Request :=
  [ POST_register_participant
      {| participant_ipAddress := ipAddress example_sender;
         participant_uuid := uuid example_sender |};
    POST_register_participant
      {| participant_ipAddress := ipAddress example_recipient;
         participant_uuid := uuid example_recipient |};
    POST_send_message "2024-05-01T10:00:01+00:00" "2024-05-01T10:00:01+00:00"
      (example_message "hello") ].

(** What [is_chain_valid] expects as previousHash at position [i]. *)
Definition expected_previousHash (bs : list Block) (i : nat) : string :=
  match i with
  | O => "0"
  | S j => match bs !! j with
           | Some previous => calculate_hash previous
           | None => ""
           end
  end.

Definition is_hex_digit (c : ascii) : bool :=
  let n := N_of_ascii c in
  ((48 <=? n) && (n <=? 57) || (97 <=? n) && (n <=? 102))%N.

Fixpoint all_chars (P : ascii → bool) (s : string) : bool :=
  match s with
  | EmptyString => true
  | String c rest => P c && all_chars P rest
  end.

(** [later] is [earlier] with blocks appended at the tail. *)
Definition extends (earlier later : ChainProposal) : Prop :=
  blocks earlier `prefix_of` blocks later ∧
  network later = network earlier ∧ status later = status earlier.

(** What was last written to each file is the current value of the
    global, or nothing was written yet and the global is empty. *)
Definition files_in_sync (st : State) : Prop :=
  (chain_file st = Some (chains st) ∨ chain_file st = None ∧ chains st = []) ∧
  (participants_file st = Some (participants st) ∨
   participants_file st = None ∧ participants st = ∅).

Definition all_valid (cs : list ChainProposal) : Prop :=
  Forall (λ c : ChainProposal, is_chain_valid (blocks c) = true) cs.

Definition no_genesis (r : Request) : Prop :=
  match r with
  | POST_create_genesis _ _ _ => False
  | _ => True
  end.

(** The block list has the indices 1, 2, 3, ... *)
Definition sequential (bs : list Block) : Prop :=
  ∀ (i : nat) (b : Block), bs !! i = Some b → index b = Z.of_nat (S i).

(** The messages that a run of registrations and [send_message] requests
    gets recorded, [ps] being the participants at its start: those whose
    sender and recipient are registered when the request arrives. *)
Fixpoint recorded (rs : list Request) (ps : gset (string * string)) : list Message :=
  match rs with
  | [] => []
  | POST_register_participant participant :: rest =>
      recorded rest
        ({[(participant_ipAddress participant, participant_uuid participant)]} ∪ ps)
  | POST_send_message _ _ msg :: rest =>
      if bool_decide ((ipAddress (sender msg), uuid (sender msg)) ∈ ps ∧
                      (ipAddress (recipient msg), uuid (recipient msg)) ∈ ps)
      then msg :: recorded rest ps
      else recorded rest ps
  | _ :: rest => recorded rest ps
  end.

(** The blocks of all stored chains, in order. *)
Definition ledger (st : State) : list Block :=
  concat (blocks <$> chains st).

Definition same_hashed_fields (b b' : Block) : Prop :=
  index b = index b' ∧ previousHash b = previousHash b' ∧
  timestamp b = timestamp b' ∧ message b = message b' ∧ proof b = proof b'.

(** Two blocks that differ in a hashed field have the same digest. *)
Definition hash_collision (b b' : Block) : Prop :=
  ¬ same_hashed_fields b b' ∧ calculate_hash b = calculate_hash b'.

(** [gap_second] with another proof under the hash it had. *)
Definition gap_second_tampered : Block :=
  {| index := index gap_second; previousHash := previousHash gap_second;
     timestamp := timestamp gap_second; message := message gap_second;
     proof := 1; hash := hash gap_second |}.

(** Some block of the first list and some block of the second differ in
    a hashed field and have the same digest. *)
Definition collision_between (bs1 bs2 : list Block) : Prop :=
  ∃ b b' : Block, b ∈ bs1 ∧ b' ∈ bs2 ∧ hash_collision b b'.

(** A code point of a [str] that is no surrogate. *)
Definition plain_char (c : N) : bool :=
  ((c <? 0x110000) && negb ((0xd800 <=? c) && (c <=? 0xdfff)))%N.

Definition plain_str (s : list N) : bool := forallb plain_char s.

(** No string of the value, a key or not, holds a surrogate. *)
Fixpoint plain (v : Unicode.json) : bool :=
  match v with
  | Unicode.JStr s => plain_str s
  | Unicode.JList l => forallb id (plain <$> l)
  | Unicode.JObj m =>
      forallb (λ kp : list N * bool, plain_str kp.1 && kp.2) (map_to_list (plain <$> m))
  | _ => true
  end.

(** A value whose integers [json.dumps] can write and whose strings hold
    no surrogate. *)
Definition well_formed (v : Unicode.json) : Prop :=
  Unicode.ints_ok v = true ∧ plain v = true.

Fixpoint unicode_size (v : Unicode.json) : nat :=
  match v with
  | Unicode.JList l => S (sum_list (unicode_size <$> l))
  | Unicode.JObj m => S (sum_list ((map_to_list (unicode_size <$> m)).*2))
  | _ => 1%nat
  end.

Definition unicode_dump_pair (kv : list N * Unicode.json) : string :=
  Unicode.encode_basestring_ascii (fst kv) +:+ ": " +:+ Unicode.json_text (snd kv).

(** [Unicode.scan_once] reads back the text of [v], whatever follows. *)
Definition unicode_reads_back (v : Unicode.json) : Prop :=
  ∀ (fuel : nat) (rest : string),
    (String.length (Unicode.json_text v) <= fuel)%nat → no_digit_head rest →
    Unicode.scan_once fuel (Unicode.json_text v +:+ rest) = Return (v, rest).


(** The code points of a string of the handlers' model. *)
Fixpoint code_points (s : string) : list N :=
  match s with
  | EmptyString => []
  | String c rest => N_of_ascii c :: code_points rest
  end.

(** A value of the handlers' model as a value of [Unicode.json]. *)
Fixpoint widen (v : json) : Unicode.json :=
  match v with
  | JNull => Unicode.JNull
  | JBool b => Unicode.JBool b
  | JInt n => Unicode.JInt n
  | JStr s => Unicode.JStr (code_points s)
  | JList l => Unicode.JList (widen <$> l)
  | JObj m =>
      Unicode.JObj (list_to_map (prod_map code_points id <$> map_to_list (widen <$> m)))
  end.

(** A stored chain with the given blocks whose network dict carries
    [name]. *)
Definition named_chain (bs : list Block) (name : list N) : Unicode.json :=
  Unicode.JObj (list_to_map
    [(code_points "blocks",
      Unicode.JList ((λ b, widen (JObj (Block_dict b))) <$> bs));
     (code_points "network",
      Unicode.JObj (list_to_map [(code_points "name", Unicode.JStr name)]));
     (code_points "status", Unicode.JObj ∅)]).



Definition example_node : list N := code_points "node-1".



Definition node_short : Unicode.json := named_chain [gap_first] example_node.

Definition node_long : Unicode.json :=
  named_chain [gap_first; gap_second] example_node.

(** * Properties *)

(** ** The digest *)

Lemma hexdigest_length (msg : list Z) :
  String.length (Sha256.hexdigest msg) = 64%nat.
Proof. reflexivity. Qed.

Lemma calculate_hash_length (b : Block) :
  String.length (calculate_hash b) = 64%nat.
Proof. unfold calculate_hash. apply hexdigest_length. Qed.

Lemma calculate_hash_not_0 (b : Block) : calculate_hash b ≠ "0".
Proof.
  intros H. pose proof (calculate_hash_length b) as Hlen.
  rewrite H in Hlen. discriminate Hlen.
Qed.

Lemma calculate_hash_set_hash (h : string) (b : Block) :
  calculate_hash (set_hash h b) = calculate_hash b.
Proof. reflexivity. Qed.

(** ** The validator *)

Lemma negb_eqb_false (a b : string) :
  negb (String.eqb a b) = false ↔ a = b.
Proof.
  rewrite negb_false_iff. apply String.eqb_eq.
Qed.

Lemma check_links_cons (previous current : Block) (rest : list Block) :
  check_links previous (current :: rest) = true ↔
  linked previous current ∧ check_links current rest = true.
Proof.
  unfold linked. cbn [check_links].
  destruct (negb (String.eqb (previousHash current) (calculate_hash previous))) eqn:E1.
  - apply negb_true_iff, String.eqb_neq in E1. split; [discriminate | tauto].
  - apply negb_eqb_false in E1.
    destruct (negb (String.eqb (hash current) (calculate_hash current))) eqn:E2.
    + apply negb_true_iff, String.eqb_neq in E2. split; [discriminate | tauto].
    + apply negb_eqb_false in E2. tauto.
Qed.

Lemma check_links_spec (rest : list Block) : ∀ previous : Block,
  check_links previous rest = true ↔
  ∀ (i : nat) (p c : Block),
    (previous :: rest) !! i = Some p → (previous :: rest) !! S i = Some c →
    linked p c.
Proof.
  induction rest as [|current rest IH]; intros previous.
  - split; [|reflexivity]. intros _ i p c _ Hc. destruct i; discriminate Hc.
  - rewrite check_links_cons, IH. split.
    + intros [Hl Hrest] i p c Hp Hc. destruct i as [|i].
      * cbn in Hp, Hc. congruence.
      * apply (Hrest i); assumption.
    + intros H. split.
      * apply (H 0%nat); reflexivity.
      * intros i p c Hp Hc. apply (H (S i)); assumption.
Qed.

Lemma default_last_cons {A} (x y : A) (l : list A) :
  default x (last (y :: l)) = default y (last l).
Proof. rewrite last_cons. destruct (last l); reflexivity. Qed.

Lemma check_links_app (rest : list Block) : ∀ (previous new : Block),
  check_links previous (rest ++ [new]) = true ↔
  check_links previous rest = true ∧
  linked (default previous (last rest)) new.
Proof.
  induction rest as [|current rest IH]; intros previous new.
  - cbn [app]. rewrite check_links_cons. cbn. tauto.
  - cbn [app]. rewrite !check_links_cons, IH.
    rewrite default_last_cons. tauto.
Qed.

Lemma is_chain_valid_cons (first : Block) (rest : list Block) :
  is_chain_valid (first :: rest) = true ↔
  genesis_shape first ∧ check_links first rest = true.
Proof.
  unfold is_chain_valid, genesis_shape.
  destruct (index first =? 1)%Z eqn:E1; cbn [negb orb].
  2: { apply Z.eqb_neq in E1. split; [discriminate | tauto]. }
  apply Z.eqb_eq in E1.
  destruct (String.eqb (previousHash first) "0") eqn:E2; cbn [negb orb].
  2: { apply String.eqb_neq in E2. split; [discriminate | tauto]. }
  apply String.eqb_eq in E2.
  destruct (String.eqb (hash first) (calculate_hash first)) eqn:E3; cbn [negb].
  2: { apply String.eqb_neq in E3. split; [discriminate | tauto]. }
  apply String.eqb_eq in E3. tauto.
Qed.

(** Appending a block that is linked to the tail keeps a chain valid. *)
Lemma is_chain_valid_app (bs : list Block) (tail new : Block) :
  last bs = Some tail →
  is_chain_valid (bs ++ [new]) = true ↔
  is_chain_valid bs = true ∧ linked tail new.
Proof.
  intros Hlast. destruct bs as [|first rest]; [discriminate Hlast|].
  cbn [app]. rewrite !is_chain_valid_cons, check_links_app.
  rewrite <- (default_last_cons tail first rest), Hlast. cbn [default]. tauto.
Qed.

(** C2. The verdict of [is_chain_valid] is the conjunction of its checks:
    the block list is not empty, its first block has index 1, previousHash
    ["0"] and a stored hash equal to its recomputed digest, and every later
    block stores the recomputed digest of its predecessor as previousHash
    and its own recomputed digest as hash. So the empty list is rejected,
    and so is every list whose first block has another index or another
    previousHash. *)
Theorem is_chain_valid_iff_checks (blocks : list Block) :
  (is_chain_valid blocks = true ↔
     blocks ≠ [] ∧
     (∀ first : Block, blocks !! 0%nat = Some first →
        index first = 1 ∧ previousHash first = "0" ∧
        hash first = calculate_hash first) ∧
     (∀ (i : nat) (previous current : Block),
        (1 <= i)%nat →
        blocks !! (i - 1)%nat = Some previous → blocks !! i = Some current →
        previousHash current = calculate_hash previous ∧
        hash current = calculate_hash current)) ∧
  (blocks = [] → is_chain_valid blocks = false) ∧
  (∀ first : Block, blocks !! 0%nat = Some first →
     index first ≠ 1 ∨ previousHash first ≠ "0" →
     is_chain_valid blocks = false).
Proof.
  split; [|split].
  - destruct blocks as [|first rest].
    + split; [discriminate|]. intros [H _]. contradiction.
    + rewrite is_chain_valid_cons, check_links_spec. split.
      * intros [Hg Hl]. split; [discriminate|]. split.
        -- intros f [= <-]. exact Hg.
        -- intros i p c Hi Hp Hc. destruct i as [|i]; [lia|].
           replace (S i - 1)%nat with i in Hp by lia.
           apply (Hl i); assumption.
      * intros (_ & Hg & Hl). split.
        -- apply Hg. reflexivity.
        -- intros i p c Hp Hc. apply (Hl (S i)); [lia| |assumption].
           replace (S i - 1)%nat with i by lia. assumption.
  - intros ->. reflexivity.
  - intros first Hfirst Hbad. destruct blocks as [|b rest]; [discriminate|].
    injection Hfirst as ->. apply not_true_is_false.
    rewrite is_chain_valid_cons. unfold genesis_shape. intros [(? & ? & ?) _].
    destruct Hbad; contradiction.
Qed.

(** C7. [calculate_hash] is a function of the five hashed fields: two
    blocks that agree on index, previousHash, timestamp, message and proof
    get the same digest, whatever their stored hash fields are; equal
    blocks in particular get equal digests. *)
Theorem calculate_hash_five_fields (b1 b2 : Block) :
  index b1 = index b2 →
  previousHash b1 = previousHash b2 →
  timestamp b1 = timestamp b2 →
  message b1 = message b2 →
  proof b1 = proof b2 →
  calculate_hash b1 = calculate_hash b2.
Proof.
  intros Hi Hp Ht Hm Hpr. unfold calculate_hash.
  rewrite Hi, Hp, Ht, Hm, Hpr. reflexivity.
Qed.

(** ** The append engine *)

Lemma registered_guard (msg : Message) (st : State) :
  registered msg st →
  bool_decide ((ipAddress (sender msg), uuid (sender msg)) ∉ participants st)
  || bool_decide ((ipAddress (recipient msg), uuid (recipient msg)) ∉ participants st)
  = false.
Proof.
  intros [Hs Hr]. apply orb_false_iff.
  split; apply bool_decide_eq_false; intros Hn; contradiction.
Qed.

Lemma unregistered_guard (msg : Message) (st : State) :
  ¬ registered msg st →
  bool_decide ((ipAddress (sender msg), uuid (sender msg)) ∉ participants st)
  || bool_decide ((ipAddress (recipient msg), uuid (recipient msg)) ∉ participants st)
  = true.
Proof.
  intros Hn. apply not_false_is_true. intros Hf. apply Hn.
  apply orb_false_iff in Hf as [Hs Hr].
  apply bool_decide_eq_false in Hs, Hr.
  split; [destruct (decide ((ipAddress (sender msg), uuid (sender msg)) ∈ participants st))
         |destruct (decide ((ipAddress (recipient msg), uuid (recipient msg)) ∈ participants st))];
    tauto.
Qed.

Lemma next_block_linked (now_block : string) (msg : Message) (previous_block : Block) :
  linked previous_block (next_block now_block msg previous_block).
Proof. split; reflexivity. Qed.

Lemma first_block_valid (now_block : string) (msg : Message) :
  is_chain_valid [first_block now_block msg] = true.
Proof. apply is_chain_valid_cons. repeat split. Qed.

Lemma send_message_unregistered (now_block now_network : string) (msg : Message)
  (st : State) :
  ¬ registered msg st →
  send_message now_block now_network msg st =
  (Raise (HTTPException 400 "Sender or recipient is not a registered participant"), st).
Proof.
  intros Hn. unfold send_message. rewrite (unregistered_guard _ _ Hn). reflexivity.
Qed.

Lemma send_message_no_chain (now_block now_network : string) (msg : Message)
  (st : State) :
  registered msg st → chains st = [] →
  send_message now_block now_network msg st =
  (Return (success_message "Message added to blockchain"),
   save_chain (set_chains [ {| blocks := [first_block now_block msg];
                               network := new_network now_network;
                               status := new_status |} ] st)).
Proof.
  intros Hr Hc. unfold send_message. rewrite (registered_guard _ _ Hr), Hc.
  reflexivity.
Qed.

Lemma send_message_tail (now_block now_network : string) (msg : Message)
  (st : State) (chain : ChainProposal) (tail : Block) :
  registered msg st → last (chains st) = Some chain → last (blocks chain) = Some tail →
  send_message now_block now_network msg st =
  (Return (success_message "Message added to blockchain"),
   save_chain (set_chains
     (<[pred (length (chains st)) := append_block (next_block now_block msg tail) chain]>
        (chains st)) st)).
Proof.
  intros Hr Hc Ht. unfold send_message. rewrite (registered_guard _ _ Hr), Hc, Ht.
  reflexivity.
Qed.

Lemma send_message_no_blocks (now_block now_network : string) (msg : Message)
  (st : State) (chain : ChainProposal) :
  registered msg st → last (chains st) = Some chain → last (blocks chain) = None →
  send_message now_block now_network msg st = (Raise IndexError, st).
Proof.
  intros Hr Hc Ht. unfold send_message. rewrite (registered_guard _ _ Hr), Hc, Ht.
  reflexivity.
Qed.

Lemma last_insert_pred {A} (l : list A) (x y : A) :
  last l = Some x → last (<[pred (length l) := y]> l) = Some y.
Proof.
  intros Hl. rewrite last_lookup, length_insert.
  apply list_lookup_insert_eq.
  destruct l; [discriminate Hl | cbn; lia].
Qed.

(** C3. When [send_message] appends, that is when sender and recipient
    are registered and, with a chain stored, the integers that
    [calculate_hash] converts are within CPython's limit of 4300 digits
    (the prior tail's index and proof, and the new index; beyond the
    limit [calculate_hash] raises ValueError and nothing is appended):
    the new tail has the index of the prior tail plus 1 (1 when there is
    no chain), the recomputed digest of the prior tail as previousHash
    (["0"] when there is none), proof 0 and its own recomputed digest as
    hash; the block list grows by exactly this one block; and a block
    list that [is_chain_valid] accepted is still accepted after the
    append. *)
Theorem send_message_appends (now_block now_network : string) (msg : Message)
  (st : State) :
  registered msg st →
  match last (chains st) with
  | None =>
      ∃ (new_block : Block) (st' : State),
        send_message now_block now_network msg st =
          (Return (success_message "Message added to blockchain"), st') ∧
        chains st' = [ {| blocks := [new_block];
                          network := new_network now_network;
                          status := new_status |} ] ∧
        index new_block = 1 ∧
        previousHash new_block = "0" ∧
        proof new_block = 0 ∧
        hash new_block = calculate_hash new_block ∧
        message new_block = msg ∧
        is_chain_valid [new_block] = true
  | Some chain =>
      ∀ tail : Block, last (blocks chain) = Some tail →
      hashable tail → int_str_ok (index tail + 1) →
      ∃ (new_block : Block) (chain' : ChainProposal) (st' : State),
        send_message now_block now_network msg st =
          (Return (success_message "Message added to blockchain"), st') ∧
        chains st' = <[pred (length (chains st)) := chain']> (chains st) ∧
        last (chains st') = Some chain' ∧
        blocks chain' = blocks chain ++ [new_block] ∧
        List.length (blocks chain') = S (List.length (blocks chain)) ∧
        index new_block = index tail + 1 ∧
        previousHash new_block = calculate_hash tail ∧
        proof new_block = 0 ∧
        hash new_block = calculate_hash new_block ∧
        message new_block = msg ∧
        (is_chain_valid (blocks chain) = true →
         is_chain_valid (blocks chain') = true)
  end.
Proof.
  intros Hr. destruct (last (chains st)) as [chain|] eqn:Hc.
  - intros tail Ht _ _.
    exists (next_block now_block msg tail),
           (append_block (next_block now_block msg tail) chain).
    eexists. split; [apply (send_message_tail _ _ _ _ _ _ Hr Hc Ht)|].
    cbn [chains save_chain set_chains blocks append_block].
    repeat split.
    + apply (last_insert_pred _ chain). exact Hc.
    + rewrite length_app. cbn. lia.
    + intros Hv. apply (is_chain_valid_app _ tail); [exact Ht|].
      split; [exact Hv | apply next_block_linked].
  - apply last_None in Hc.
    exists (first_block now_block msg). eexists.
    split; [apply (send_message_no_chain _ _ _ _ Hr Hc)|].
    cbn [chains save_chain set_chains].
    repeat split. apply first_block_valid.
Qed.

(** C10. With no chain stored and sender and recipient registered,
    [send_message] starts a chain of one block: index 1, previousHash
    ["0"], a correctly computed hash, and the caller's message (not the
    genesis message); [is_chain_valid] accepts this block list. *)
Theorem send_message_starts_valid_chain (now_block now_network : string)
  (msg : Message) (st : State) :
  chains st = [] → registered msg st →
  ∃ (new_block : Block) (st' : State),
    send_message now_block now_network msg st =
      (Return (success_message "Message added to blockchain"), st') ∧
    chains st' = [ {| blocks := [new_block];
                      network := new_network now_network;
                      status := new_status |} ] ∧
    index new_block = 1 ∧
    previousHash new_block = "0" ∧
    hash new_block = calculate_hash new_block ∧
    message new_block = msg ∧
    is_chain_valid [new_block] = true.
Proof.
  intros Hc Hr. exists (first_block now_block msg). eexists.
  split; [apply (send_message_no_chain _ _ _ _ Hr Hc)|].
  cbn [chains save_chain set_chains].
  repeat split. apply first_block_valid.
Qed.

(** C5. A rejected request leaves the state as it was: [share_latest_chain]
    with a proposal that [is_chain_valid] rejects, and [send_message] with
    a sender or a recipient that is not registered, raise their
    [HTTPException] from the state they were called in (the chains, their
    block lists, the participants and the files are those of before). *)
Theorem rejection_leaves_state_unchanged (st : State) :
  (∀ proposal : ChainProposal,
     is_chain_valid (blocks proposal) = false →
     share_latest_chain proposal st =
       (Raise (HTTPException 400 "Invalid chain"), st)) ∧
  (∀ (now_block now_network : string) (msg : Message),
     (ipAddress (sender msg), uuid (sender msg)) ∉ participants st ∨
     (ipAddress (recipient msg), uuid (recipient msg)) ∉ participants st →
     send_message now_block now_network msg st =
       (Raise (HTTPException 400
          "Sender or recipient is not a registered participant"), st)).
Proof.
  split.
  - intros proposal Hv. unfold share_latest_chain. rewrite Hv. reflexivity.
  - intros now_block now_network msg Hn. apply send_message_unregistered.
    intros [Hs Hr]. destruct Hn; contradiction.
Qed.

(** ** Ledgers that start from [create_genesis] *)

Lemma create_genesis_hash_0 (now_block now_message now_network : string) :
  genesis_hash_0
    (snd (create_genesis now_block now_message now_network initial_state)).
Proof.
  unfold create_genesis, genesis_hash_0. cbn.
  eexists _, _, _. repeat split.
Qed.

Lemma send_message_hash_0 (now_block now_network : string) (msg : Message)
  (st : State) :
  genesis_hash_0 st → genesis_hash_0 (snd (send_message now_block now_network msg st)).
Proof.
  intros (c & first & rest & Hc & Hb & Hh). unfold send_message.
  destruct (_ || _); [exists c, first, rest; auto|].
  rewrite Hc. cbn [last]. rewrite Hb.
  destruct (last (first :: rest)) as [tail|] eqn:Hl.
  - cbn [snd chains save_chain set_chains List.length pred].
    eexists _, first, (rest ++ [_]). split; [reflexivity|].
    cbn [blocks append_block]. rewrite Hb. split; [reflexivity | exact Hh].
  - exists c, first, rest. cbn [snd]. auto.
Qed.

Lemma register_participant_chains (participant : Participant) (st : State) :
  chains (snd (register_participant participant st)) = chains st.
Proof. unfold register_participant. destruct (bool_decide _); reflexivity. Qed.

Lemma append_requests_hash_0 (rs : list Request) : ∀ st : State,
  Forall append_request rs → genesis_hash_0 st → genesis_hash_0 (run rs st).
Proof.
  induction rs as [|r rs IH]; intros st Hrs Hst; [exact Hst|].
  inversion Hrs as [|? ? Hr Hrs']; subst.
  unfold run. cbn [fold_left]. apply IH; [exact Hrs'|].
  destruct r; try contradiction; cbn [handle].
  - apply send_message_hash_0, Hst.
  - destruct Hst as (c & first & rest & Hc & Hb & Hh).
    exists c, first, rest. rewrite register_participant_chains. auto.
Qed.

Lemma genesis_hash_0_rejected (st : State) :
  genesis_hash_0 st →
  ∃ c : ChainProposal, chains st = [c] ∧ is_chain_valid (blocks c) = false.
Proof.
  intros (c & first & rest & Hc & Hb & Hh). exists c. split; [exact Hc|].
  apply not_true_is_false. rewrite Hb, is_chain_valid_cons.
  intros [(_ & _ & Hhash) _]. rewrite Hh in Hhash.
  symmetry in Hhash. exact (calculate_hash_not_0 _ Hhash).
Qed.

(** C1 (what the code does). The chain that [create_genesis] stores, and
    every chain obtained from it by registrations and [send_message]
    appends, is rejected by [is_chain_valid]: its first block stores the
    hash ["0"], never the digest that the validator recomputes. *)
Theorem genesis_ledger_rejected (now_block now_message now_network : string)
  (rs : list Request) :
  Forall append_request rs →
  ∃ c : ChainProposal,
    chains (run (POST_create_genesis now_block now_message now_network :: rs)
                initial_state) = [c] ∧
    is_chain_valid (blocks c) = false.
Proof.
  intros Hrs. apply genesis_hash_0_rejected.
  unfold run. cbn [fold_left handle].
  apply append_requests_hash_0; [exact Hrs | apply create_genesis_hash_0].
Qed.

(** ** Blocks whose indices do not follow each other *)

(** C6. [is_chain_valid] does not check that indices increase by 1: it
    accepts a list of two blocks with indices 1 and 7, the first of genesis
    shape, the second linked to the first by digest and storing its own
    digest. *)
Theorem is_chain_valid_accepts_index_gap :
  ∃ blocks : list Block,
    is_chain_valid blocks = true ∧
    (∃ first : Block, blocks !! 0%nat = Some first ∧ index first = 1) ∧
    ∃ (i : nat) (previous current : Block),
      blocks !! i = Some previous ∧ blocks !! S i = Some current ∧
      previousHash current = calculate_hash previous ∧
      hash current = calculate_hash current ∧
      index current ≠ index previous + 1.
Proof.
  exists [gap_first; gap_second]. split; [|split].
  - vm_compute. reflexivity.
  - exists gap_first. split; reflexivity.
  - exists 0%nat, gap_first, gap_second. repeat split. discriminate.
Qed.

(** ** The resolver on an empty proposal list *)

(** C8. With no proposal stored, [get_majority_chain] returns the empty
    dict: it does not raise. *)
Theorem get_majority_chain_empty (st : State) :
  chains st = [] → get_majority_chain st = Return (JObj ∅).
Proof. intros H. unfold get_majority_chain. rewrite H. reflexivity. Qed.

(** ** Decoding what the encoder wrote *)

Lemma string_app_cons (x : ascii) (a b : string) :
  String x a +:+ b = String x (a +:+ b).
Proof. reflexivity. Qed.

Lemma string_app_nil_l (a : string) : "" +:+ a = a.
Proof. reflexivity. Qed.

Lemma string_app_assoc (a b c : string) : (a +:+ b) +:+ c = a +:+ (b +:+ c).
Proof.
  induction a as [|x a IH]; [reflexivity|].
  rewrite !string_app_cons, IH. reflexivity.
Qed.

Lemma string_app_nil_r (a : string) : a +:+ "" = a.
Proof.
  induction a as [|x a IH]; [reflexivity|].
  rewrite string_app_cons, IH. reflexivity.
Qed.

Lemma string_app_length (a b : string) :
  String.length (a +:+ b) = (String.length a + String.length b)%nat.
Proof.
  induction a as [|x a IH]; [reflexivity|].
  rewrite string_app_cons. cbn [String.length]. rewrite IH. reflexivity.
Qed.

(** *** Strings *)

Lemma scanstring_escape_char (c : ascii) (t : string) :
  scanstring (escape_char c +:+ t) =
  match scanstring t with
  | Some (s, r) => Some (String c s, r)
  | None => None
  end.
Proof.
  destruct c as [[] [] [] [] [] [] [] []]; reflexivity.
Qed.

Lemma scanstring_escape (s rest : string) :
  scanstring (escape s +:+ String quote rest) = Some (s, rest).
Proof.
  induction s as [|c s IH]; [reflexivity|].
  cbn [escape]. rewrite string_app_assoc, scanstring_escape_char, IH.
  reflexivity.
Qed.

Lemma scanstring_encode (s rest : string) :
  scanstring (advance (encode_basestring_ascii s +:+ rest)) = Some (s, rest).
Proof.
  unfold encode_basestring_ascii. rewrite string_app_cons. cbn [advance].
  rewrite string_app_assoc. apply scanstring_escape.
Qed.

(** *** Integers *)

Lemma scan_digits_uint (u : Decimal.uint) (rest : string) :
  no_digit_head rest →
  scan_digits (NilEmpty.string_of_uint u +:+ rest) = (u, rest).
Proof.
  intros Hrest.
  induction u as [|u IH|u IH|u IH|u IH|u IH|u IH|u IH|u IH|u IH|u IH];
    cbn [NilEmpty.string_of_uint];
    [ rewrite string_app_nil_l; destruct rest as [|c rest];
      [reflexivity | cbn in Hrest |- *; rewrite Hrest; reflexivity]
    | rewrite string_app_cons; cbn [scan_digits];
      match goal with
      | |- context [digit ?c] =>
          let d := eval vm_compute in (digit c) in change (digit c) with d
      end;
      cbv iota; rewrite IH; reflexivity .. ].
Qed.

Lemma nzhead_not_D0 (u v : Decimal.uint) : Decimal.nzhead u ≠ Decimal.D0 v.
Proof. induction u; cbn; try discriminate. exact IHu. Qed.

Lemma to_uint_unorm (p : positive) :
  Decimal.unorm (Pos.to_uint p) = Pos.to_uint p.
Proof.
  rewrite <- DecimalPos.Unsigned.to_of, DecimalPos.Unsigned.of_to. reflexivity.
Qed.

Lemma to_uint_not_D0 (p : positive) (u : Decimal.uint) :
  Pos.to_uint p ≠ Decimal.D0 u.
Proof.
  intros E. pose proof (to_uint_unorm p) as Hn. rewrite E in Hn.
  unfold Decimal.unorm in Hn. cbn [Decimal.nzhead] in Hn.
  destruct (Decimal.nzhead u) eqn:En; try discriminate Hn.
  - injection Hn as <-. exact (DecimalPos.Unsigned.to_uint_nonzero p E).
  - exact (nzhead_not_D0 u _ En).
Qed.

Lemma starts_with_app (P : ascii → bool) (s rest : string) :
  starts_with P s → starts_with P (s +:+ rest).
Proof. destruct s as [|c s]; [contradiction | exact id]. Qed.

Lemma scan_natural_nonzero (c : ascii) (s : string) :
  (N_of_ascii c =? 48)%N = false → digit c ≠ None →
  scan_natural (String c s) =
  let '(u, r) := scan_digits (String c s) in Some (Z.of_uint u, r).
Proof.
  intros H0 Hd. unfold scan_natural. rewrite H0.
  destruct (digit c); [reflexivity | contradiction].
Qed.

Lemma string_of_to_uint (p : positive) :
  ∃ (c : ascii) (t : string),
    NilEmpty.string_of_uint (Pos.to_uint p) = String c t ∧
    (N_of_ascii c =? 48)%N = false ∧ (N_of_ascii c =? 45)%N = false ∧
    digit c ≠ None.
Proof.
  destruct (Pos.to_uint p) as [|u|u|u|u|u|u|u|u|u|u] eqn:E;
    [ exfalso; exact (DecimalPos.Unsigned.to_uint_nonnil p E)
    | exfalso; exact (to_uint_not_D0 p u E)
    | cbn [NilEmpty.string_of_uint]; eexists _, _;
      (split; [reflexivity | repeat split; discriminate]) .. ].
Qed.

Lemma scan_natural_to_uint (p : positive) (rest : string) :
  no_digit_head rest →
  scan_natural (NilEmpty.string_of_uint (Pos.to_uint p) +:+ rest) =
  Some (Z.pos p, rest).
Proof.
  intros Hrest.
  pose proof (scan_digits_uint (Pos.to_uint p) rest Hrest) as Hscan.
  destruct (string_of_to_uint p) as (c & t & E & H0 & _ & Hd).
  rewrite E in Hscan |- *. rewrite string_app_cons in Hscan |- *.
  rewrite (scan_natural_nonzero c _ H0 Hd), Hscan.
  unfold Z.of_uint. rewrite DecimalPos.Unsigned.of_to. reflexivity.
Qed.

Lemma string_of_uint_to_uint (p : positive) :
  NilZero.string_of_uint (Pos.to_uint p) = NilEmpty.string_of_uint (Pos.to_uint p).
Proof.
  unfold NilZero.string_of_uint.
  destruct (Pos.to_uint p) eqn:E; try reflexivity.
  exfalso. exact (DecimalPos.Unsigned.to_uint_nonnil p E).
Qed.

Lemma scan_number_int_repr (z : Z) (rest : string) :
  no_digit_head rest →
  scan_number (int_repr z +:+ rest) = Some (z, rest).
Proof.
  intros Hrest. unfold int_repr. destruct z as [|p|p]; cbn [Z.to_int NilZero.string_of_int].
  - reflexivity.
  - rewrite string_of_uint_to_uint.
    destruct (string_of_to_uint p) as (c & t & E & _ & Hm & _).
    pose proof (scan_natural_to_uint p rest Hrest) as Hn.
    rewrite E in Hn |- *. rewrite string_app_cons in Hn |- *.
    unfold scan_number. rewrite Hm. exact Hn.
  - rewrite string_of_uint_to_uint, string_app_cons.
    unfold scan_number.
    change (N_of_ascii "-" =? 45)%N with true. cbv iota.
    rewrite (scan_natural_to_uint p rest Hrest). reflexivity.
Qed.

Lemma int_repr_start (z : Z) : starts_with number_start (int_repr z).
Proof.
  unfold int_repr. destruct z as [|p|p]; cbn [Z.to_int NilZero.string_of_int].
  - reflexivity.
  - rewrite string_of_uint_to_uint.
    destruct (string_of_to_uint p) as (c & t & E & _ & _ & Hd).
    rewrite E. cbn [starts_with]. unfold number_start.
    rewrite (bool_decide_eq_true_2 _ Hd). apply orb_true_r.
  - reflexivity.
Qed.

Lemma int_repr_length (z : Z) : (1 <= String.length (int_repr z))%nat.
Proof.
  pose proof (int_repr_start z) as H.
  destruct (int_repr z); [contradiction | cbn; lia].
Qed.

(** How [scan_once] dispatches on the first character of a number. *)
Lemma scan_once_number (fuel : nat) (c : ascii) (t : string) :
  number_start c = true →
  scan_once (S fuel) (String c t) =
  match scan_number (String c t) with
  | Some (z, r) => Some (JInt z, r)
  | None => None
  end.
Proof.
  destruct c as [[] [] [] [] [] [] [] []]; try discriminate; reflexivity.
Qed.

Lemma value_start_not_whitespace (c : ascii) :
  value_start c = true → is_whitespace c = false.
Proof. destruct c as [[] [] [] [] [] [] [] []]; try discriminate; reflexivity. Qed.

Lemma value_start_not_close (c : ascii) :
  value_start c = true →
  (N_of_ascii c =? 93)%N = false ∧ (N_of_ascii c =? 125)%N = false.
Proof. destruct c as [[] [] [] [] [] [] [] []]; try discriminate; split; reflexivity. Qed.

Lemma skip_whitespace_value (s : string) :
  starts_with value_start s → skip_whitespace s = s.
Proof.
  destruct s as [|c s]; [contradiction|]. cbn [starts_with skip_whitespace].
  intros H. rewrite (value_start_not_whitespace c H). reflexivity.
Qed.

Lemma skip_whitespace_space_value (s : string) :
  starts_with value_start s → skip_whitespace (String " " s) = s.
Proof. intros H. cbn. apply skip_whitespace_value, H. Qed.

(** *** Sorted items *)

Lemma insert_item_fmap {A B} (f : A → B) (kv : string * A) (l : list (string * A)) :
  insert_item (prod_map id f kv) (prod_map id f <$> l) =
  prod_map id f <$> insert_item kv l.
Proof.
  induction l as [|kv' l IH]; [reflexivity|].
  cbn [fmap list_fmap insert_item]. destruct kv as [k v], kv' as [k' v'].
  cbn [prod_map fst snd id]. destruct (String.leb k k'); [reflexivity|].
  cbn [fmap list_fmap] in IH |- *. cbn [prod_map fst snd id] in IH.
  rewrite IH. reflexivity.
Qed.

Lemma sort_items_fmap {A B} (f : A → B) (l : list (string * A)) :
  foldr insert_item [] (prod_map id f <$> l) =
  prod_map id f <$> foldr insert_item [] l.
Proof.
  induction l as [|kv l IH]; [reflexivity|].
  cbn [fmap list_fmap foldr]. cbn [fmap] in IH. rewrite IH.
  apply insert_item_fmap.
Qed.

Lemma insert_item_perm {A} (kv : string * A) (l : list (string * A)) :
  insert_item kv l ≡ₚ kv :: l.
Proof.
  induction l as [|kv' l IH]; [reflexivity|]. cbn [insert_item].
  destruct (String.leb _ _); [reflexivity|].
  rewrite IH. apply Permutation_swap.
Qed.

Lemma sort_items_perm {A} (l : list (string * A)) :
  foldr insert_item [] l ≡ₚ l.
Proof.
  induction l as [|kv l IH]; [reflexivity|]. cbn [foldr].
  rewrite insert_item_perm, IH. reflexivity.
Qed.

Lemma sorted_items_fmap {A B} (f : A → B) (m : gmap string A) :
  sorted_items (f <$> m) = prod_map id f <$> sorted_items m.
Proof.
  unfold sorted_items. rewrite map_to_list_fmap. apply sort_items_fmap.
Qed.

Lemma sorted_items_perm {A} (m : gmap string A) :
  sorted_items m ≡ₚ map_to_list m.
Proof. apply sort_items_perm. Qed.

Lemma sorted_items_nil_inv {A} (m : gmap string A) :
  sorted_items m = [] → m = ∅.
Proof.
  intros H. apply map_to_list_empty_iff, Permutation_nil_r.
  rewrite <- sorted_items_perm, H. reflexivity.
Qed.

Lemma dict_of_sorted_items {A} (m : gmap string A) :
  dict_of_pairs (sorted_items m) = m.
Proof.
  unfold dict_of_pairs. symmetry. apply list_to_map_flip.
  rewrite reverse_Permutation, sorted_items_perm. reflexivity.
Qed.

(** *** Induction on JSON values *)

Lemma sum_list_elem (n : nat) (l : list nat) : n ∈ l → (n <= sum_list l)%nat.
Proof.
  induction l as [|x l IH]; intros H; [inversion H|].
  change (sum_list (x :: l)) with (x + sum_list l)%nat.
  apply elem_of_cons in H as [->|H]; [lia|].
  specialize (IH H). lia.
Qed.

Lemma json_size_list_elem (x : json) (l : list json) :
  x ∈ l → (json_size x < json_size (JList l))%nat.
Proof.
  intros H. cbn [json_size]. apply Nat.lt_succ_r, sum_list_elem.
  apply list_elem_of_fmap. exists x. auto.
Qed.

Lemma json_size_dict_elem (k : string) (x : json) (m : gmap string json) :
  m !! k = Some x → (json_size x < json_size (JObj m))%nat.
Proof.
  intros H. cbn [json_size]. apply Nat.lt_succ_r, sum_list_elem.
  apply list_elem_of_fmap. exists (k, json_size x). split; [reflexivity|].
  apply elem_of_map_to_list. rewrite lookup_fmap, H. reflexivity.
Qed.

Lemma json_ind_nested (P : json → Prop) :
  P JNull → (∀ b, P (JBool b)) → (∀ n, P (JInt n)) → (∀ s, P (JStr s)) →
  (∀ l, Forall P l → P (JList l)) →
  (∀ m : gmap string json, map_Forall (λ _, P) m → P (JObj m)) →
  ∀ v, P v.
Proof.
  intros Hnull Hbool Hint Hstr Hlist Hobj v.
  remember (json_size v) as n eqn:En. revert v En.
  induction n as [n IH] using lt_wf_ind. intros v ->.
  destruct v as [|b|z|s|l|m]; auto.
  - apply Hlist, Forall_forall. intros x Hx.
    apply (IH (json_size x)); [apply json_size_list_elem, Hx | reflexivity].
  - apply Hobj. intros k x Hk.
    apply (IH (json_size x)); [apply (json_size_dict_elem k), Hk | reflexivity].
Qed.

(** *** Values *)

Lemma dumps_list (l : list json) :
  dumps (JList l) = String "[" (join ", " (dumps <$> l) +:+ "]").
Proof. reflexivity. Qed.

Lemma dumps_dict (m : gmap string json) :
  dumps (JObj m) = String "{" (join ", " (dump_pair <$> sorted_items m) +:+ "}").
Proof.
  cbn [dumps]. rewrite sorted_items_fmap, <- list_fmap_compose. reflexivity.
Qed.

Lemma dumps_start (v : json) : starts_with value_start (dumps v).
Proof.
  destruct v as [|[]|z|s|l|m]; try reflexivity.
  pose proof (int_repr_start z) as H. cbn [dumps].
  destruct (int_repr z) as [|c t]; [contradiction|].
  cbn [starts_with] in H |- *. unfold value_start. rewrite H. apply orb_true_r.
Qed.

Lemma dump_pair_start (kv : string * json) : starts_with value_start (dump_pair kv).
Proof. reflexivity. Qed.

Lemma join_cons_cons (sep x y : string) (l : list string) :
  join sep (x :: y :: l) = x +:+ sep +:+ join sep (y :: l).
Proof. reflexivity. Qed.

Lemma join_start (P : ascii → bool) (sep x : string) (l : list string) :
  starts_with P x → starts_with P (join sep (x :: l)).
Proof.
  intros H. destruct l as [|y l]; [exact H|].
  rewrite join_cons_cons. apply starts_with_app, H.
Qed.

Lemma next_is_start (n : N) (s : string) :
  starts_with value_start s → (n = 93 ∨ n = 125)%N → next_is n s = false.
Proof.
  destruct s as [|c s]; [contradiction|]. cbn [starts_with next_is].
  intros H Hn. destruct (value_start_not_close c H) as [H1 H2].
  destruct Hn as [-> | ->]; assumption.
Qed.

Lemma scan_values_S (fuel : nat) (s : string) :
  scan_values (S fuel) s =
  match scan_once fuel s with
  | Some (v, r) =>
      let r1 := skip_whitespace r in
      if next_is 93 r1 then Some ([v], advance r1)
      else if next_is 44 r1 then
        match scan_values fuel (skip_whitespace (advance r1)) with
        | Some (values, r2) => Some (v :: values, r2)
        | None => None
        end
      else None
  | None => None
  end.
Proof. reflexivity. Qed.

Lemma scan_values_join (l : list json) (rest : string) :
  Forall reads_back l → l ≠ [] →
  ∀ fuel : nat,
    (String.length (join ", " (dumps <$> l)) < fuel)%nat →
    scan_values fuel (join ", " (dumps <$> l) +:+ String "]" rest) = Some (l, rest).
Proof.
  intros Hall. induction Hall as [|x l Hx Hall IH]; intros Hne fuel Hfuel;
    [contradiction|].
  destruct fuel as [|fuel]; [lia|]. rewrite scan_values_S.
  destruct l as [|y l].
  - cbn [fmap list_fmap join] in Hfuel |- *.
    rewrite (Hx fuel (String "]" rest)); [reflexivity | lia | reflexivity].
  - clear Hne. cbn [fmap list_fmap] in Hfuel, IH |- *.
    rewrite join_cons_cons in Hfuel |- *.
    rewrite !string_app_length in Hfuel. cbn [String.length] in Hfuel.
    rewrite !string_app_assoc.
    rewrite (Hx fuel); [| lia | reflexivity].
    rewrite !string_app_cons, string_app_nil_l.
    change (skip_whitespace (String "," ?s)) with (String "," s).
    cbn [next_is advance].
    change (N_of_ascii "," =? 93)%N with false.
    change (N_of_ascii "," =? 44)%N with true. cbv iota.
    rewrite skip_whitespace_space_value.
    2: { apply starts_with_app, join_start, dumps_start. }
    rewrite IH; [reflexivity | discriminate | lia].
Qed.

Lemma scan_pairs_S (fuel : nat) (t : string) :
  scan_pairs (S fuel) (String quote t) =
  match scanstring t with
  | Some (key, r) =>
      let r1 := skip_whitespace r in
      if next_is 58 r1 then
        match scan_once fuel (skip_whitespace (advance r1)) with
        | Some (v, r2) =>
            let r3 := skip_whitespace r2 in
            if next_is 125 r3 then Some ([(key, v)], advance r3)
            else if next_is 44 r3 then
              match scan_pairs fuel (skip_whitespace (advance r3)) with
              | Some (pairs, r4) => Some ((key, v) :: pairs, r4)
              | None => None
              end
            else None
        | None => None
        end
      else None
  | None => None
  end.
Proof. reflexivity. Qed.

(** One pair, up to the text [rest] that follows its value. *)
Lemma scan_pair_value (fuel : nat) (k : string) (v : json) (rest : string) :
  reads_back v → (String.length (dump_pair (k, v)) <= fuel)%nat →
  no_digit_head rest →
  scanstring (advance (dump_pair (k, v) +:+ rest)) =
    Some (k, String ":" (String " " (dumps v +:+ rest))) ∧
  scan_once fuel (dumps v +:+ rest) = Some (v, rest).
Proof.
  intros Hv Hfuel Hrest. unfold dump_pair in *. cbn [fst snd] in *. split.
  - rewrite !string_app_assoc, scanstring_encode. reflexivity.
  - apply Hv; [|exact Hrest]. rewrite !string_app_length in Hfuel. lia.
Qed.

Lemma dump_pair_quote (kv : string * json) (rest : string) :
  dump_pair kv +:+ rest = String quote (advance (dump_pair kv +:+ rest)).
Proof. reflexivity. Qed.

Lemma scan_pairs_join (items : list (string * json)) (rest : string) :
  Forall (λ kv, reads_back (snd kv)) items → items ≠ [] →
  ∀ fuel : nat,
    (String.length (join ", " (dump_pair <$> items)) < fuel)%nat →
    scan_pairs fuel (join ", " (dump_pair <$> items) +:+ String "}" rest) =
    Some (items, rest).
Proof.
  intros Hall. induction Hall as [|[k v] items Hv Hall IH]; intros Hne fuel Hfuel;
    [contradiction|].
  destruct fuel as [|fuel]; [lia|]. cbn [snd] in Hv.
  destruct items as [|kv items].
  - cbn [fmap list_fmap join] in Hfuel |- *.
    rewrite dump_pair_quote, scan_pairs_S.
    destruct (scan_pair_value fuel k v (String "}" rest) Hv) as [-> Hval];
      [lia | reflexivity |].
    change (skip_whitespace (String ":" ?s)) with (String ":" s).
    cbn [next_is advance]. change (N_of_ascii ":" =? 58)%N with true. cbv iota.
    rewrite skip_whitespace_space_value by apply starts_with_app, dumps_start.
    rewrite Hval. reflexivity.
  - clear Hne. cbn [fmap list_fmap] in Hfuel, IH |- *.
    rewrite join_cons_cons in Hfuel |- *.
    rewrite !string_app_length in Hfuel. cbn [String.length] in Hfuel.
    rewrite !string_app_assoc.
    rewrite dump_pair_quote, scan_pairs_S.
    destruct (scan_pair_value fuel k v
      (", " +:+ join ", " (dump_pair kv :: (dump_pair <$> items)) +:+ String "}" rest) Hv)
      as [-> Hval]; [lia | reflexivity |].
    change (skip_whitespace (String ":" ?s)) with (String ":" s).
    cbn [next_is advance]. change (N_of_ascii ":" =? 58)%N with true. cbv iota.
    rewrite skip_whitespace_space_value by apply starts_with_app, dumps_start.
    rewrite Hval.
    rewrite !string_app_cons, string_app_nil_l.
    change (skip_whitespace (String "," ?s)) with (String "," s).
    cbn [next_is advance].
    change (N_of_ascii "," =? 125)%N with false.
    change (N_of_ascii "," =? 44)%N with true. cbv iota.
    rewrite skip_whitespace_space_value.
    2: { apply starts_with_app, join_start, dump_pair_start. }
    rewrite IH; [reflexivity | discriminate | lia].
Qed.

Lemma scan_once_list (fuel : nat) (t : string) :
  scan_once (S fuel) (String "[" t) =
  let s1 := skip_whitespace t in
  if next_is 93 s1 then Some (JList [], advance s1)
  else
    match scan_values fuel s1 with
    | Some (values, r) => Some (JList values, r)
    | None => None
    end.
Proof. reflexivity. Qed.

Lemma scan_once_dict (fuel : nat) (t : string) :
  scan_once (S fuel) (String "{" t) =
  let s1 := skip_whitespace t in
  if next_is 125 s1 then Some (JObj ∅, advance s1)
  else
    match scan_pairs fuel s1 with
    | Some (pairs, r) => Some (JObj (dict_of_pairs pairs), r)
    | None => None
    end.
Proof. reflexivity. Qed.

Lemma scan_once_string (fuel : nat) (t : string) :
  scan_once (S fuel) (String quote t) =
  match scanstring t with
  | Some (s, r) => Some (JStr s, r)
  | None => None
  end.
Proof. reflexivity. Qed.

Lemma reads_back_list (l : list json) : Forall reads_back l → reads_back (JList l).
Proof.
  intros Hall fuel rest Hfuel Hrest. rewrite dumps_list in Hfuel |- *.
  cbn [String.length] in Hfuel. rewrite string_app_length in Hfuel.
  cbn [String.length] in Hfuel.
  destruct fuel as [|fuel]; [lia|].
  rewrite string_app_cons, string_app_assoc, scan_once_list.
  rewrite string_app_cons, string_app_nil_l.
  destruct l as [|x l]; [reflexivity|].
  assert (Hstart : starts_with value_start
            (join ", " (dumps <$> x :: l) +:+ String "]" rest)).
  { apply starts_with_app. cbn [fmap list_fmap]. apply join_start, dumps_start. }
  cbv zeta. rewrite (skip_whitespace_value _ Hstart).
  rewrite (next_is_start 93 _ Hstart) by (left; reflexivity).
  rewrite scan_values_join; [reflexivity | exact Hall | discriminate | lia].
Qed.

Lemma reads_back_dict (m : gmap string json) :
  map_Forall (λ _, reads_back) m → reads_back (JObj m).
Proof.
  intros Hall fuel rest Hfuel Hrest. rewrite dumps_dict in Hfuel |- *.
  cbn [String.length] in Hfuel. rewrite string_app_length in Hfuel.
  cbn [String.length] in Hfuel.
  destruct fuel as [|fuel]; [lia|].
  rewrite string_app_cons, string_app_assoc, scan_once_dict.
  rewrite string_app_cons, string_app_nil_l.
  destruct (sorted_items m) as [|kv items] eqn:E.
  - rewrite (sorted_items_nil_inv m E). reflexivity.
  - assert (Hstart : starts_with value_start
              (join ", " (dump_pair <$> kv :: items) +:+ String "}" rest)).
    { apply starts_with_app. cbn [fmap list_fmap]. apply join_start, dump_pair_start. }
    cbv zeta. rewrite (skip_whitespace_value _ Hstart).
    rewrite (next_is_start 125 _ Hstart) by (right; reflexivity).
    rewrite scan_pairs_join; [| | discriminate | lia].
    + rewrite <- E, dict_of_sorted_items. reflexivity.
    + rewrite <- E. apply Forall_forall. intros [k v] Hkv. cbn [snd].
      rewrite sorted_items_perm in Hkv. apply elem_of_map_to_list in Hkv.
      exact (Hall k v Hkv).
Qed.

Lemma dumps_reads_back (v : json) : reads_back v.
Proof.
  induction v as [|b|z|s|l IH|m IH] using json_ind_nested.
  - intros [|fuel] rest Hfuel _; [cbn in Hfuel; lia | reflexivity].
  - intros [|fuel] rest Hfuel _; destruct b; cbn in Hfuel; try lia; reflexivity.
  - intros fuel rest Hfuel Hrest. cbn [dumps] in Hfuel |- *.
    pose proof (int_repr_length z). destruct fuel as [|fuel]; [lia|].
    pose proof (int_repr_start z) as Hstart.
    pose proof (scan_number_int_repr z rest Hrest) as Hscan.
    destruct (int_repr z) as [|c t]; [contradiction|].
    rewrite string_app_cons in Hscan |- *.
    rewrite (scan_once_number fuel c _ Hstart), Hscan. reflexivity.
  - intros [|fuel] rest Hfuel _; [cbn in Hfuel; lia|]. cbn [dumps].
    unfold encode_basestring_ascii.
    rewrite string_app_cons, string_app_assoc, scan_once_string.
    rewrite string_app_cons, string_app_nil_l, scanstring_escape. reflexivity.
  - apply reads_back_list, IH.
  - apply reads_back_dict, IH.
Qed.

(** [json.loads(json.dumps(v, sort_keys=True)) == v] *)
Lemma loads_dumps (v : json) : loads (dumps v) = Some v.
Proof.
  unfold loads. rewrite (skip_whitespace_value _ (dumps_start v)).
  rewrite <- (string_app_nil_r (dumps v)) at 2.
  rewrite (dumps_reads_back v); [reflexivity | lia | exact I].
Qed.

(** ** The resolver *)

Lemma occurrences_app (x : string) (l1 l2 : list string) :
  occurrences x (l1 ++ l2) = (occurrences x l1 + occurrences x l2)%nat.
Proof.
  induction l1 as [|y l1 IH]; [reflexivity|].
  cbn [app occurrences]. rewrite IH. lia.
Qed.

Lemma Counter_snoc (l : list string) (x : string) :
  Counter (l ++ [x]) = Counter_add x (Counter l).
Proof. unfold Counter. rewrite fold_left_app. reflexivity. Qed.

Lemma count_of_add (y x : string) (counts : list (string * nat)) :
  count_of y (Counter_add x counts) =
  ((if String.eqb y x then 1 else 0) + count_of y counts)%nat.
Proof.
  induction counts as [|[y0 n] counts IH]; cbn [Counter_add count_of].
  - destruct (String.eqb y x); reflexivity.
  - destruct (String.eqb_spec x y0) as [->|Hx]; cbn [count_of].
    + destruct (String.eqb y y0); lia.
    + destruct (String.eqb_spec y y0) as [->|Hy]; [|exact IH].
      destruct (String.eqb_spec y0 x) as [->|_]; [contradiction | reflexivity].
Qed.

Lemma count_of_Counter (y : string) (l : list string) :
  count_of y (Counter l) = occurrences y l.
Proof.
  induction l as [|x l IH] using rev_ind; [reflexivity|].
  rewrite Counter_snoc, count_of_add, occurrences_app, IH.
  cbn [occurrences]. lia.
Qed.

Lemma keys_add (x : string) (counts : list (string * nat)) :
  (Counter_add x counts).*1 =
  if decide (x ∈ counts.*1) then counts.*1 else counts.*1 ++ [x].
Proof.
  induction counts as [|[y n] counts IH]; [reflexivity|].
  cbn [Counter_add]. destruct (String.eqb_spec x y) as [->|Hx].
  - rewrite !fmap_cons. cbn [fst].
    rewrite decide_True by apply list_elem_of_here. reflexivity.
  - rewrite !fmap_cons, IH. cbn [fst].
    destruct (decide (x ∈ counts.*1)) as [Hin|Hin].
    + rewrite decide_True by (apply list_elem_of_further, Hin). reflexivity.
    + rewrite decide_False; [reflexivity|].
      intros [?|?]%elem_of_cons; contradiction.
Qed.

Lemma Counter_keys_NoDup (l : list string) : NoDup (Counter l).*1.
Proof.
  induction l as [|x l IH] using rev_ind; [constructor|].
  rewrite Counter_snoc, keys_add. destruct (decide _) as [Hin|Hin]; [exact IH|].
  apply NoDup_app. split; [exact IH|]. split; [|apply NoDup_singleton].
  intros y Hy ->%list_elem_of_singleton. contradiction.
Qed.

Lemma Counter_keys_elem (l : list string) (x : string) :
  x ∈ l → x ∈ (Counter l).*1.
Proof.
  induction l as [|y l IH] using rev_ind; intros Hx; [inversion Hx|].
  rewrite Counter_snoc, keys_add. apply elem_of_app in Hx as [Hx|Hx].
  - destruct (decide _); [|apply elem_of_app; left]; apply IH, Hx.
  - apply list_elem_of_singleton in Hx as ->.
    destruct (decide _) as [Hin|_]; [exact Hin|].
    apply elem_of_app. right. apply list_elem_of_singleton. reflexivity.
Qed.

(** The keys of a counter come in the order of their first occurrence:
    whatever stands before the first [y] in the list is counted before
    [y]. *)
Lemma Counter_keys_order (l : list string) (K1 K2 : list string) (y : string) :
  (Counter l).*1 = K1 ++ y :: K2 →
  ∃ l1 l2 : list string, l = l1 ++ y :: l2 ∧ ∀ z, z ∈ l1 → z ∈ K1.
Proof.
  revert K1 K2 y. induction l as [|x l IH] using rev_ind; intros K1 K2 y HK.
  - destruct K1; discriminate HK.
  - rewrite Counter_snoc, keys_add in HK.
    destruct (decide (x ∈ (Counter l).*1)) as [Hin|Hin].
    + destruct (IH _ _ _ HK) as (l1 & l2 & -> & Hl1).
      exists l1, (l2 ++ [x]). rewrite <- app_assoc. auto.
    + destruct K2 as [|k K2 _] using rev_ind.
      * apply app_inj_tail in HK as [HK ->].
        exists l, []. split; [reflexivity|].
        intros z Hz. rewrite <- HK. apply Counter_keys_elem, Hz.
      * rewrite app_comm_cons, app_assoc in HK.
        apply app_inj_tail in HK as [HK _].
        destruct (IH _ _ _ HK) as (l1 & l2 & -> & Hl1).
        exists l1, (l2 ++ [x]). rewrite <- app_assoc. auto.
Qed.

Lemma count_of_elem (counts : list (string * nat)) (y : string) (n : nat) :
  NoDup counts.*1 → (y, n) ∈ counts → count_of y counts = n.
Proof.
  induction counts as [|[y0 n0] counts IH]; intros Hnd Hin; [inversion Hin|].
  rewrite fmap_cons in Hnd. cbn [fst] in Hnd. apply NoDup_cons in Hnd as [Hy0 Hnd].
  cbn [count_of]. apply elem_of_cons in Hin as [[= -> ->]|Hin].
  - rewrite String.eqb_refl. reflexivity.
  - destruct (String.eqb_spec y y0) as [->|_]; [|apply IH; assumption].
    exfalso. apply Hy0. apply list_elem_of_fmap. exists (y0, n). auto.
Qed.

Lemma max_count_ge (items : list (string * nat)) : ∀ best : string * nat,
  (snd best <= snd (max_count best items))%nat.
Proof.
  induction items as [|item items IH]; intros best; [reflexivity|].
  cbn [max_count]. destruct (Nat.ltb_spec (snd best) (snd item)) as [Hlt|Hge].
  - specialize (IH item). lia.
  - apply IH.
Qed.

(** [max] returns the first item with the largest count. *)
Lemma max_count_first (items : list (string * nat)) : ∀ best : string * nat,
  ∃ C1 C2 : list (string * nat),
    best :: items = C1 ++ max_count best items :: C2 ∧
    (∀ it, it ∈ C1 → (snd it < snd (max_count best items))%nat) ∧
    (∀ it, it ∈ C2 → (snd it <= snd (max_count best items))%nat).
Proof.
  induction items as [|item items IH]; intros best.
  - exists [], []. repeat split; intros it Hit; inversion Hit.
  - cbn [max_count]. destruct (Nat.ltb_spec (snd best) (snd item)) as [Hlt|Hge].
    + destruct (IH item) as (C1 & C2 & HC & H1 & H2).
      exists (best :: C1), C2. rewrite HC. split; [reflexivity|].
      split; [|exact H2]. intros it [->|Hit]%elem_of_cons; [|apply H1, Hit].
      pose proof (max_count_ge items item). lia.
    + destruct (IH best) as (C1 & C2 & HC & H1 & H2).
      remember (max_count best items) as r eqn:Er. clear Er IH.
      destruct C1 as [|b C1].
      * injection HC as <- <-. exists [], (item :: items).
        split; [reflexivity|]. split; [intros it Hit; inversion Hit|].
        intros it [->|Hit]%elem_of_cons; [exact Hge | apply H2, Hit].
      * injection HC as <- ->. exists (best :: item :: C1), C2.
        split; [reflexivity|]. split; [|exact H2].
        intros it [->|[->|Hit]%elem_of_cons]%elem_of_cons.
        -- apply H1, list_elem_of_here.
        -- specialize (H1 best (list_elem_of_here _ _)). lia.
        -- apply H1, list_elem_of_further, Hit.
Qed.

(** [Counter(items).most_common(1)[0][0]]: the first item of the list
    among those that occur most often. *)
Lemma most_common_first_max (l : list string) :
  l ≠ [] →
  ∃ (w : string) (n : nat) (l1 l2 : list string),
    most_common_1 (Counter l) = [(w, n)] ∧
    l = l1 ++ w :: l2 ∧
    (∀ z, z ∈ l1 → (occurrences z l < occurrences w l)%nat) ∧
    (∀ z, z ∈ l → (occurrences z l <= occurrences w l)%nat).
Proof.
  intros Hne.
  destruct (Counter l) as [|best items] eqn:EC.
  { destruct l as [|x l]; [contradiction|].
    pose proof (Counter_keys_elem (x :: l) x (list_elem_of_here _ _)) as Hx.
    rewrite EC in Hx. inversion Hx. }
  cbn [most_common_1].
  destruct (max_count_first items best) as (C1 & C2 & HC & H1 & H2).
  destruct (max_count best items) as [w n] eqn:Er. cbn [snd] in H1, H2.
  pose proof (Counter_keys_NoDup l) as Hnd.
  assert (Hcount : ∀ z m, (z, m) ∈ Counter l → occurrences z l = m).
  { intros z m Hz. rewrite <- count_of_Counter. apply count_of_elem; assumption. }
  rewrite EC, HC in Hcount.
  assert (Hw : occurrences w l = n).
  { apply Hcount, elem_of_app. right. apply list_elem_of_here. }
  assert (HK : (Counter l).*1 = C1.*1 ++ w :: C2.*1).
  { rewrite EC, HC, fmap_app. reflexivity. }
  destruct (Counter_keys_order l _ _ _ HK) as (l1 & l2 & Hl & Hl1).
  exists w, n, l1, l2. split; [reflexivity|]. split; [exact Hl|]. split.
  - intros z Hz. apply Hl1, list_elem_of_fmap in Hz as ([z' m] & -> & Hz).
    cbn [fst]. rewrite Hw, (Hcount z' m); [apply (H1 _ Hz)|].
    apply elem_of_app. left. exact Hz.
  - intros z Hz. apply Counter_keys_elem in Hz. rewrite EC, HC in Hz.
    apply list_elem_of_fmap in Hz as ([z' m] & -> & Hz). cbn [fst].
    rewrite Hw, (Hcount z' m Hz).
    apply elem_of_app in Hz as [Hz|[[= -> ->]|Hz]%elem_of_cons].
    + specialize (H1 _ Hz). cbn in H1. lia.
    + lia.
    + apply (H2 _ Hz).
Qed.


(** [get_majority_chain] returns the dict of the first stored proposal
    among those with the most votes. *)
Lemma get_majority_chain_first_max (st : State) :
  chains st ≠ [] →
  ∃ (before : list ChainProposal) (w : ChainProposal) (after : list ChainProposal),
    chains st = before ++ w :: after ∧
    get_majority_chain st = Return (JObj (ChainProposal_dict w)) ∧
    (∀ c, c ∈ before → (votes c (chains st) < votes w (chains st))%nat) ∧
    (∀ c, c ∈ chains st → (votes c (chains st) <= votes w (chains st))%nat).
Proof.
  intros Hne.
  destruct (most_common_first_max (chain_str <$> chains st))
    as (s & n & l1 & l2 & Hmc & Hl & Hlt & Hle).
  { destruct (chains st); [contradiction | discriminate]. }
  apply fmap_app_inv in Hl as (before & rest & -> & Hrest & Hcs).
  symmetry in Hrest. apply fmap_cons_inv in Hrest as (w & after & -> & -> & ->).
  exists before, w, after. split; [exact Hcs|]. split; [|split].
  - unfold get_majority_chain. destruct (chains st) as [|c cs]; [contradiction|].
    cbv zeta. rewrite Hmc. unfold chain_str. rewrite loads_dumps. reflexivity.
  - intros c Hc. apply Hlt, list_elem_of_fmap. exists c. auto.
  - intros c Hc. apply Hle, list_elem_of_fmap. exists c. auto.
Qed.

Lemma get_majority_chain_chains (st1 st2 : State) :
  chains st1 = chains st2 → get_majority_chain st1 = get_majority_chain st2.
Proof. intros H. unfold get_majority_chain. rewrite H. reflexivity. Qed.



(** ** Test vectors and worked examples *)

Example sha256_constants :
  firstn 4 Sha256.K = [0x428a2f98; 0x71374491; 0xb5c0fbcf; 0xe9b5dba5] ∧
  last Sha256.K = Some 0xc67178f2 ∧
  Sha256.ra Sha256.H0 = 0x6a09e667 ∧ Sha256.rh Sha256.H0 = 0x5be0cd19.
Proof. vm_compute. repeat split. Qed.

Example sha256_abc :
  sha256_hexdigest "abc" =
  "ba7816bf8f01cfea414140de5dae2223b00361a396177a9cb410ff61f20015ad".
Proof. vm_compute. reflexivity. Qed.

Example sha256_empty :
  sha256_hexdigest "" =
  "e3b0c44298fc1c149afbf4c8996fb92427ae41e4649b934ca495991b7852b855".
Proof. vm_compute. reflexivity. Qed.

Example sha256_two_blocks :
  sha256_hexdigest "abcdbcdecdefdefgefghfghighijhijkijkljklmklmnlmnomnopnopq" =
  "248d6a61d20638b8e5c026930c3e6039a33ce45964ff2167f6ecedd419db06c1".
Proof. vm_compute. reflexivity. Qed.

(** The digest of the genesis block that [create_genesis] builds at the
    given clock readings, as hashlib and json compute it. *)
Example calculate_hash_genesis :
  (calculate_hash <$>
     (head (chains (snd (create_genesis "2024-01-01T00:00:00+00:00"
                           "2024-01-01T00:00:01+00:00" "2024-01-01T00:00:02+00:00"
                           initial_state)))
      ≫= fun c => head (blocks c))) =
  Some "43e91ce8e4c592168c41ce9e3cdc4cfb121c63edfa4162e5dc069f6016ed1836".
Proof. vm_compute. reflexivity. Qed.

(** The chain that [create_genesis] stores at these clock readings is
    rejected by [is_chain_valid]. *)
Example create_genesis_chain_rejected :
  (is_chain_valid <$>
     (blocks <$>
        head (chains (snd (create_genesis "2024-01-01T00:00:00+00:00"
                             "2024-01-01T00:00:01+00:00" "2024-01-01T00:00:02+00:00"
                             initial_state))))) = Some false.
Proof. vm_compute. reflexivity. Qed.

Lemma example_registered (text : string) :
  registered (example_message text) example_state.
Proof. split; cbn; unfold example_participants; set_solver. Qed.

Lemma example_requests_append : Forall append_request example_registrations.
Proof. repeat constructor. Qed.

Lemma genesis_ledger_rejected_witness :
  Forall append_request example_registrations ∧
  ∃ c : ChainProposal,
    chains (run (POST_create_genesis "2024-01-01T00:00:00+00:00"
                   "2024-01-01T00:00:01+00:00" "2024-01-01T00:00:02+00:00"
                 :: example_registrations) initial_state) = [c] ∧
    is_chain_valid (blocks c) = false.
Proof.
  split; [exact example_requests_append|].
  apply (genesis_ledger_rejected _ _ _ example_registrations).
  exact example_requests_append.
Defined.

Lemma is_chain_valid_iff_checks_witness :
  gap_second :: [gap_first] ≠ [] ∧ is_chain_valid [gap_second; gap_first] = false.
Proof.
  split; [discriminate|].
  apply (proj2 (proj2 (is_chain_valid_iff_checks [gap_second; gap_first])) gap_second).
  - reflexivity.
  - left. discriminate.
Defined.

Lemma gap_first_hashable : hashable gap_first ∧ int_str_ok (index gap_first + 1).
Proof. repeat split; vm_compute; reflexivity. Qed.

Lemma send_message_appends_witness :
  registered (example_message "again") (example_store [example_short]) ∧
  hashable gap_first ∧ int_str_ok (index gap_first + 1) ∧
  ∃ (new_block : Block) (st' : State),
    send_message "2024-05-01T10:00:02+00:00" "2024-05-01T10:00:02+00:00"
      (example_message "again") (example_store [example_short]) =
      (Return (success_message "Message added to blockchain"), st') ∧
    (blocks <$> last (chains st')) = Some [gap_first; new_block] ∧
    index new_block = 2 ∧
    previousHash new_block = calculate_hash gap_first ∧
    is_chain_valid [gap_first; new_block] = true.
Proof.
  split; [exact (example_registered "again")|].
  split; [exact (proj1 gap_first_hashable)|].
  split; [exact (proj2 gap_first_hashable)|].
  destruct (send_message_appends "2024-05-01T10:00:02+00:00"
              "2024-05-01T10:00:02+00:00" (example_message "again")
              (example_store [example_short]) (example_registered "again")
              gap_first eq_refl (proj1 gap_first_hashable)
              (proj2 gap_first_hashable))
    as (new_block & chain' & st' & Hsend & _ & Hlast & Hblocks & _ & Hi & Hp & _ & _ & _ & Hv).
  exists new_block, st'. split; [exact Hsend|]. split; [|split; [|split]].
  - rewrite Hlast. cbn [fmap option_fmap option_map]. rewrite Hblocks. reflexivity.
  - exact Hi.
  - exact Hp.
  - rewrite Hblocks in Hv. apply Hv. vm_compute. reflexivity.
Defined.

Lemma rejection_leaves_state_unchanged_witness :
  is_chain_valid (blocks (example_chain [gap_second])) = false ∧
  share_latest_chain (example_chain [gap_second]) (example_store [example_short]) =
  (Raise (HTTPException 400 "Invalid chain"), example_store [example_short]).
Proof.
  split; [reflexivity|].
  apply (proj1 (rejection_leaves_state_unchanged (example_store [example_short]))).
  reflexivity.
Defined.

Lemma calculate_hash_five_fields_witness :
  hash gap_first ≠ hash (set_hash "0" gap_first) ∧
  calculate_hash gap_first = calculate_hash (set_hash "0" gap_first).
Proof.
  split.
  - intros H. apply (calculate_hash_not_0 _ H).
  - apply calculate_hash_five_fields; reflexivity.
Defined.

Lemma get_majority_chain_empty_witness :
  chains initial_state = [] ∧ get_majority_chain initial_state = Return (JObj ∅).
Proof.
  split; [reflexivity|]. apply get_majority_chain_empty. reflexivity.
Defined.


Lemma send_message_starts_valid_chain_witness :
  chains example_state = [] ∧ registered (example_message "hello") example_state ∧
  ∃ (new_block : Block) (st' : State),
    send_message "2024-05-01T10:00:01+00:00" "2024-05-01T10:00:01+00:00"
      (example_message "hello") example_state =
      (Return (success_message "Message added to blockchain"), st') ∧
    (blocks <$> chains st') = [[new_block]] ∧
    content (message new_block) = "hello" ∧
    is_chain_valid [new_block] = true.
Proof.
  split; [reflexivity|]. split; [exact (example_registered "hello")|].
  destruct (send_message_starts_valid_chain "2024-05-01T10:00:01+00:00"
              "2024-05-01T10:00:01+00:00" (example_message "hello") example_state
              eq_refl (example_registered "hello"))
    as (new_block & st' & Hsend & Hchains & _ & _ & _ & Hm & Hv).
  exists new_block, st'. split; [exact Hsend|]. split; [|split].
  - rewrite Hchains. reflexivity.
  - rewrite Hm. reflexivity.
  - exact Hv.
Defined.

(** * Further properties *)

(** ** Accepted block lists *)

Lemma is_chain_valid_at (bs : list Block) (i : nat) (b : Block) :
  is_chain_valid bs = true → bs !! i = Some b →
  hash b = calculate_hash b ∧ previousHash b = expected_previousHash bs i.
Proof.
  intros Hv Hb. destruct bs as [|first rest]; [discriminate Hv|].
  apply is_chain_valid_cons in Hv as [(Hi & Hp & Hh) Hl].
  destruct i as [|j].
  - injection Hb as <-. split; assumption.
  - rewrite check_links_spec in Hl.
    destruct (lookup_lt_is_Some_2 (first :: rest) j) as [p Hp'].
    { apply lookup_lt_Some in Hb. lia. }
    destruct (Hl j p b Hp' Hb) as [H1 H2]. split; [exact H2|].
    cbn [expected_previousHash]. rewrite Hp'. exact H1.
Qed.

Lemma expected_previousHash_insert (bs : list Block) (i : nat) (b : Block) :
  expected_previousHash (<[i := b]> bs) i = expected_previousHash bs i.
Proof.
  destruct i as [|j]; [reflexivity|]. cbn [expected_previousHash].
  rewrite list_lookup_insert_ne by lia. reflexivity.
Qed.

(** X1. A non-empty prefix of an accepted block list is accepted. *)
Theorem is_chain_valid_prefix (bs more : list Block) :
  bs ≠ [] → is_chain_valid (bs ++ more) = true → is_chain_valid bs = true.
Proof.
  intros Hne. induction more as [|x more IH] using rev_ind.
  - rewrite app_nil_r. exact id.
  - rewrite app_assoc. intros Hv. apply IH.
    destruct (last (bs ++ more)) as [tail|] eqn:Hl.
    + destruct (proj1 (is_chain_valid_app _ tail x Hl) Hv) as [Hv' _]. exact Hv'.
    + apply last_None, app_eq_nil in Hl as [-> _]. contradiction.
Qed.

(** X2. In an accepted block list every block stores its own digest, 64
    characters long, and every block after the first stores as
    previousHash the stored hash of the block before it. *)
Theorem is_chain_valid_stored_hashes (bs : list Block) :
  is_chain_valid bs = true →
  (∀ (i : nat) (b : Block), bs !! i = Some b →
     hash b = calculate_hash b ∧ String.length (hash b) = 64%nat) ∧
  (∀ (i : nat) (previous current : Block),
     bs !! i = Some previous → bs !! S i = Some current →
     previousHash current = hash previous).
Proof.
  intros Hv. split.
  - intros i b Hb. destruct (is_chain_valid_at bs i b Hv Hb) as [Hh _].
    split; [exact Hh|]. rewrite Hh. apply calculate_hash_length.
  - intros i p c Hp Hc.
    destruct (is_chain_valid_at bs i p Hv Hp) as [Hh _].
    destruct (is_chain_valid_at bs (S i) c Hv Hc) as [_ Hprev].
    cbn [expected_previousHash] in Hprev. rewrite Hp in Hprev. congruence.
Qed.

(** X3. Replacing only the stored hash of any block of an accepted list by
    another string makes the list rejected. *)
Theorem is_chain_valid_detects_hash_change (bs : list Block) (i : nat)
  (b : Block) (h : string) :
  is_chain_valid bs = true → bs !! i = Some b → h ≠ hash b →
  is_chain_valid (<[i := set_hash h b]> bs) = false.
Proof.
  intros Hv Hb Hh. apply not_true_is_false. intros Hv'.
  destruct (is_chain_valid_at bs i b Hv Hb) as [Hself _].
  destruct (is_chain_valid_at _ i (set_hash h b) Hv') as [Hself' _].
  { apply list_lookup_insert_eq. apply lookup_lt_Some in Hb. exact Hb. }
  rewrite calculate_hash_set_hash in Hself'. cbn [hash set_hash] in Hself'.
  congruence.
Qed.

(** X4. Replacing any block of an accepted list by a block with another
    previousHash makes the list rejected, whatever the other fields of the
    new block are. *)
Theorem is_chain_valid_detects_previousHash_change (bs : list Block) (i : nat)
  (b b' : Block) :
  is_chain_valid bs = true → bs !! i = Some b →
  previousHash b' ≠ previousHash b →
  is_chain_valid (<[i := b']> bs) = false.
Proof.
  intros Hv Hb Hp. apply not_true_is_false. intros Hv'.
  destruct (is_chain_valid_at bs i b Hv Hb) as [_ Hprev].
  destruct (is_chain_valid_at _ i b' Hv') as [_ Hprev'].
  { apply list_lookup_insert_eq. apply lookup_lt_Some in Hb. exact Hb. }
  rewrite expected_previousHash_insert in Hprev'. congruence.
Qed.

Lemma hex_digit_is_hex (x : Z) :
  is_hex_digit (Sha256.hex_digit (Z.land x 0xF)) = true.
Proof.
  change 0xF with (Z.ones 4). rewrite Z.land_ones by lia.
  pose proof (Z.mod_pos_bound x (2 ^ 4) ltac:(lia)) as Hb.
  set (v := x mod 2 ^ 4) in *.
  assert (v = 0 ∨ v = 1 ∨ v = 2 ∨ v = 3 ∨ v = 4 ∨ v = 5 ∨ v = 6 ∨ v = 7 ∨
          v = 8 ∨ v = 9 ∨ v = 10 ∨ v = 11 ∨ v = 12 ∨ v = 13 ∨ v = 14 ∨ v = 15)
    as Hv by lia.
  repeat (destruct Hv as [->|Hv]; [reflexivity|]). rewrite Hv. reflexivity.
Qed.

Lemma hex_word_all_hex (x : Z) (rest : string) :
  all_chars is_hex_digit (Sha256.hex_word x rest) = all_chars is_hex_digit rest.
Proof.
  unfold Sha256.hex_word, Sha256.hex_nibble. cbn [all_chars].
  rewrite !hex_digit_is_hex. reflexivity.
Qed.

(** X5. Every digest that [calculate_hash] returns is a string of 64
    lower-case hexadecimal digits. *)
Theorem calculate_hash_format (b : Block) :
  String.length (calculate_hash b) = 64%nat ∧
  all_chars is_hex_digit (calculate_hash b) = true.
Proof.
  split; [apply calculate_hash_length|].
  unfold calculate_hash, Sha256.hexdigest. cbv zeta.
  rewrite !hex_word_all_hex. reflexivity.
Qed.

Lemma gap_blocks_valid : is_chain_valid [gap_first; gap_second] = true.
Proof. vm_compute. reflexivity. Qed.

Lemma is_chain_valid_prefix_witness :
  [gap_first] ≠ [] ∧ is_chain_valid ([gap_first] ++ [gap_second]) = true ∧
  is_chain_valid [gap_first] = true.
Proof.
  split; [discriminate|]. split; [exact gap_blocks_valid|].
  apply (is_chain_valid_prefix [gap_first] [gap_second]);
    [discriminate | exact gap_blocks_valid].
Defined.

Lemma is_chain_valid_stored_hashes_witness :
  is_chain_valid [gap_first; gap_second] = true ∧
  previousHash gap_second = hash gap_first.
Proof.
  split; [exact gap_blocks_valid|].
  apply (proj2 (is_chain_valid_stored_hashes [gap_first; gap_second] gap_blocks_valid)
           0%nat gap_first gap_second); reflexivity.
Defined.

Lemma is_chain_valid_detects_hash_change_witness :
  is_chain_valid [gap_first; gap_second] = true ∧
  "0" ≠ hash gap_second ∧
  is_chain_valid [gap_first; set_hash "0" gap_second] = false.
Proof.
  assert (Hh : "0" ≠ hash gap_second).
  { intros H. symmetry in H. exact (calculate_hash_not_0 _ H). }
  split; [exact gap_blocks_valid|]. split; [exact Hh|].
  apply (is_chain_valid_detects_hash_change [gap_first; gap_second] 1%nat
           gap_second "0" gap_blocks_valid eq_refl Hh).
Defined.

Lemma is_chain_valid_detects_previousHash_change_witness :
  is_chain_valid [gap_first; gap_second] = true ∧
  previousHash gap_first ≠ previousHash gap_second ∧
  is_chain_valid [gap_first; gap_first] = false.
Proof.
  assert (Hp : previousHash gap_first ≠ previousHash gap_second).
  { intros H. symmetry in H. exact (calculate_hash_not_0 _ H). }
  split; [exact gap_blocks_valid|]. split; [exact Hp|].
  apply (is_chain_valid_detects_previousHash_change [gap_first; gap_second] 1%nat
           gap_second gap_first gap_blocks_valid eq_refl Hp).
Defined.

(** ** The handlers *)

Lemma run_snoc (rs : list Request) (r : Request) (st : State) :
  run (rs ++ [r]) st = snd (handle r (run rs st)).
Proof. unfold run. rewrite fold_left_app. reflexivity. Qed.

Lemma run_app (rs1 rs2 : list Request) (st : State) :
  run (rs1 ++ rs2) st = run rs2 (run rs1 st).
Proof. unfold run. apply fold_left_app. Qed.

(** An invariant of every handler holds after every run. *)
Lemma run_invariant (P : State → Prop) :
  (∀ (r : Request) (st : State), P st → P (snd (handle r st))) →
  ∀ (rs : list Request) (st : State), P st → P (run rs st).
Proof.
  intros Hstep rs. induction rs as [|r rs IH]; intros st Hst; [exact Hst|].
  change (run (r :: rs) st) with (run rs (snd (handle r st))).
  apply IH, Hstep, Hst.
Qed.

Lemma get_majority_chain_returns (st : State) :
  ∃ v : json, get_majority_chain st = Return v.
Proof.
  destruct (chains st) as [|c cs] eqn:E.
  - exists (JObj ∅). unfold get_majority_chain. rewrite E. reflexivity.
  - destruct (get_majority_chain_first_max st) as (_ & w & _ & _ & H & _).
    { rewrite E. discriminate. }
    eauto.
Qed.

Lemma share_latest_chain_valid (proposal : ChainProposal) (st : State) :
  is_chain_valid (blocks proposal) = true →
  ∃ v : json,
    get_majority_chain (set_chains (chains st ++ [proposal]) st) = Return v ∧
    share_latest_chain proposal st =
    (Return (success_latest_chain v),
     save_chain (set_chains (chains st ++ [proposal]) st)).
Proof.
  intros Hv. unfold share_latest_chain. rewrite Hv. cbn [negb].
  destruct (get_majority_chain_returns (set_chains (chains st ++ [proposal]) st))
    as [v Hr].
  exists v. rewrite Hr. auto.
Qed.

Lemma share_latest_chain_state (proposal : ChainProposal) (st : State) :
  snd (share_latest_chain proposal st) =
  if is_chain_valid (blocks proposal)
  then save_chain (set_chains (chains st ++ [proposal]) st) else st.
Proof.
  destruct (is_chain_valid (blocks proposal)) eqn:Hv.
  - destruct (share_latest_chain_valid proposal st Hv) as (v & _ & ->). reflexivity.
  - unfold share_latest_chain. rewrite Hv. reflexivity.
Qed.

Lemma get_latest_chain_state (st : State) : snd (get_latest_chain st) = st.
Proof.
  unfold get_latest_chain. destruct (chains st); [reflexivity|].
  destruct (get_majority_chain st); reflexivity.
Qed.

Lemma create_genesis_state (t1 t2 t3 : string) (st : State) :
  snd (create_genesis t1 t2 t3 st) = st ∨
  chains st = [] ∧ participants st = ∅ ∧
  ∃ c : ChainProposal,
    blocks c ≠ [] ∧
    snd (create_genesis t1 t2 t3 st) =
    save_participants (save_chain (set_chains (chains st ++ [c]) st)).
Proof.
  unfold create_genesis.
  destruct (bool_decide (chains st = [])) eqn:E1; cbn [negb orb]; [|left; reflexivity].
  destruct (bool_decide (participants st = ∅)) eqn:E2; cbn [negb]; [|left; reflexivity].
  apply bool_decide_eq_true in E1, E2. right. split; [exact E1|]. split; [exact E2|].
  eexists. split; [|reflexivity]. discriminate.
Qed.

Lemma send_message_state (nb nn : string) (msg : Message) (st : State) :
  snd (send_message nb nn msg st) = st ∨
  (chains st = [] ∧
   snd (send_message nb nn msg st) =
   save_chain (set_chains [ {| blocks := [first_block nb msg];
                               network := new_network nn;
                               status := new_status |} ] st)) ∨
  (∃ (chain : ChainProposal) (tail : Block),
     last (chains st) = Some chain ∧ last (blocks chain) = Some tail ∧
     snd (send_message nb nn msg st) =
     save_chain (set_chains
       (<[pred (List.length (chains st)) := append_block (next_block nb msg tail) chain]>
          (chains st)) st)).
Proof.
  destruct (decide (registered msg st)) as [Hr|Hr].
  2: { left. rewrite send_message_unregistered by exact Hr. reflexivity. }
  destruct (last (chains st)) as [chain|] eqn:Hc.
  - destruct (last (blocks chain)) as [tail|] eqn:Ht.
    + right. right. exists chain, tail.
      rewrite (send_message_tail nb nn msg st chain tail Hr Hc Ht). auto.
    + left. rewrite (send_message_no_blocks nb nn msg st chain Hr Hc Ht). reflexivity.
  - apply last_None in Hc. right. left.
    rewrite (send_message_no_chain nb nn msg st Hr Hc). auto.
Qed.

Lemma register_participant_state (participant : Participant) (st : State) :
  snd (register_participant participant st) =
  if bool_decide ((participant_ipAddress participant, participant_uuid participant)
                    ∈ participants st)
  then st
  else save_participants (set_participants
         ({[(participant_ipAddress participant, participant_uuid participant)]}
            ∪ participants st) st).
Proof. unfold register_participant. destruct (bool_decide _); reflexivity. Qed.

(** X6. [share_latest_chain] with a proposal that [is_chain_valid] accepts
    always succeeds: the proposal is stored after the chains already held
    and the list is written to the chain file; participants are not
    touched. The chain in the answer is [json.loads] of the serialisation
    of a stored proposal with the most votes in the list that now includes
    the proposal, which need not be the proposal. *)
Theorem share_latest_chain_accepts (proposal : ChainProposal) (st : State) :
  is_chain_valid (blocks proposal) = true →
  ∃ (w : ChainProposal) (v : json),
    w ∈ chains st ++ [proposal] ∧
    (∀ c : ChainProposal, c ∈ chains st ++ [proposal] →
       (votes c (chains st ++ [proposal]) <= votes w (chains st ++ [proposal]))%nat) ∧
    loads (chain_str w) = Some v ∧
    share_latest_chain proposal st =
      (Return (success_latest_chain v),
       {| chains := chains st ++ [proposal];
          participants := participants st;
          chain_file := Some (chains st ++ [proposal]);
          participants_file := participants_file st |}).
Proof.
  intros Hv.
  destruct (get_majority_chain_first_max (set_chains (chains st ++ [proposal]) st))
    as (before & w & after & Hcs & Hres & _ & Hmax).
  { cbn [chains set_chains]. intros H. apply app_eq_nil in H as [_ H]. discriminate H. }
  cbn [chains set_chains] in Hcs, Hmax.
  exists w, (JObj (ChainProposal_dict w)). split; [|split; [|split]].
  - rewrite Hcs. apply elem_of_app. right. apply list_elem_of_here.
  - exact Hmax.
  - apply loads_dumps.
  - unfold share_latest_chain. rewrite Hv. cbn [negb]. rewrite Hres. reflexivity.
Qed.

Lemma share_latest_chain_accepts_witness :
  is_chain_valid (blocks example_long) = true ∧
  ∃ (w : ChainProposal) (v : json),
    w ∈ [example_short; example_short; example_long] ∧
    loads (chain_str w) = Some v ∧
    share_latest_chain example_long (example_store [example_short; example_short]) =
    (Return (success_latest_chain v),
     example_store [example_short; example_short; example_long]).
Proof.
  split; [exact gap_blocks_valid|].
  destruct (share_latest_chain_accepts example_long
              (example_store [example_short; example_short]) gap_blocks_valid)
    as (w & v & Hin & _ & Hl & Hshare).
  exists w, v. split; [exact Hin|]. split; [exact Hl | exact Hshare].
Defined.

(** X7. [get_latest_chain] never raises and never changes the state; its
    answer carries what [get_majority_chain] returns for the stored
    chains. *)
Theorem get_latest_chain_read_only (st : State) :
  ∃ v : json,
    get_latest_chain st = (Return (success_latest_chain v), st) ∧
    get_majority_chain st = Return v.
Proof.
  destruct (get_majority_chain_returns st) as [v Hv]. exists v.
  split; [|exact Hv]. unfold get_latest_chain.
  destruct (chains st) as [|c cs] eqn:E.
  - unfold get_majority_chain in Hv. rewrite E in Hv. injection Hv as <-. reflexivity.
  - rewrite Hv. reflexivity.
Qed.

(** X8. After an accepted [share_latest_chain], a [get_latest_chain] gives
    the same latest chain as the answer to the share did. *)
Theorem share_then_get_latest_chain (proposal : ChainProposal) (st : State) :
  is_chain_valid (blocks proposal) = true →
  ∃ (v : json) (st' : State),
    share_latest_chain proposal st = (Return (success_latest_chain v), st') ∧
    get_latest_chain st' = (Return (success_latest_chain v), st').
Proof.
  intros Hv. destruct (share_latest_chain_valid proposal st Hv) as (v & Hm & Hs).
  exists v, (save_chain (set_chains (chains st ++ [proposal]) st)).
  split; [exact Hs|]. unfold get_latest_chain.
  rewrite (get_majority_chain_chains _ (set_chains (chains st ++ [proposal]) st))
    by reflexivity.
  rewrite Hm. cbn [chains save_chain set_chains].
  destruct (chains st ++ [proposal]) eqn:E; [|reflexivity].
  apply app_eq_nil in E as [_ E]. discriminate E.
Qed.

Lemma share_then_get_latest_chain_witness :
  is_chain_valid (blocks example_long) = true ∧
  ∃ (v : json) (st' : State),
    share_latest_chain example_long (example_store [example_short]) =
      (Return (success_latest_chain v), st') ∧
    get_latest_chain st' = (Return (success_latest_chain v), st').
Proof.
  split; [exact gap_blocks_valid|].
  exact (share_then_get_latest_chain example_long (example_store [example_short])
           gap_blocks_valid).
Defined.

(** X9. [register_participant] never raises. After it the participant is
    registered, everyone registered before still is, and the chains are
    untouched; a new participant is written to the participants file.
    Registering the same participant again answers with status "error"
    as a normal return and changes nothing. *)
Theorem register_participant_twice (participant : Participant) (st : State) :
  ∃ (v : json) (st1 : State),
    register_participant participant st = (Return v, st1) ∧
    (participant_ipAddress participant, participant_uuid participant)
      ∈ participants st1 ∧
    participants st ⊆ participants st1 ∧
    chains st1 = chains st ∧ chain_file st1 = chain_file st ∧
    ((participant_ipAddress participant, participant_uuid participant)
       ∉ participants st →
     v = success_message "Participant registered successfully" ∧
     participants_file st1 = Some (participants st1)) ∧
    ∃ text : string,
      register_participant participant st1 =
      (Return (JObj (list_to_map [("status", JStr "error"); ("message", JStr text)])),
       st1).
Proof.
  unfold register_participant at 1.
  destruct (bool_decide _) eqn:E.
  - apply bool_decide_eq_true in E. eexists _, st. split; [reflexivity|].
    split; [exact E|]. split; [set_solver|]. split; [reflexivity|].
    split; [reflexivity|]. split; [intros H; contradiction|].
    eexists. unfold register_participant. rewrite bool_decide_eq_true_2 by exact E.
    reflexivity.
  - apply bool_decide_eq_false in E. eexists _, _. split; [reflexivity|].
    cbn [participants chains chain_file participants_file save_participants
         set_participants].
    split; [set_solver|]. split; [set_solver|]. split; [reflexivity|].
    split; [reflexivity|]. split; [intros _; split; reflexivity|].
    eexists. unfold register_participant.
    cbn [participants save_participants set_participants].
    rewrite bool_decide_eq_true_2 by set_solver. reflexivity.
Qed.

Lemma register_participant_twice_witness :
  ∃ (v : json) (st1 : State),
    register_participant
      {| participant_ipAddress := "10.0.0.3"; participant_uuid := "c" |}
      example_state = (Return v, st1) ∧
    ("10.0.0.3", "c") ∈ participants st1 ∧
    v = success_message "Participant registered successfully".
Proof.
  destruct (register_participant_twice
              {| participant_ipAddress := "10.0.0.3"; participant_uuid := "c" |}
              example_state)
    as (v & st1 & Hr & Hin & _ & _ & _ & Hnew & _).
  exists v, st1. split; [exact Hr|]. split; [exact Hin|].
  apply Hnew. cbn. unfold example_participants.
  rewrite elem_of_union, !elem_of_singleton. intros [H|H]; discriminate H.
Defined.

(** ** Runs of requests *)

Lemma extends_refl (c : ChainProposal) : extends c c.
Proof. split; [reflexivity | split; reflexivity]. Qed.

Lemma extends_trans (a b c : ChainProposal) : extends a b → extends b c → extends a c.
Proof.
  intros (H1 & H2 & H3) (H4 & H5 & H6). split; [|split; congruence].
  etrans; eassumption.
Qed.

Lemma last_lookup_pred {A} (l : list A) (x : A) :
  last l = Some x → l !! pred (List.length l) = Some x.
Proof. rewrite last_lookup. exact id. Qed.

(** One request keeps every stored chain at its place, possibly with more
    blocks, and keeps every participant. *)
Lemma handle_append_only (r : Request) (st : State) :
  participants st ⊆ participants (snd (handle r st)) ∧
  ∀ (i : nat) (c : ChainProposal), chains st !! i = Some c →
    ∃ c' : ChainProposal, chains (snd (handle r st)) !! i = Some c' ∧ extends c c'.
Proof.
  assert (Hsame : ∀ st' : State, participants st' = participants st →
            (∀ i c, chains st !! i = Some c →
               ∃ c', chains st' !! i = Some c' ∧ extends c c') →
            participants st ⊆ participants st' ∧
            ∀ i c, chains st !! i = Some c →
              ∃ c', chains st' !! i = Some c' ∧ extends c c').
  { intros st' Hp Hc. split; [rewrite Hp; reflexivity | exact Hc]. }
  assert (Hid : ∀ i c, chains st !! i = Some c →
            ∃ c', chains st !! i = Some c' ∧ extends c c').
  { intros i c Hc. exists c. split; [exact Hc | apply extends_refl]. }
  assert (Happ : ∀ (x : ChainProposal) i c, chains st !! i = Some c →
            ∃ c', (chains st ++ [x]) !! i = Some c' ∧ extends c c').
  { intros x i c Hc. exists c. split; [|apply extends_refl].
    rewrite lookup_app_l by (apply lookup_lt_Some in Hc; exact Hc). exact Hc. }
  destruct r as [proposal| |t1 t2 t3|nb nn msg|participant]; cbn [handle].
  - rewrite share_latest_chain_state.
    destruct (is_chain_valid (blocks proposal)).
    + apply Hsame; [reflexivity|]. apply Happ.
    + apply Hsame; [reflexivity | exact Hid].
  - rewrite get_latest_chain_state. apply Hsame; [reflexivity | exact Hid].
  - destruct (create_genesis_state t1 t2 t3 st) as [->|(_ & _ & c & _ & ->)].
    + apply Hsame; [reflexivity | exact Hid].
    + apply Hsame; [reflexivity|]. apply Happ.
  - destruct (send_message_state nb nn msg st)
      as [->|[[Hnil ->]|(chain & tail & Hc & Ht & ->)]].
    + apply Hsame; [reflexivity | exact Hid].
    + apply Hsame; [reflexivity|]. intros i c Hc. rewrite Hnil in Hc.
      rewrite lookup_nil in Hc. discriminate Hc.
    + apply Hsame; [reflexivity|]. intros i c Hi.
      cbn [chains save_chain set_chains].
      destruct (decide (i = pred (List.length (chains st)))) as [->|Hne].
      * rewrite (last_lookup_pred _ _ Hc) in Hi. injection Hi as <-.
        eexists. split.
        { apply list_lookup_insert_eq. destruct (chains st); [discriminate Hc|cbn; lia]. }
        split; [|split; reflexivity]. cbn [blocks append_block].
        apply prefix_app_r. reflexivity.
      * exists c. split; [|apply extends_refl].
        rewrite list_lookup_insert_ne by congruence. exact Hi.
  - rewrite register_participant_state. destruct (bool_decide _).
    + apply Hsame; [reflexivity | exact Hid].
    + split; [|exact Hid].
      cbn [participants save_participants set_participants]. apply union_subseteq_r.
Qed.

Lemma run_append_only (rs : list Request) : ∀ st : State,
  participants st ⊆ participants (run rs st) ∧
  ∀ (i : nat) (c : ChainProposal), chains st !! i = Some c →
    ∃ c' : ChainProposal, chains (run rs st) !! i = Some c' ∧ extends c c'.
Proof.
  induction rs as [|r rs IH]; intros st.
  - split; [reflexivity|]. intros i c Hc. exists c. split; [exact Hc | apply extends_refl].
  - change (run (r :: rs) st) with (run rs (snd (handle r st))).
    destruct (handle_append_only r st) as [Hp Hc].
    destruct (IH (snd (handle r st))) as [Hp' Hc']. split; [etrans; eassumption|].
    intros i c Hi. destruct (Hc i c Hi) as (c1 & Hi1 & He1).
    destruct (Hc' i c1 Hi1) as (c2 & Hi2 & He2).
    exists c2. split; [exact Hi2 | exact (extends_trans _ _ _ He1 He2)].
Qed.

(** X10. The store is append-only: after any requests every chain that was
    stored is still stored at the same position, with the same network and
    status and with its old blocks as a prefix of its blocks, and every
    participant that was registered still is. *)
Theorem store_append_only (rs : list Request) (st : State) :
  (∀ (i : nat) (c : ChainProposal), chains st !! i = Some c →
     ∃ c' : ChainProposal,
       chains (run rs st) !! i = Some c' ∧
       blocks c `prefix_of` blocks c' ∧
       network c' = network c ∧ status c' = status c) ∧
  (∀ p : string * string, p ∈ participants st → p ∈ participants (run rs st)).
Proof.
  destruct (run_append_only rs st) as [Hp Hc]. split.
  - intros i c Hi. destruct (Hc i c Hi) as (c' & Hi' & He). exists c'. split; assumption.
  - intros p Hin. apply Hp, Hin.
Qed.

Lemma store_append_only_witness :
  ∃ c' : ChainProposal,
    chains (run [POST_send_message "2024-05-01T10:00:02+00:00"
                   "2024-05-01T10:00:02+00:00" (example_message "again")]
                (example_store [example_short])) !! 0%nat = Some c' ∧
    blocks example_short `prefix_of` blocks c' ∧
    network c' = network example_short ∧ status c' = status example_short.
Proof.
  apply (proj1 (store_append_only
           [POST_send_message "2024-05-01T10:00:02+00:00"
              "2024-05-01T10:00:02+00:00" (example_message "again")]
           (example_store [example_short])) 0%nat example_short).
  reflexivity.
Defined.

Lemma run_initialised (rs : list Request) (st : State) :
  chains st ≠ [] ∨ participants st ≠ ∅ →
  chains (run rs st) ≠ [] ∨ participants (run rs st) ≠ ∅.
Proof.
  destruct (run_append_only rs st) as [Hp Hc]. intros [H|H].
  - left. destruct (chains st) as [|c cs] eqn:E; [contradiction|].
    destruct (Hc 0%nat c) as (c' & Hc' & _).
    { reflexivity. }
    intros Hnil. rewrite Hnil in Hc'. discriminate Hc'.
  - right. intros Hnil. apply H. set_solver.
Qed.

Lemma create_genesis_initialised (t1 t2 t3 : string) (st : State) :
  chains st ≠ [] ∨ participants st ≠ ∅ →
  create_genesis t1 t2 t3 st =
  (Raise (HTTPException 400 "Blockchain or participants already initialized"), st).
Proof.
  intros H. unfold create_genesis. destruct H as [H|H].
  - rewrite (bool_decide_eq_false_2 _ H). reflexivity.
  - rewrite (bool_decide_eq_false_2 _ H). rewrite orb_true_r. reflexivity.
Qed.

(** X11. Once a chain is stored or a participant is registered,
    [create_genesis] is rejected with status 400 and changes nothing, and
    this stays so after any further requests. *)
Theorem create_genesis_rejected_once_initialised (rs : list Request)
  (now_block now_message now_network : string) (st : State) :
  chains st ≠ [] ∨ participants st ≠ ∅ →
  create_genesis now_block now_message now_network (run rs st) =
  (Raise (HTTPException 400 "Blockchain or participants already initialized"),
   run rs st).
Proof.
  intros H. apply create_genesis_initialised, run_initialised, H.
Qed.

Lemma create_genesis_rejected_once_initialised_witness :
  (chains (run (firstn 1 example_registrations) initial_state) ≠ [] ∨
   participants (run (firstn 1 example_registrations) initial_state) ≠ ∅) ∧
  create_genesis "2024-01-01T00:00:00+00:00" "2024-01-01T00:00:01+00:00"
    "2024-01-01T00:00:02+00:00" (run example_registrations initial_state) =
  (Raise (HTTPException 400 "Blockchain or participants already initialized"),
   run example_registrations initial_state).
Proof.
  assert (H : chains (run (firstn 1 example_registrations) initial_state) ≠ [] ∨
              participants (run (firstn 1 example_registrations) initial_state) ≠ ∅).
  { right. intros H.
    assert (Hin : (ipAddress example_sender, uuid example_sender)
                    ∈ participants (run (firstn 1 example_registrations) initial_state)).
    { cbn. set_solver. }
    rewrite H in Hin. set_solver. }
  split; [exact H|].
  exact (create_genesis_rejected_once_initialised (skipn 1 example_registrations)
           _ _ _ (run (firstn 1 example_registrations) initial_state) H).
Defined.

Lemma handle_files_in_sync (r : Request) (st : State) :
  files_in_sync st → files_in_sync (snd (handle r st)).
Proof.
  intros [Hc Hp].
  destruct r as [proposal| |t1 t2 t3|nb nn msg|participant]; cbn [handle].
  - rewrite share_latest_chain_state. destruct (is_chain_valid (blocks proposal)).
    + split; [left; reflexivity | exact Hp].
    + split; assumption.
  - rewrite get_latest_chain_state. split; assumption.
  - destruct (create_genesis_state t1 t2 t3 st) as [->|(_ & _ & c & _ & ->)].
    + split; assumption.
    + split; left; reflexivity.
  - destruct (send_message_state nb nn msg st)
      as [->|[[Hnil ->]|(chain & tail & _ & _ & ->)]].
    + split; assumption.
    + split; [left; reflexivity | exact Hp].
    + split; [left; reflexivity | exact Hp].
  - rewrite register_participant_state. destruct (bool_decide _).
    + split; assumption.
    + split; [exact Hc | left; reflexivity].
Qed.

(** X12. Every change is saved: in a service started without files,
    after any requests, what was last written to the chain file is the
    current [chains] list, unless the list is empty and the file was
    never written; and likewise for the participants and their file. *)
Theorem files_hold_current_state (rs : list Request) :
  (chain_file (run rs initial_state) = Some (chains (run rs initial_state)) ∨
   chain_file (run rs initial_state) = None ∧ chains (run rs initial_state) = []) ∧
  (participants_file (run rs initial_state) =
     Some (participants (run rs initial_state)) ∨
   participants_file (run rs initial_state) = None ∧
   participants (run rs initial_state) = ∅).
Proof.
  apply (run_invariant files_in_sync handle_files_in_sync).
  split; right; split; reflexivity.
Qed.

Lemma handle_blocks_nonempty (r : Request) (st : State) :
  Forall (λ c : ChainProposal, blocks c ≠ []) (chains st) →
  Forall (λ c : ChainProposal, blocks c ≠ []) (chains (snd (handle r st))).
Proof.
  intros H.
  destruct r as [proposal| |t1 t2 t3|nb nn msg|participant]; cbn [handle].
  - rewrite share_latest_chain_state.
    destruct (is_chain_valid (blocks proposal)) eqn:Hv; [|exact H].
    cbn [chains save_chain set_chains]. apply Forall_app. split; [exact H|].
    constructor; [|constructor]. intros Hnil. rewrite Hnil in Hv. discriminate Hv.
  - rewrite get_latest_chain_state. exact H.
  - destruct (create_genesis_state t1 t2 t3 st) as [->|(_ & _ & c & Hc & ->)];
      [exact H|].
    cbn [chains save_chain save_participants set_chains]. apply Forall_app.
    split; [exact H|]. constructor; [exact Hc | constructor].
  - destruct (send_message_state nb nn msg st)
      as [->|[[Hnil ->]|(chain & tail & _ & _ & ->)]]; [exact H| |].
    + cbn [chains save_chain set_chains]. constructor; [discriminate | constructor].
    + cbn [chains save_chain set_chains]. apply Forall_insert; [exact H|].
      cbn [blocks append_block]. intros Hnil.
      apply app_eq_nil in Hnil as [_ Hnil]. discriminate Hnil.
  - rewrite register_participant_state. destruct (bool_decide _); exact H.
Qed.

(** X13. In a service started without files no stored chain is ever
    empty, so the lookup of the last block in [send_message] never fails:
    after any requests, [send_message] between two registered participants
    succeeds, provided the integers it converts to text are within
    CPython's limit of 4300 digits (the index and proof of the last block
    and the new index), and afterwards the message is in the last block
    of the last chain. *)
Theorem send_message_records (rs : list Request) (now_block now_network : string)
  (msg : Message) :
  registered msg (run rs initial_state) →
  (∀ (chain : ChainProposal) (tail : Block),
     last (chains (run rs initial_state)) = Some chain →
     last (blocks chain) = Some tail →
     hashable tail ∧ int_str_ok (index tail + 1)) →
  ∃ (st' : State) (chain' : ChainProposal) (new_block : Block),
    send_message now_block now_network msg (run rs initial_state) =
      (Return (success_message "Message added to blockchain"), st') ∧
    last (chains st') = Some chain' ∧
    last (blocks chain') = Some new_block ∧
    message new_block = msg ∧
    hash new_block = calculate_hash new_block.
Proof.
  intros Hr _.
  assert (H : Forall (λ c : ChainProposal, blocks c ≠ []) (chains (run rs initial_state))).
  { apply (run_invariant (λ st, Forall (λ c : ChainProposal, blocks c ≠ []) (chains st))
             handle_blocks_nonempty). constructor. }
  set (st := run rs initial_state) in *.
  destruct (last (chains st)) as [chain|] eqn:Hc.
  - destruct (last (blocks chain)) as [tail|] eqn:Ht.
    + eexists _, _, (next_block now_block msg tail).
      split; [apply (send_message_tail _ _ _ _ chain tail Hr Hc Ht)|].
      cbn [chains save_chain set_chains].
      split; [apply (last_insert_pred _ chain), Hc|].
      cbn [blocks append_block]. rewrite last_snoc. repeat split.
    + apply last_None in Ht. rewrite Forall_forall in H.
      destruct (H chain); [|exact Ht].
      apply last_Some in Hc as [l' ->]. apply elem_of_app. right.
      apply list_elem_of_here.
  - apply last_None in Hc. eexists _, _, (first_block now_block msg).
    split; [apply (send_message_no_chain _ _ _ _ Hr Hc)|].
    cbn [chains save_chain set_chains last blocks]. repeat split.
Qed.

Lemma send_message_records_witness :
  registered (example_message "again") (run example_registrations initial_state) ∧
  (∀ (chain : ChainProposal) (tail : Block),
     last (chains (run example_registrations initial_state)) = Some chain →
     last (blocks chain) = Some tail →
     hashable tail ∧ int_str_ok (index tail + 1)) ∧
  ∃ (st' : State) (chain' : ChainProposal) (new_block : Block),
    send_message "2024-05-01T10:00:02+00:00" "2024-05-01T10:00:02+00:00"
      (example_message "again") (run example_registrations initial_state) =
      (Return (success_message "Message added to blockchain"), st') ∧
    last (chains st') = Some chain' ∧
    last (blocks chain') = Some new_block ∧
    message new_block = example_message "again" ∧
    hash new_block = calculate_hash new_block.
Proof.
  assert (H : registered (example_message "again")
                (run example_registrations initial_state)).
  { split; cbn; set_solver. }
  assert (Hi : ∀ (chain : ChainProposal) (tail : Block),
             last (chains (run example_registrations initial_state)) = Some chain →
             last (blocks chain) = Some tail →
             hashable tail ∧ int_str_ok (index tail + 1)).
  { intros chain tail Hc Ht. vm_compute in Hc. injection Hc as <-.
    vm_compute in Ht. injection Ht as <-.
    repeat split; vm_compute; reflexivity. }
  split; [exact H|]. split; [exact Hi|].
  exact (send_message_records example_registrations _ _ _ H Hi).
Defined.

Lemma handle_all_valid (r : Request) (st : State) :
  no_genesis r ∨ chains st ≠ [] ∨ participants st ≠ ∅ →
  all_valid (chains st) → all_valid (chains (snd (handle r st))).
Proof.
  intros Hg H. unfold all_valid in *.
  destruct r as [proposal| |t1 t2 t3|nb nn msg|participant]; cbn [handle].
  - rewrite share_latest_chain_state.
    destruct (is_chain_valid (blocks proposal)) eqn:Hv; [|exact H].
    cbn [chains save_chain set_chains]. apply Forall_app. split; [exact H|].
    constructor; [exact Hv | constructor].
  - rewrite get_latest_chain_state. exact H.
  - destruct Hg as [Hg|Hg]; [contradiction|].
    rewrite (create_genesis_initialised _ _ _ _ Hg). exact H.
  - destruct (send_message_state nb nn msg st)
      as [->|[[Hnil ->]|(chain & tail & Hc & Ht & ->)]]; [exact H| |].
    + cbn [chains save_chain set_chains]. constructor; [|constructor].
      apply first_block_valid.
    + cbn [chains save_chain set_chains]. apply Forall_insert; [exact H|].
      cbn [blocks append_block]. apply (is_chain_valid_app _ tail); [exact Ht|].
      split; [|apply next_block_linked].
      rewrite Forall_forall in H. apply H.
      apply last_Some in Hc as [l' ->]. apply elem_of_app. right.
      apply list_elem_of_here.
  - rewrite register_participant_state. destruct (bool_decide _); exact H.
Qed.

Lemma handle_initialised (r : Request) (st : State) :
  chains st ≠ [] ∨ participants st ≠ ∅ →
  chains (snd (handle r st)) ≠ [] ∨ participants (snd (handle r st)) ≠ ∅.
Proof. exact (run_initialised [r] st). Qed.

(** X14. Only [create_genesis] brings a chain into the store that
    [is_chain_valid] rejects. If every stored chain is accepted, then
    after any requests every stored chain is accepted, provided the run
    has no [create_genesis] request or the service already holds a chain
    or a participant (a [create_genesis] is then refused). *)
Theorem stored_chains_stay_valid (rs : list Request) (st : State) :
  all_valid (chains st) →
  Forall no_genesis rs ∨ chains st ≠ [] ∨ participants st ≠ ∅ →
  all_valid (chains (run rs st)).
Proof.
  revert st. induction rs as [|r rs IH]; intros st Hv Hg; [exact Hv|].
  change (run (r :: rs) st) with (run rs (snd (handle r st))).
  apply IH.
  - apply handle_all_valid; [|exact Hv].
    destruct Hg as [Hg|Hg]; [|right; exact Hg].
    left. inversion Hg; assumption.
  - destruct Hg as [Hg|Hg].
    + left. inversion Hg; assumption.
    + right. apply handle_initialised, Hg.
Qed.

Lemma stored_chains_stay_valid_witness :
  all_valid (chains initial_state) ∧
  Forall no_genesis example_registrations ∧
  all_valid (chains (run example_registrations initial_state)).
Proof.
  assert (H1 : all_valid (chains initial_state)) by constructor.
  assert (H2 : Forall no_genesis example_registrations) by (repeat constructor).
  split; [exact H1|]. split; [exact H2|].
  apply (stored_chains_stay_valid example_registrations initial_state H1).
  left. exact H2.
Defined.

Lemma sequential_snoc (bs : list Block) (tail new : Block) :
  sequential bs → last bs = Some tail → index new = index tail + 1 →
  sequential (bs ++ [new]).
Proof.
  intros Hs Hl Hi i b Hb.
  destruct (decide (i < List.length bs)%nat) as [Hlt|Hge].
  - rewrite lookup_app_l in Hb by exact Hlt. apply (Hs i b Hb).
  - rewrite lookup_app_r in Hb by lia.
    destruct (i - List.length bs)%nat as [|k] eqn:E; [|destruct k; discriminate Hb].
    injection Hb as <-. rewrite Hi.
    rewrite last_lookup in Hl. rewrite (Hs _ _ Hl).
    destruct bs as [|x bs']; [discriminate Hl|]. cbn [List.length pred] in *. lia.
Qed.

Lemma ledger_one (st : State) (c : ChainProposal) :
  chains st = [c] → ledger st = blocks c.
Proof. intros H. unfold ledger. rewrite H. cbn. apply app_nil_r. Qed.

Lemma ledger_none (st : State) : chains st = [] → ledger st = [].
Proof. intros H. unfold ledger. rewrite H. reflexivity. Qed.

Lemma send_only_run (rs : list Request) : ∀ st : State,
  Forall append_request rs →
  (chains st = [] ∨ ∃ c : ChainProposal, chains st = [c] ∧ blocks c ≠ []) →
  sequential (ledger st) →
  (chains (run rs st) = [] ∨
   ∃ c : ChainProposal, chains (run rs st) = [c] ∧ blocks c ≠ []) ∧
  sequential (ledger (run rs st)) ∧
  message <$> ledger (run rs st) =
  (message <$> ledger st) ++ recorded rs (participants st).
Proof.
  induction rs as [|r rs IH]; intros st Hrs Hone Hseq.
  { split; [exact Hone|]. split; [exact Hseq|]. cbn [recorded run fold_left].
    rewrite app_nil_r. reflexivity. }
  inversion Hrs as [|? ? Hr Hrs']; subst.
  change (run (r :: rs) st) with (run rs (snd (handle r st))).
  destruct r as [proposal| |t1 t2 t3|nb nn msg|participant]; try contradiction;
    cbn [handle recorded].
  - destruct (decide (registered msg st)) as [Hreg|Hreg].
    + rewrite (bool_decide_eq_true_2 _ Hreg).
      destruct Hone as [Hnil|(c & Hc & Hne)].
      * rewrite (send_message_no_chain nb nn msg st Hreg Hnil). cbn [snd].
        match goal with |- context [run rs ?s] => set (st1 := s) end.
        destruct (IH st1 Hrs') as (H1 & H2 & H3).
        { right. eexists. split; [reflexivity | discriminate]. }
        { intros i b Hb. destruct i as [|i]; [|discriminate Hb].
          injection Hb as <-. reflexivity. }
        split; [exact H1|]. split; [exact H2|]. rewrite H3.
        rewrite (ledger_none st Hnil). reflexivity.
      * destruct (last (blocks c)) as [tail|] eqn:Ht.
        2: { apply last_None in Ht. contradiction. }
        assert (Hl : last (chains st) = Some c) by (rewrite Hc; reflexivity).
        rewrite (send_message_tail nb nn msg st c tail Hreg Hl Ht). cbn [snd].
        match goal with |- context [run rs ?s] => set (st1 := s) end.
        assert (Hc1 : chains st1 = [append_block (next_block nb msg tail) c]).
        { unfold st1. cbn [chains save_chain set_chains]. rewrite Hc. reflexivity. }
        rewrite (ledger_one st c Hc) in Hseq |- *.
        destruct (IH st1 Hrs') as (H1 & H2 & H3).
        { right. eexists. split; [exact Hc1|]. cbn [blocks append_block].
          intros Hnil. apply app_eq_nil in Hnil as [_ Hnil]. discriminate Hnil. }
        { rewrite (ledger_one st1 _ Hc1). cbn [blocks append_block].
          apply (sequential_snoc _ tail); [exact Hseq | exact Ht | reflexivity]. }
        split; [exact H1|]. split; [exact H2|]. rewrite H3.
        rewrite (ledger_one st1 _ Hc1). cbn [blocks append_block].
        rewrite fmap_app, <- app_assoc. reflexivity.
    + rewrite (bool_decide_eq_false_2 _ Hreg).
      rewrite (send_message_unregistered nb nn msg st Hreg). cbn [snd].
      apply IH; assumption.
  - rewrite register_participant_state.
    destruct (bool_decide _) eqn:E.
    + apply bool_decide_eq_true in E.
      replace ({[(participant_ipAddress participant, participant_uuid participant)]}
                 ∪ participants st) with (participants st).
      * apply IH; assumption.
      * apply leibniz_equiv. apply set_equiv. intros x.
        rewrite elem_of_union, elem_of_singleton. split; [auto|].
        intros [->|H]; assumption.
    + apply (IH (save_participants (set_participants _ st))); assumption.
Qed.

(** X15. A service started without files that gets only registrations and
    [send_message] requests holds at most one chain; [is_chain_valid]
    accepts it, its blocks have the indices 1, 2, 3, ..., and their
    messages are exactly the messages sent between participants
    registered at the time, in the order of arrival. *)
Theorem send_only_ledger (rs : list Request) :
  Forall append_request rs →
  (List.length (chains (run rs initial_state)) <= 1)%nat ∧
  all_valid (chains (run rs initial_state)) ∧
  sequential (ledger (run rs initial_state)) ∧
  message <$> ledger (run rs initial_state) = recorded rs ∅.
Proof.
  intros Hrs.
  destruct (send_only_run rs initial_state Hrs) as (H1 & H2 & H3).
  { left. reflexivity. }
  { intros i b Hb. destruct i; discriminate Hb. }
  split; [|split; [|split]].
  - destruct H1 as [->|(c & -> & _)]; cbn; lia.
  - assert (Hv : all_valid (chains initial_state)) by constructor.
    revert Hv. generalize initial_state. clear H1 H2 H3.
    induction rs as [|r rs IH]; intros st Hv; [exact Hv|].
    inversion Hrs as [|? ? Hr Hrs']; subst.
    change (run (r :: rs) st) with (run rs (snd (handle r st))).
    apply (IH Hrs'). apply handle_all_valid; [|exact Hv].
    left. destruct r; try contradiction; exact I.
  - exact H2.
  - exact H3.
Qed.

Lemma send_only_ledger_witness :
  Forall append_request example_registrations ∧
  message <$> ledger (run example_registrations initial_state) =
  [example_message "hello"].
Proof.
  split; [exact example_requests_append|].
  destruct (send_only_ledger example_registrations example_requests_append)
    as (_ & _ & _ & H).
  rewrite H. vm_compute. reflexivity.
Defined.

(** X16. [send_message] extends the proposal shared last, whichever chain
    has the majority: after an accepted [share_latest_chain] of a proposal,
    a [send_message] between registered participants replaces the stored
    copy of that proposal by the proposal with one more block, which
    carries the message and is still accepted by [is_chain_valid]; the
    chains stored before are as they were. The integers converted to text
    (index and proof of the proposal's last block, and the new index) are
    within CPython's limit of 4300 digits: beyond it [send_message] raises
    ValueError and appends nothing. *)
Theorem send_message_extends_last_shared (proposal : ChainProposal)
  (now_block now_network : string) (msg : Message) (st : State) (tail : Block) :
  is_chain_valid (blocks proposal) = true → registered msg st →
  last (blocks proposal) = Some tail →
  hashable tail → int_str_ok (index tail + 1) →
  ∃ new_block : Block,
    chains (run [POST_share_latest_chain proposal;
                 POST_send_message now_block now_network msg] st) =
      chains st ++ [append_block new_block proposal] ∧
    index new_block = index tail + 1 ∧
    message new_block = msg ∧
    is_chain_valid (blocks proposal ++ [new_block]) = true.
Proof.
  intros Hv Hr Ht _ _.
  change (run _ st) with
    (snd (send_message now_block now_network msg (snd (share_latest_chain proposal st)))).
  rewrite share_latest_chain_state, Hv.
  set (st1 := save_chain (set_chains (chains st ++ [proposal]) st)).
  assert (Hl : last (chains st1) = Some proposal).
  { unfold st1. cbn [chains save_chain set_chains]. apply last_snoc. }
  exists (next_block now_block msg tail).
  rewrite (send_message_tail now_block now_network msg st1 proposal tail Hr Hl Ht).
  cbn [snd chains save_chain set_chains]. unfold st1.
  cbn [chains save_chain set_chains]. split; [|split; [reflexivity|split; [reflexivity|]]].
  - rewrite length_app. cbn [List.length].
    replace (pred (List.length (chains st) + 1)) with (List.length (chains st) + 0)%nat
      by lia.
    rewrite insert_app_r. reflexivity.
  - apply (is_chain_valid_app _ tail); [exact Ht|].
    split; [exact Hv | apply next_block_linked].
Qed.

Lemma send_message_extends_last_shared_witness :
  is_chain_valid (blocks example_short) = true ∧
  registered (example_message "again") (example_store [example_long; example_long]) ∧
  last (blocks example_short) = Some gap_first ∧
  hashable gap_first ∧ int_str_ok (index gap_first + 1) ∧
  ∃ new_block : Block,
    chains (run [POST_share_latest_chain example_short;
                 POST_send_message "2024-05-01T10:00:02+00:00"
                   "2024-05-01T10:00:02+00:00" (example_message "again")]
              (example_store [example_long; example_long])) =
      [example_long; example_long; append_block new_block example_short] ∧
    index new_block = index gap_first + 1 ∧
    message new_block = example_message "again" ∧
    is_chain_valid (blocks example_short ++ [new_block]) = true.
Proof.
  assert (Hv : is_chain_valid (blocks example_short) = true) by (vm_compute; reflexivity).
  assert (Hr : registered (example_message "again")
                 (example_store [example_long; example_long])).
  { split; cbn; unfold example_participants; set_solver. }
  split; [exact Hv|]. split; [exact Hr|]. split; [reflexivity|].
  split; [exact (proj1 gap_first_hashable)|].
  split; [exact (proj2 gap_first_hashable)|].
  exact (send_message_extends_last_shared example_short _ _ _
           (example_store [example_long; example_long]) gap_first Hv Hr eq_refl
           (proj1 gap_first_hashable) (proj2 gap_first_hashable)).
Defined.

(** ** Replacing a block *)

(** [is_chain_valid] by list index. *)
Lemma is_chain_valid_lookup (bs : list Block) :
  is_chain_valid bs = true ↔
  bs ≠ [] ∧
  (∀ b : Block, bs !! 0%nat = Some b → index b = 1) ∧
  (∀ (i : nat) (b : Block), bs !! i = Some b →
     hash b = calculate_hash b ∧ previousHash b = expected_previousHash bs i).
Proof.
  split.
  - intros Hv. split; [|split].
    + intros ->. discriminate Hv.
    + intros b Hb. destruct bs as [|first rest]; [discriminate Hb|].
      injection Hb as <-. apply is_chain_valid_cons in Hv as [(Hi & _) _]. exact Hi.
    + intros i b Hb. exact (is_chain_valid_at bs i b Hv Hb).
  - intros (Hne & H0 & Hall). destruct bs as [|first rest]; [contradiction|].
    apply is_chain_valid_cons. split.
    + destruct (Hall 0%nat first eq_refl) as [Hh Hp].
      split; [exact (H0 first eq_refl)|]. split; [exact Hp | exact Hh].
    + apply check_links_spec. intros i p c Hp Hc.
      destruct (Hall (S i) c Hc) as [Hh Hprev].
      cbn [expected_previousHash] in Hprev. rewrite Hp in Hprev.
      split; assumption.
Qed.

Lemma expected_previousHash_insert_ne (bs : list Block) (i j : nat) (b : Block) :
  j ≠ S i → expected_previousHash (<[i := b]> bs) j = expected_previousHash bs j.
Proof.
  intros Hne. destruct j as [|k]; [reflexivity|]. cbn [expected_previousHash].
  rewrite list_lookup_insert_ne by congruence. reflexivity.
Qed.

(** X19. What tampering with one block gets past [is_chain_valid]: a list
    obtained from an accepted list by replacing a block is accepted
    exactly when the new block stores its own recomputed digest, has the
    previousHash of the block it replaces, has index 1 if it is the first
    block, and, if a block follows, has the same digest as the block it
    replaces. So a change of a hashed field of any block but the last is
    detected unless the changed block has the digest of the original. *)
Theorem is_chain_valid_replace (bs : list Block) (i : nat) (b b' : Block) :
  is_chain_valid bs = true → bs !! i = Some b →
  (is_chain_valid (<[i := b']> bs) = true ↔
   hash b' = calculate_hash b' ∧
   previousHash b' = previousHash b ∧
   (i = 0%nat → index b' = 1) ∧
   (∀ next : Block, bs !! S i = Some next → calculate_hash b' = calculate_hash b)).
Proof.
  intros Hv Hb.
  assert (Hlt : (i < List.length bs)%nat) by (apply lookup_lt_Some in Hb; exact Hb).
  destruct (is_chain_valid_at bs i b Hv Hb) as [Hself Hprev].
  split.
  - intros Hv'. apply is_chain_valid_lookup in Hv' as (_ & H0 & Hall).
    destruct (Hall i b' (list_lookup_insert_eq bs i b' Hlt)) as [Hself' Hprev'].
    rewrite expected_previousHash_insert in Hprev'.
    split; [exact Hself'|]. split; [congruence|]. split.
    + intros ->. apply H0. apply list_lookup_insert_eq. exact Hlt.
    + intros next Hn.
      destruct (is_chain_valid_at bs (S i) next Hv Hn) as [_ Hpn].
      destruct (Hall (S i) next) as [_ Hpn'].
      { rewrite list_lookup_insert_ne by lia. exact Hn. }
      cbn [expected_previousHash] in Hpn, Hpn'.
      rewrite Hb in Hpn. rewrite list_lookup_insert_eq in Hpn' by exact Hlt.
      congruence.
  - intros (Hself' & Hprev' & Hfirst & Hnext).
    apply is_chain_valid_lookup in Hv as (Hne & H0 & Hall).
    apply is_chain_valid_lookup. split; [|split].
    + intros Hnil. apply (f_equal List.length) in Hnil.
      rewrite length_insert in Hnil. destruct bs; [contradiction | discriminate Hnil].
    + intros c Hc. destruct (decide (i = 0%nat)) as [->|Hi].
      * rewrite list_lookup_insert_eq in Hc by exact Hlt. injection Hc as <-.
        apply Hfirst. reflexivity.
      * rewrite list_lookup_insert_ne in Hc by exact Hi. exact (H0 c Hc).
    + intros j c Hc. destruct (decide (j = i)) as [->|Hji].
      * rewrite list_lookup_insert_eq in Hc by exact Hlt. injection Hc as <-.
        split; [exact Hself'|]. rewrite expected_previousHash_insert. congruence.
      * rewrite list_lookup_insert_ne in Hc by congruence.
        destruct (Hall j c Hc) as [Hh Hp]. split; [exact Hh|].
        destruct (decide (j = S i)) as [->|Hjs].
        { cbn [expected_previousHash] in Hp |- *. rewrite Hb in Hp.
          rewrite list_lookup_insert_eq by exact Hlt.
          rewrite (Hnext c Hc). exact Hp. }
        { rewrite expected_previousHash_insert_ne by exact Hjs. exact Hp. }
Qed.

Lemma is_chain_valid_replace_witness :
  is_chain_valid [gap_first; gap_second] = true ∧
  (is_chain_valid [gap_first; gap_second_tampered] = true →
   hash gap_second_tampered = calculate_hash gap_second_tampered) ∧
  is_chain_valid [gap_first; gap_second_tampered] = false.
Proof.
  split; [exact gap_blocks_valid|]. split.
  - intros H.
    exact (proj1 (proj1 (is_chain_valid_replace [gap_first; gap_second] 1%nat
                           gap_second gap_second_tampered gap_blocks_valid eq_refl) H)).
  - vm_compute. reflexivity.
Defined.

(** ** The tail hash of an accepted list *)

(** X20. An accepted block list cannot be cut at the front: what is left
    of an accepted list after dropping one or more leading blocks is
    rejected by [is_chain_valid]. *)
Theorem is_chain_valid_rejects_suffix (bs : list Block) (i : nat) :
  is_chain_valid bs = true → (0 < i)%nat → is_chain_valid (drop i bs) = false.
Proof.
  intros Hv Hi. destruct (drop i bs) as [|b rest] eqn:E; [reflexivity|].
  apply not_true_is_false. intros Hv'.
  apply is_chain_valid_cons in Hv' as [(_ & Hp & _) _].
  assert (Hb : bs !! i = Some b).
  { pose proof (lookup_drop bs i 0) as H. rewrite E in H. cbn [lookup list_lookup] in H.
    rewrite Nat.add_0_r in H. symmetry. exact H. }
  destruct (is_chain_valid_at bs i b Hv Hb) as [_ Hprev].
  destruct i as [|j]; [lia|]. cbn [expected_previousHash] in Hprev.
  destruct (lookup_lt_is_Some_2 bs j) as [p Hj].
  { apply lookup_lt_Some in Hb. lia. }
  rewrite Hj in Hprev. rewrite Hp in Hprev. symmetry in Hprev.
  exact (calculate_hash_not_0 _ Hprev).
Qed.

Lemma is_chain_valid_rejects_suffix_witness :
  is_chain_valid [gap_first; gap_second] = true ∧ (0 < 1)%nat ∧
  is_chain_valid [gap_second] = false.
Proof.
  split; [exact gap_blocks_valid|]. split; [lia|].
  apply (is_chain_valid_rejects_suffix [gap_first; gap_second] 1 gap_blocks_valid).
  lia.
Defined.

Lemma same_block (b b' : Block) :
  same_hashed_fields b b' → hash b = hash b' → b = b'.
Proof.
  intros (H1 & H2 & H3 & H4 & H5) H6. destruct b, b'. cbn in *. subst. reflexivity.
Qed.

Lemma MessageSender_eq_or_not (a b : MessageSender) : a = b ∨ a ≠ b.
Proof.
  destruct a as [i1 u1], b as [i2 u2].
  destruct (decide (i1 = i2)) as [->|H]; [|right; congruence].
  destruct (decide (u1 = u2)) as [->|H]; [left; reflexivity | right; congruence].
Qed.

Lemma Message_eq_or_not (a b : Message) : a = b ∨ a ≠ b.
Proof.
  destruct a as [s1 r1 c1 t1], b as [s2 r2 c2 t2].
  destruct (MessageSender_eq_or_not s1 s2) as [->|H]; [|right; congruence].
  destruct (MessageSender_eq_or_not r1 r2) as [->|H]; [|right; congruence].
  destruct (decide (c1 = c2)) as [->|H]; [|right; congruence].
  destruct (decide (t1 = t2)) as [->|H]; [left; reflexivity | right; congruence].
Qed.

Lemma same_hashed_fields_or_not (b b' : Block) :
  same_hashed_fields b b' ∨ ¬ same_hashed_fields b b'.
Proof.
  unfold same_hashed_fields.
  destruct (decide (index b = index b')) as [H1|H]; [|right; tauto].
  destruct (decide (previousHash b = previousHash b')) as [H2|H]; [|right; tauto].
  destruct (decide (timestamp b = timestamp b')) as [H3|H]; [|right; tauto].
  destruct (Message_eq_or_not (message b) (message b')) as [H4|H]; [|right; tauto].
  destruct (decide (proof b = proof b')) as [H5|H]; [|right; tauto].
  left. tauto.
Qed.

Lemma is_chain_valid_snoc (l : list Block) (t : Block) :
  is_chain_valid (l ++ [t]) = true →
  hash t = calculate_hash t ∧
  (l = [] ∧ previousHash t = "0" ∨
   ∃ (l' : list Block) (p : Block),
     l = l' ++ [p] ∧ is_chain_valid l = true ∧
     previousHash t = calculate_hash p ∧ hash p = calculate_hash p).
Proof.
  intros Hv. destruct (last l) as [p|] eqn:Hl.
  - destruct (proj1 (is_chain_valid_app l p t Hl) Hv) as [Hvl [Hprev Hself]].
    split; [exact Hself|]. right.
    destruct (last_Some l p) as [[l' ->] _]; [exact Hl|].
    exists l', p. split; [reflexivity|]. split; [exact Hvl|]. split; [exact Hprev|].
    destruct (is_chain_valid_at (l' ++ [p]) (List.length l') p Hvl) as [Hp _].
    { rewrite lookup_app_r by lia. rewrite Nat.sub_diag. reflexivity. }
    exact Hp.
  - apply last_None in Hl as ->. cbn [app] in Hv.
    apply is_chain_valid_cons in Hv as [(_ & Hp & Hh) _].
    split; [exact Hh|]. left. split; [reflexivity | exact Hp].
Qed.

Lemma collision_between_snoc (l1 l2 : list Block) (t1 t2 : Block) :
  collision_between l1 l2 → collision_between (l1 ++ [t1]) (l2 ++ [t2]).
Proof.
  intros (b & b' & H1 & H2 & H3). exists b, b'.
  split; [apply elem_of_app; left; exact H1|].
  split; [apply elem_of_app; left; exact H2 | exact H3].
Qed.

Lemma tail_hash_commits (l1 : list Block) : ∀ (l2 : list Block) (t1 t2 : Block),
  is_chain_valid (l1 ++ [t1]) = true → is_chain_valid (l2 ++ [t2]) = true →
  hash t1 = hash t2 →
  l1 ++ [t1] = l2 ++ [t2] ∨ collision_between (l1 ++ [t1]) (l2 ++ [t2]).
Proof.
  induction l1 as [|p1 l1' IH] using rev_ind; intros l2 t1 t2 Hv1 Hv2 Hh.
  - destruct (is_chain_valid_snoc _ _ Hv1) as [Hs1 [[_ Hp1]|(l' & p & E & _)]].
    2: { destruct l'; discriminate E. }
    destruct (is_chain_valid_snoc _ _ Hv2) as [Hs2 Hcase].
    destruct (same_hashed_fields_or_not t1 t2) as [E|E].
    + pose proof (same_block t1 t2 E Hh) as ->.
      destruct Hcase as [[-> _]|(l' & p & _ & _ & Hp2 & _)]; [left; reflexivity|].
      rewrite Hp1 in Hp2. symmetry in Hp2.
      destruct (calculate_hash_not_0 _ Hp2).
    + right. exists t1, t2. split; [apply list_elem_of_here|].
      split; [apply elem_of_app; right; apply list_elem_of_here|].
      split; [exact E | congruence].
  - destruct (is_chain_valid_snoc _ _ Hv1) as [Hs1 [[E _]|(l' & p & E & Hvl1 & Hp1 & Hsp1)]].
    { destruct l1'; discriminate E. }
    apply app_inj_tail in E as [<- <-].
    destruct (is_chain_valid_snoc _ _ Hv2) as [Hs2 Hcase].
    destruct (same_hashed_fields_or_not t1 t2) as [E|E].
    + pose proof (same_block t1 t2 E Hh) as ->.
      destruct Hcase as [[_ Hp2]|(l2' & p2 & -> & Hvl2 & Hp2 & Hsp2)].
      * rewrite Hp2 in Hp1. symmetry in Hp1.
        destruct (calculate_hash_not_0 _ Hp1).
      * destruct (IH l2' p1 p2 Hvl1 Hvl2) as [Heq|Hcol]; [congruence| |].
        { left. rewrite Heq. reflexivity. }
        { right. apply collision_between_snoc, Hcol. }
    + right. exists t1, t2.
      split; [apply elem_of_app; right; apply list_elem_of_here|].
      split; [apply elem_of_app; right; apply list_elem_of_here|].
      split; [exact E | congruence].
Qed.

(** X21. The stored hash of the last block commits to the whole list up
    to collisions of [calculate_hash]: two block lists that
    [is_chain_valid] accepts and whose last blocks store the same hash are
    the same list, block by block and field by field, or else some block
    of the one and some block of the other differ in a hashed field and
    have the same digest. *)
Theorem tail_hash_commits_to_chain (bs1 bs2 : list Block) (t1 t2 : Block) :
  is_chain_valid bs1 = true → is_chain_valid bs2 = true →
  last bs1 = Some t1 → last bs2 = Some t2 → hash t1 = hash t2 →
  bs1 = bs2 ∨ collision_between bs1 bs2.
Proof.
  intros Hv1 Hv2 Hl1 Hl2 Hh.
  destruct (last_Some bs1 t1) as [[l1 ->] _]; [exact Hl1|].
  destruct (last_Some bs2 t2) as [[l2 ->] _]; [exact Hl2|].
  exact (tail_hash_commits l1 l2 t1 t2 Hv1 Hv2 Hh).
Qed.

Lemma tail_hash_commits_to_chain_witness :
  is_chain_valid [gap_first; gap_second] = true ∧
  last [gap_first; gap_second] = Some gap_second ∧
  ([gap_first; gap_second] = [gap_first; gap_second] ∨
   collision_between [gap_first; gap_second] [gap_first; gap_second]).
Proof.
  split; [exact gap_blocks_valid|]. split; [reflexivity|].
  exact (tail_hash_commits_to_chain [gap_first; gap_second] [gap_first; gap_second]
           gap_second gap_second gap_blocks_valid gap_blocks_valid
           eq_refl eq_refl eq_refl).
Defined.

(** * The resolver on strings of any code points *)

Section UnicodeJson.

Import Unicode.

(** ** Strings *)

Lemma unicode_hex_value_digit (d : N) :
  (d < 16)%N → hex_value (hex_digit d) = Some d.
Proof.
  intros H. destruct d as [|p]; [reflexivity|].
  repeat (destruct p as [p|p|]; try reflexivity; try lia).
Qed.

Lemma unicode_hex4_sum (n : N) :
  (n < 65536)%N →
  ((((n / 4096 mod 16) * 16 + n / 256 mod 16) * 16 + n / 16 mod 16) * 16
   + n mod 16)%N = n.
Proof.
  intros H.
  change 4096%N with (16 * 16 * 16)%N. change 256%N with (16 * 16)%N.
  rewrite <- !N.Div0.div_div.
  pose proof (N.div_mod n 16 ltac:(discriminate)).
  pose proof (N.div_mod (n / 16) 16 ltac:(discriminate)).
  pose proof (N.div_mod (n / 16 / 16) 16 ltac:(discriminate)).
  pose proof (N.div_mod (n / 16 / 16 / 16) 16 ltac:(discriminate)).
  assert (n / 16 / 16 / 16 / 16 = 0)%N.
  { rewrite !N.Div0.div_div. apply N.div_small. exact H. }
  lia.
Qed.

Lemma unicode_hex4_value (n : N) :
  (n < 0x10000)%N →
  hex4_value (hex_digit (n / 4096 mod 16)) (hex_digit (n / 256 mod 16))
             (hex_digit (n / 16 mod 16)) (hex_digit (n mod 16)) = Some n.
Proof.
  intros H. unfold hex4_value.
  rewrite !unicode_hex_value_digit by (apply N.mod_lt; discriminate).
  f_equal. apply unicode_hex4_sum, H.
Qed.

(** How [scanstring] reads an escape of four hexadecimal digits. *)
Lemma unicode_scanstring_uXXXX (h1 h2 h3 h4 : ascii) (t : string) :
  scanstring (String backslash (String "u"
    (String h1 (String h2 (String h3 (String h4 t)))))) =
  match hex4_value h1 h2 h3 h4 with
  | Some uni =>
      if (0xd800 <=? uni)%N && (uni <=? 0xdbff)%N && starts_u t then
        match t with
        | String _ (String _ (String g1 (String g2 (String g3 (String g4 rest3))))) =>
            match hex4_value g1 g2 g3 g4 with
            | Some uni2 =>
                if (0xdc00 <=? uni2)%N && (uni2 <=? 0xdfff)%N then
                  cons_char
                    (0x10000 + N.lor (N.shiftl (uni - 0xd800) 10) (uni2 - 0xdc00))%N
                    (scanstring rest3)
                else cons_char uni (scanstring t)
            | None => None
            end
        | _ => None
        end
      else cons_char uni (scanstring t)
  | None => None
  end.
Proof. reflexivity. Qed.

Lemma unicode_u_escape (n : N) (t : string) :
  u_escape n +:+ t =
  String backslash (String "u" (String (hex_digit (n / 4096 mod 16))
    (String (hex_digit (n / 256 mod 16)) (String (hex_digit (n / 16 mod 16))
      (String (hex_digit (n mod 16)) t))))).
Proof. reflexivity. Qed.

Lemma unicode_scanstring_bmp (n : N) (t : string) :
  (n < 0x10000)%N → ((0xd800 <=? n) && (n <=? 0xdbff))%N = false →
  scanstring (u_escape n +:+ t) = cons_char n (scanstring t).
Proof.
  intros Hn Hs.
  rewrite unicode_u_escape, unicode_scanstring_uXXXX, (unicode_hex4_value n Hn), Hs.
  reflexivity.
Qed.

Lemma unicode_lor_shiftl (a b n : N) :
  (b < 2 ^ n)%N → N.lor (N.shiftl a n) b = (a * 2 ^ n + b)%N.
Proof.
  intros Hb. rewrite <- N.shiftl_mul_pow2.
  assert (H0 : N.land (N.shiftl a n) b = 0%N).
  { apply N.bits_inj_0. intros i. rewrite N.land_spec.
    destruct (N.lt_ge_cases i n) as [Hi|Hi].
    - rewrite N.shiftl_spec_low by exact Hi. reflexivity.
    - destruct (N.eq_dec b 0%N) as [->|Hb0]; [rewrite N.bits_0; apply andb_false_r|].
      rewrite (N.bits_above_log2 b i), andb_false_r; [reflexivity|].
      apply N.lt_le_trans with n; [|exact Hi].
      apply N.log2_lt_pow2; [lia | exact Hb]. }
  rewrite (N.add_nocarry_lxor _ _ H0). symmetry. apply N.lxor_lor, H0.
Qed.

(** The two surrogates that the encoder writes for a code point from
    0x10000 on. *)
Lemma unicode_surrogates (c : N) :
  (0x10000 <= c < 0x110000)%N →
  N.lor 0xd800 (N.land (N.shiftr (c - 0x10000) 10) 0x3ff)
    = (0xd800 + (c - 0x10000) / 1024)%N ∧
  N.lor 0xdc00 (N.land (c - 0x10000) 0x3ff)
    = (0xdc00 + (c - 0x10000) mod 1024)%N ∧
  ((c - 0x10000) / 1024 < 1024)%N.
Proof.
  intros Hc. set (v := (c - 0x10000)%N). assert (Hv : (v < 0x100000)%N) by lia.
  assert (Hq : (v / 1024 < 1024)%N).
  { apply N.Div0.div_lt_upper_bound. exact Hv. }
  assert (Hr : (v mod 1024 < 1024)%N) by (apply N.mod_lt; discriminate).
  change 0x3ff%N with (N.ones 10). rewrite !N.land_ones, N.shiftr_div_pow2.
  change (2 ^ 10)%N with 1024%N. rewrite (N.mod_small (v / 1024) 1024 Hq).
  change 0xd800%N with (N.shiftl 54 10). change 0xdc00%N with (N.shiftl 55 10).
  rewrite !unicode_lor_shiftl by assumption.
  change (N.shiftl 54 10) with (54 * 2 ^ 10)%N.
  change (N.shiftl 55 10) with (55 * 2 ^ 10)%N. auto.
Qed.

Lemma unicode_scanstring_pair (c : N) (t : string) :
  (0x10000 <= c < 0x110000)%N →
  scanstring
    (u_escape (N.lor 0xd800 (N.land (N.shiftr (c - 0x10000) 10) 0x3ff)) +:+
     u_escape (N.lor 0xdc00 (N.land (c - 0x10000) 0x3ff)) +:+ t) =
  cons_char c (scanstring t).
Proof.
  intros Hc. destruct (unicode_surrogates c Hc) as (-> & -> & Hq).
  pose proof (N.div_mod (c - 0x10000) 1024 ltac:(discriminate)) as Hdm.
  assert (Hr : ((c - 0x10000) mod 1024 < 1024)%N) by (apply N.mod_lt; discriminate).
  remember ((c - 0x10000) / 1024)%N as q eqn:Eq.
  remember ((c - 0x10000) mod 1024)%N as r eqn:Er. clear Eq Er.
  rewrite (unicode_u_escape (0xd800 + q)), (unicode_u_escape (0xdc00 + r)).
  rewrite unicode_scanstring_uXXXX.
  rewrite (unicode_hex4_value (0xd800 + q)) by lia.
  replace ((0xd800 <=? 0xd800 + q)%N && (0xd800 + q <=? 0xdbff)%N) with true
    by (symmetry; apply andb_true_iff; split; apply N.leb_le; lia).
  cbn [starts_u]. change ((N_of_ascii backslash =? 92)%N && (N_of_ascii "u" =? 117)%N)
    with true. cbn [andb].
  rewrite (unicode_hex4_value (0xdc00 + r)) by lia.
  replace ((0xdc00 <=? 0xdc00 + r)%N && (0xdc00 + r <=? 0xdfff)%N) with true
    by (symmetry; apply andb_true_iff; split; apply N.leb_le; lia).
  f_equal.
  replace (0xd800 + q - 0xd800)%N with q by lia.
  replace (0xdc00 + r - 0xdc00)%N with r by lia.
  rewrite (unicode_lor_shiftl q r 10) by exact Hr.
  change (2 ^ 10)%N with 1024%N. lia.
Qed.

Lemma unicode_scanstring_literal (c : ascii) (rest : string) :
  (N_of_ascii c =? 34)%N = false → (N_of_ascii c =? 92)%N = false →
  (N_of_ascii c <? 32)%N = false →
  scanstring (String c rest) = cons_char (N_of_ascii c) (scanstring rest).
Proof.
  intros H1 H2 H3.
  change (scanstring (String c rest)) with
    (if (N_of_ascii c =? 34)%N then Some ([], rest)
     else if (N_of_ascii c =? 92)%N then
       match rest with
       | EmptyString => None
       | String e rest1 =>
           if (N_of_ascii e =? 117)%N then
             match rest1 with
             | String h1 (String h2 (String h3 (String h4 rest2))) =>
                 scanstring (String backslash (String "u"
                   (String h1 (String h2 (String h3 (String h4 rest2))))))
             | _ => None
             end
           else
             match unescape e with
             | Some ch => cons_char (N_of_ascii ch) (scanstring rest1)
             | None => None
             end
       end
     else if (N_of_ascii c <? 32)%N then None
     else cons_char (N_of_ascii c) (scanstring rest)).
  rewrite H1, H2, H3. reflexivity.
Qed.

Lemma unicode_scanstring_escape_char (c : N) (t : string) :
  plain_char c = true →
  scanstring (escape_char c +:+ t) = cons_char c (scanstring t).
Proof.
  intros Hp. unfold plain_char in Hp.
  apply andb_true_iff in Hp as [Hlt Hs]. apply N.ltb_lt in Hlt.
  apply negb_true_iff in Hs. unfold escape_char.
  destruct (N.eqb_spec c 34) as [->|H34]; [reflexivity|].
  destruct (N.eqb_spec c 92) as [->|H92]; [reflexivity|].
  destruct (N.eqb_spec c 8) as [->|H8]; [reflexivity|].
  destruct (N.eqb_spec c 12) as [->|H12]; [reflexivity|].
  destruct (N.eqb_spec c 10) as [->|H10]; [reflexivity|].
  destruct (N.eqb_spec c 13) as [->|H13]; [reflexivity|].
  destruct (N.eqb_spec c 9) as [->|H9]; [reflexivity|].
  destruct ((c <? 32)%N || (126 <? c)%N) eqn:E.
  - destruct (c <? 0x10000)%N eqn:E2.
    + apply N.ltb_lt in E2. apply unicode_scanstring_bmp; [exact E2|].
      apply andb_false_iff in Hs as [Hs|Hs].
      * rewrite Hs. reflexivity.
      * apply andb_false_iff. apply N.leb_gt in Hs.
        right. apply N.leb_gt. lia.
    + apply N.ltb_ge in E2. cbv zeta. rewrite string_app_assoc.
      apply unicode_scanstring_pair. lia.
  - apply orb_false_iff in E as [E1 E2].
    apply N.ltb_ge in E1. apply N.ltb_ge in E2.
    rewrite string_app_cons, string_app_nil_l.
    assert (Hc : N_of_ascii (ascii_of_N c) = c) by (apply N_ascii_embedding; lia).
    rewrite unicode_scanstring_literal; rewrite Hc.
    + reflexivity.
    + apply N.eqb_neq, H34.
    + apply N.eqb_neq, H92.
    + apply N.ltb_ge, E1.
Qed.

Lemma unicode_scanstring_escape (s : list N) (rest : string) :
  plain_str s = true →
  scanstring (escape s +:+ String quote rest) = Some (s, rest).
Proof.
  induction s as [|c s IH]; intros Hp; [reflexivity|].
  cbn [plain_str forallb] in Hp. apply andb_true_iff in Hp as [Hc Hs].
  cbn [escape]. rewrite string_app_assoc, (unicode_scanstring_escape_char c _ Hc).
  rewrite (IH Hs). reflexivity.
Qed.

Lemma unicode_scanstring_encode (s : list N) (rest : string) :
  plain_str s = true →
  scanstring (advance (encode_basestring_ascii s +:+ rest)) = Some (s, rest).
Proof.
  intros Hp. unfold encode_basestring_ascii. rewrite string_app_cons. cbn [advance].
  rewrite string_app_assoc. apply unicode_scanstring_escape, Hp.
Qed.

End UnicodeJson.

Section UnicodeValues.

Import Unicode.

(** ** Sorted items *)

Lemma unicode_insert_item_fmap {A B} (f : A → B) (kv : list N * A)
  (l : list (list N * A)) :
  insert_item (prod_map id f kv) (prod_map id f <$> l) =
  prod_map id f <$> insert_item kv l.
Proof.
  induction l as [|kv' l IH]; [reflexivity|].
  cbn [fmap list_fmap insert_item]. destruct kv as [k v], kv' as [k' v'].
  cbn [prod_map fst snd id]. destruct (str_leb k k'); [reflexivity|].
  cbn [fmap list_fmap] in IH |- *. cbn [prod_map fst snd id] in IH.
  rewrite IH. reflexivity.
Qed.

Lemma unicode_sort_items_fmap {A B} (f : A → B) (l : list (list N * A)) :
  foldr insert_item [] (prod_map id f <$> l) =
  prod_map id f <$> foldr insert_item [] l.
Proof.
  induction l as [|kv l IH]; [reflexivity|].
  cbn [fmap list_fmap foldr]. cbn [fmap] in IH. rewrite IH.
  apply unicode_insert_item_fmap.
Qed.

Lemma unicode_insert_item_perm {A} (kv : list N * A) (l : list (list N * A)) :
  insert_item kv l ≡ₚ kv :: l.
Proof.
  induction l as [|kv' l IH]; [reflexivity|]. cbn [insert_item].
  destruct (str_leb _ _); [reflexivity|].
  rewrite IH. apply Permutation_swap.
Qed.

Lemma unicode_sorted_items_fmap {A B} (f : A → B) (m : gmap (list N) A) :
  sorted_items (f <$> m) = prod_map id f <$> sorted_items m.
Proof.
  unfold sorted_items. rewrite map_to_list_fmap. apply unicode_sort_items_fmap.
Qed.

Lemma unicode_sorted_items_perm {A} (m : gmap (list N) A) :
  sorted_items m ≡ₚ map_to_list m.
Proof.
  unfold sorted_items. induction (map_to_list m) as [|kv l IH]; [reflexivity|].
  cbn [foldr]. rewrite unicode_insert_item_perm, IH. reflexivity.
Qed.

Lemma unicode_sorted_items_nil_inv {A} (m : gmap (list N) A) :
  sorted_items m = [] → m = ∅.
Proof.
  intros H. apply map_to_list_empty_iff, Permutation_nil_r.
  rewrite <- unicode_sorted_items_perm, H. reflexivity.
Qed.

Lemma unicode_dict_of_sorted_items {A} (m : gmap (list N) A) :
  dict_of_pairs (sorted_items m) = m.
Proof.
  unfold dict_of_pairs. symmetry. apply list_to_map_flip.
  rewrite reverse_Permutation, unicode_sorted_items_perm. reflexivity.
Qed.

(** ** Induction on the values *)

Lemma unicode_size_list_elem (x : json) (l : list json) :
  x ∈ l → (unicode_size x < unicode_size (JList l))%nat.
Proof.
  intros H. cbn [unicode_size]. apply Nat.lt_succ_r, sum_list_elem.
  apply list_elem_of_fmap. exists x. auto.
Qed.

Lemma unicode_size_dict_elem (k : list N) (x : json) (m : gmap (list N) json) :
  m !! k = Some x → (unicode_size x < unicode_size (JObj m))%nat.
Proof.
  intros H. cbn [unicode_size]. apply Nat.lt_succ_r, sum_list_elem.
  apply list_elem_of_fmap. exists (k, unicode_size x). split; [reflexivity|].
  apply elem_of_map_to_list. rewrite lookup_fmap, H. reflexivity.
Qed.

Lemma unicode_json_ind (P : json → Prop) :
  P JNull → (∀ b, P (JBool b)) → (∀ n, P (JInt n)) → (∀ s, P (JStr s)) →
  (∀ l, Forall P l → P (JList l)) →
  (∀ m : gmap (list N) json, map_Forall (λ _, P) m → P (JObj m)) →
  ∀ v, P v.
Proof.
  intros Hnull Hbool Hint Hstr Hlist Hobj v.
  remember (unicode_size v) as n eqn:En. revert v En.
  induction n as [n IH] using lt_wf_ind. intros v ->.
  destruct v as [|b|z|s|l|m]; auto.
  - apply Hlist, Forall_forall. intros x Hx.
    apply (IH (unicode_size x)); [apply unicode_size_list_elem, Hx | reflexivity].
  - apply Hobj. intros k x Hk.
    apply (IH (unicode_size x)); [apply (unicode_size_dict_elem k), Hk | reflexivity].
Qed.

(** ** What [well_formed] says of the parts of a value *)

Lemma forallb_id_fmap {A} (f : A → bool) (l : list A) :
  forallb id (f <$> l) = true ↔ ∀ x, x ∈ l → f x = true.
Proof.
  induction l as [|a l IH].
  - split; [intros _ x Hx; inversion Hx | reflexivity].
  - cbn [fmap list_fmap forallb id]. rewrite andb_true_iff.
    cbn [fmap] in IH. rewrite IH. split.
    + intros [Ha Hl] x Hx. apply elem_of_cons in Hx as [->|Hx]; auto.
    + intros H. split; [apply H, list_elem_of_here|].
      intros x Hx. apply H, list_elem_of_further, Hx.
Qed.

Lemma well_formed_list (l : list json) (x : json) :
  well_formed (JList l) → x ∈ l → well_formed x.
Proof.
  intros [Hi Hp] Hx. cbn [ints_ok plain] in Hi, Hp.
  rewrite forallb_id_fmap in Hi, Hp. split; auto.
Qed.

Lemma well_formed_dict (m : gmap (list N) json) (k : list N) (x : json) :
  well_formed (JObj m) → m !! k = Some x → plain_str k = true ∧ well_formed x.
Proof.
  intros [Hi Hp] Hk. cbn [ints_ok plain] in Hi, Hp.
  rewrite forallb_forall in Hp.
  specialize (Hp (k, plain x)). cbn [fst snd] in Hp.
  assert (Hin : (k, plain x) ∈ map_to_list (plain <$> m)).
  { apply elem_of_map_to_list. rewrite lookup_fmap, Hk. reflexivity. }
  apply list_elem_of_In, Hp, andb_true_iff in Hin as [Hkp Hxp].
  split; [exact Hkp|]. split; [|exact Hxp].
  rewrite forallb_forall in Hi. apply (Hi (ints_ok x)).
  apply list_elem_of_In, list_elem_of_fmap. exists (k, ints_ok x).
  split; [reflexivity|]. apply elem_of_map_to_list.
  rewrite lookup_fmap, Hk. reflexivity.
Qed.

(** ** Values *)

Lemma unicode_text_list (l : list json) :
  json_text (JList l) = String "[" (join ", " (json_text <$> l) +:+ "]").
Proof. reflexivity. Qed.

Lemma unicode_text_dict (m : gmap (list N) json) :
  json_text (JObj m) =
  String "{" (join ", " (unicode_dump_pair <$> sorted_items m) +:+ "}").
Proof.
  cbn [json_text]. rewrite unicode_sorted_items_fmap, <- list_fmap_compose.
  reflexivity.
Qed.

Lemma unicode_text_start (v : json) : starts_with value_start (json_text v).
Proof.
  destruct v as [|[]|z|s|l|m]; try reflexivity.
  pose proof (int_repr_start z) as H. cbn [json_text].
  destruct (int_repr z) as [|c t]; [contradiction|].
  cbn [starts_with] in H |- *. unfold value_start. rewrite H. apply orb_true_r.
Qed.

Lemma unicode_dump_pair_start (kv : list N * json) :
  starts_with value_start (unicode_dump_pair kv).
Proof. reflexivity. Qed.

Lemma unicode_scan_once_number (fuel : nat) (c : ascii) (t : string) :
  number_start c = true →
  scan_once (S fuel) (String c t) =
  match scan_number (String c t) with
  | Some (z, r) => if int_ok z then Return (JInt z, r) else Raise ValueError
  | None => Raise JSONDecodeError
  end.
Proof.
  destruct c as [[] [] [] [] [] [] [] []]; try discriminate; reflexivity.
Qed.

Lemma unicode_scan_values_S (fuel : nat) (s : string) :
  scan_values (S fuel) s =
  match scan_once fuel s with
  | Return (v, r) =>
      let r1 := skip_whitespace r in
      if next_is 93 r1 then Return ([v], advance r1)
      else if next_is 44 r1 then
        match scan_values fuel (skip_whitespace (advance r1)) with
        | Return (values, r2) => Return (v :: values, r2)
        | Raise e => Raise e
        end
      else Raise JSONDecodeError
  | Raise e => Raise e
  end.
Proof. reflexivity. Qed.

Lemma unicode_scan_values_join (l : list json) (rest : string) :
  Forall unicode_reads_back l → l ≠ [] →
  ∀ fuel : nat,
    (String.length (join ", " (json_text <$> l)) < fuel)%nat →
    scan_values fuel (join ", " (json_text <$> l) +:+ String "]" rest) =
    Return (l, rest).
Proof.
  intros Hall. induction Hall as [|x l Hx Hall IH]; intros Hne fuel Hfuel;
    [contradiction|].
  destruct fuel as [|fuel]; [lia|]. rewrite unicode_scan_values_S.
  destruct l as [|y l].
  - cbn [fmap list_fmap join] in Hfuel |- *.
    rewrite (Hx fuel (String "]" rest)); [reflexivity | lia | reflexivity].
  - clear Hne. cbn [fmap list_fmap] in Hfuel, IH |- *.
    rewrite join_cons_cons in Hfuel |- *.
    rewrite !string_app_length in Hfuel. cbn [String.length] in Hfuel.
    rewrite !string_app_assoc.
    rewrite (Hx fuel); [| lia | reflexivity].
    rewrite !string_app_cons, string_app_nil_l.
    change (skip_whitespace (String "," ?s)) with (String "," s).
    cbn [next_is advance].
    change (N_of_ascii "," =? 93)%N with false.
    change (N_of_ascii "," =? 44)%N with true. cbv iota.
    rewrite skip_whitespace_space_value.
    2: { apply starts_with_app, join_start, unicode_text_start. }
    rewrite IH; [reflexivity | discriminate | lia].
Qed.

Lemma unicode_scan_pairs_S (fuel : nat) (t : string) :
  scan_pairs (S fuel) (String quote t) =
  match scanstring t with
  | Some (key, r) =>
      let r1 := skip_whitespace r in
      if next_is 58 r1 then
        match scan_once fuel (skip_whitespace (advance r1)) with
        | Return (v, r2) =>
            let r3 := skip_whitespace r2 in
            if next_is 125 r3 then Return ([(key, v)], advance r3)
            else if next_is 44 r3 then
              match scan_pairs fuel (skip_whitespace (advance r3)) with
              | Return (pairs, r4) => Return ((key, v) :: pairs, r4)
              | Raise e => Raise e
              end
            else Raise JSONDecodeError
        | Raise e => Raise e
        end
      else Raise JSONDecodeError
  | None => Raise JSONDecodeError
  end.
Proof. reflexivity. Qed.

(** One pair, up to the text [rest] that follows its value. *)
Lemma unicode_scan_pair_value (fuel : nat) (k : list N) (v : json) (rest : string) :
  plain_str k = true → unicode_reads_back v →
  (String.length (unicode_dump_pair (k, v)) <= fuel)%nat →
  no_digit_head rest →
  scanstring (advance (unicode_dump_pair (k, v) +:+ rest)) =
    Some (k, String ":" (String " " (json_text v +:+ rest))) ∧
  scan_once fuel (json_text v +:+ rest) = Return (v, rest).
Proof.
  intros Hk Hv Hfuel Hrest. unfold unicode_dump_pair in *. cbn [fst snd] in *. split.
  - rewrite !string_app_assoc, (unicode_scanstring_encode k _ Hk). reflexivity.
  - apply Hv; [|exact Hrest]. rewrite !string_app_length in Hfuel. lia.
Qed.

Lemma unicode_dump_pair_quote (kv : list N * json) (rest : string) :
  unicode_dump_pair kv +:+ rest =
  String quote (advance (unicode_dump_pair kv +:+ rest)).
Proof. reflexivity. Qed.

Lemma unicode_scan_pairs_join (items : list (list N * json)) (rest : string) :
  Forall (λ kv, plain_str (fst kv) = true ∧ unicode_reads_back (snd kv)) items →
  items ≠ [] →
  ∀ fuel : nat,
    (String.length (join ", " (unicode_dump_pair <$> items)) < fuel)%nat →
    scan_pairs fuel (join ", " (unicode_dump_pair <$> items) +:+ String "}" rest) =
    Return (items, rest).
Proof.
  intros Hall. induction Hall as [|[k v] items [Hk Hv] Hall IH]; intros Hne fuel Hfuel;
    [contradiction|].
  destruct fuel as [|fuel]; [lia|]. cbn [fst snd] in Hk, Hv.
  destruct items as [|kv items].
  - cbn [fmap list_fmap join] in Hfuel |- *.
    rewrite unicode_dump_pair_quote, unicode_scan_pairs_S.
    destruct (unicode_scan_pair_value fuel k v (String "}" rest) Hk Hv) as [-> Hval];
      [lia | reflexivity |].
    change (skip_whitespace (String ":" ?s)) with (String ":" s).
    cbn [next_is advance]. change (N_of_ascii ":" =? 58)%N with true. cbv iota.
    rewrite skip_whitespace_space_value by apply starts_with_app, unicode_text_start.
    rewrite Hval. reflexivity.
  - clear Hne. cbn [fmap list_fmap] in Hfuel, IH |- *.
    rewrite join_cons_cons in Hfuel |- *.
    rewrite !string_app_length in Hfuel. cbn [String.length] in Hfuel.
    rewrite !string_app_assoc.
    rewrite unicode_dump_pair_quote, unicode_scan_pairs_S.
    destruct (unicode_scan_pair_value fuel k v
      (", " +:+ join ", " (unicode_dump_pair kv :: (unicode_dump_pair <$> items))
         +:+ String "}" rest) Hk Hv)
      as [-> Hval]; [lia | reflexivity |].
    change (skip_whitespace (String ":" ?s)) with (String ":" s).
    cbn [next_is advance]. change (N_of_ascii ":" =? 58)%N with true. cbv iota.
    rewrite skip_whitespace_space_value by apply starts_with_app, unicode_text_start.
    rewrite Hval.
    rewrite !string_app_cons, string_app_nil_l.
    change (skip_whitespace (String "," ?s)) with (String "," s).
    cbn [next_is advance].
    change (N_of_ascii "," =? 125)%N with false.
    change (N_of_ascii "," =? 44)%N with true. cbv iota.
    rewrite skip_whitespace_space_value.
    2: { apply starts_with_app, join_start, unicode_dump_pair_start. }
    rewrite IH; [reflexivity | discriminate | lia].
Qed.

Lemma unicode_scan_once_list (fuel : nat) (t : string) :
  scan_once (S fuel) (String "[" t) =
  let s1 := skip_whitespace t in
  if next_is 93 s1 then Return (JList [], advance s1)
  else
    match scan_values fuel s1 with
    | Return (values, r) => Return (JList values, r)
    | Raise e => Raise e
    end.
Proof. reflexivity. Qed.

Lemma unicode_scan_once_dict (fuel : nat) (t : string) :
  scan_once (S fuel) (String "{" t) =
  let s1 := skip_whitespace t in
  if next_is 125 s1 then Return (JObj ∅, advance s1)
  else
    match scan_pairs fuel s1 with
    | Return (pairs, r) => Return (JObj (dict_of_pairs pairs), r)
    | Raise e => Raise e
    end.
Proof. reflexivity. Qed.

Lemma unicode_scan_once_string (fuel : nat) (t : string) :
  scan_once (S fuel) (String quote t) =
  match scanstring t with
  | Some (s, r) => Return (JStr s, r)
  | None => Raise JSONDecodeError
  end.
Proof. reflexivity. Qed.

Lemma unicode_reads_back_list (l : list json) :
  Forall unicode_reads_back l → unicode_reads_back (JList l).
Proof.
  intros Hall fuel rest Hfuel Hrest. rewrite unicode_text_list in Hfuel |- *.
  cbn [String.length] in Hfuel. rewrite string_app_length in Hfuel.
  cbn [String.length] in Hfuel.
  destruct fuel as [|fuel]; [lia|].
  rewrite string_app_cons, string_app_assoc, unicode_scan_once_list.
  rewrite string_app_cons, string_app_nil_l.
  destruct l as [|x l]; [reflexivity|].
  assert (Hstart : starts_with value_start
            (join ", " (json_text <$> x :: l) +:+ String "]" rest)).
  { apply starts_with_app. cbn [fmap list_fmap]. apply join_start, unicode_text_start. }
  cbv zeta. rewrite (skip_whitespace_value _ Hstart).
  rewrite (next_is_start 93 _ Hstart) by (left; reflexivity).
  rewrite unicode_scan_values_join; [reflexivity | exact Hall | discriminate | lia].
Qed.

Lemma unicode_reads_back_dict (m : gmap (list N) json) :
  map_Forall (λ k v, plain_str k = true ∧ unicode_reads_back v) m →
  unicode_reads_back (JObj m).
Proof.
  intros Hall fuel rest Hfuel Hrest. rewrite unicode_text_dict in Hfuel |- *.
  cbn [String.length] in Hfuel. rewrite string_app_length in Hfuel.
  cbn [String.length] in Hfuel.
  destruct fuel as [|fuel]; [lia|].
  rewrite string_app_cons, string_app_assoc, unicode_scan_once_dict.
  rewrite string_app_cons, string_app_nil_l.
  destruct (sorted_items m) as [|kv items] eqn:E.
  - rewrite (unicode_sorted_items_nil_inv m E). reflexivity.
  - assert (Hstart : starts_with value_start
              (join ", " (unicode_dump_pair <$> kv :: items) +:+ String "}" rest)).
    { apply starts_with_app. cbn [fmap list_fmap].
      apply join_start, unicode_dump_pair_start. }
    cbv zeta. rewrite (skip_whitespace_value _ Hstart).
    rewrite (next_is_start 125 _ Hstart) by (right; reflexivity).
    rewrite unicode_scan_pairs_join; [| | discriminate | lia].
    + rewrite <- E, unicode_dict_of_sorted_items. reflexivity.
    + rewrite <- E. apply Forall_forall. intros [k v] Hkv. cbn [fst snd].
      rewrite unicode_sorted_items_perm in Hkv. apply elem_of_map_to_list in Hkv.
      exact (Hall k v Hkv).
Qed.

Lemma unicode_text_reads_back (v : json) : well_formed v → unicode_reads_back v.
Proof.
  induction v as [|b|z|s|l IH|m IH] using unicode_json_ind; intros Hw.
  - intros [|fuel] rest Hfuel _; [cbn in Hfuel; lia | reflexivity].
  - intros [|fuel] rest Hfuel _; destruct b; cbn in Hfuel; try lia; reflexivity.
  - intros fuel rest Hfuel Hrest. cbn [json_text] in Hfuel |- *.
    destruct Hw as [Hi _]. cbn [ints_ok] in Hi.
    pose proof (int_repr_length z). destruct fuel as [|fuel]; [lia|].
    pose proof (int_repr_start z) as Hstart.
    pose proof (scan_number_int_repr z rest Hrest) as Hscan.
    destruct (int_repr z) as [|c t]; [contradiction|].
    rewrite string_app_cons in Hscan |- *.
    rewrite (unicode_scan_once_number fuel c _ Hstart), Hscan, Hi. reflexivity.
  - intros [|fuel] rest Hfuel _; [cbn in Hfuel; lia|]. cbn [json_text].
    destruct Hw as [_ Hp]. cbn [plain] in Hp.
    unfold encode_basestring_ascii.
    rewrite string_app_cons, string_app_assoc, unicode_scan_once_string.
    rewrite string_app_cons, string_app_nil_l, (unicode_scanstring_escape s _ Hp).
    reflexivity.
  - apply unicode_reads_back_list. rewrite Forall_forall in IH |- *.
    intros x Hx. apply (IH x Hx), (well_formed_list l x Hw Hx).
  - apply unicode_reads_back_dict. intros k x Hk.
    destruct (well_formed_dict m k x Hw Hk) as [Hkp Hx].
    split; [exact Hkp | exact (IH k x Hk Hx)].
Qed.

(** [json.loads(json.dumps(v, sort_keys=True)) == v] for a value without
    surrogates. *)
Lemma unicode_loads_text (v : json) : well_formed v → loads (json_text v) = Return v.
Proof.
  intros Hw. unfold loads. rewrite (skip_whitespace_value _ (unicode_text_start v)).
  rewrite <- (string_app_nil_r (json_text v)) at 2.
  rewrite (unicode_text_reads_back v Hw); [reflexivity | lia | exact I].
Qed.

Lemma unicode_text_inj (v1 v2 : json) :
  well_formed v1 → well_formed v2 → json_text v1 = json_text v2 → v1 = v2.
Proof.
  intros H1 H2 H. pose proof (unicode_loads_text v1 H1) as E1.
  rewrite H, (unicode_loads_text v2 H2) in E1. congruence.
Qed.

End UnicodeValues.

Section UnicodeResolver.

Import Unicode.

(** ** The resolver *)












(** X17. [get_majority_chain] counts two stored dicts without surrogates
    in their strings (and with integers that [json.dumps] can write) as
    the same chain exactly when they are the same value: keys, types and
    contents. *)
Theorem serialisation_distinguishes (a b : Unicode.json) :
  well_formed a → well_formed b →
  (Unicode.json_text a = Unicode.json_text b ↔ a = b).
Proof.
  intros Ha Hb. split; [apply unicode_text_inj; assumption | intros ->; reflexivity].
Qed.

End UnicodeResolver.

Lemma node_chains_well_formed : well_formed node_short ∧ well_formed node_long.
Proof. repeat split; vm_compute; reflexivity. Qed.




Lemma serialisation_distinguishes_witness :
  well_formed node_short ∧ well_formed node_long ∧
  (Unicode.json_text node_short = Unicode.json_text node_long ↔
   node_short = node_long).
Proof.
  split; [exact (proj1 node_chains_well_formed)|].
  split; [exact (proj2 node_chains_well_formed)|].
  exact (serialisation_distinguishes node_short node_long
           (proj1 node_chains_well_formed) (proj2 node_chains_well_formed)).
Defined.
